(** * dataset-stats: grouped linear-regression batch prediction

    A shallow embedding of [src/index.js] (and of the variant of
    [batchPredict] in [src/unnamed/part_000]) together with the
    properties stated about them.

    Modelling conventions.

    - JavaScript values are restricted to the universe the library is
      documented for: [undefined], numbers, strings and arrays of such
      values.  Records and grouped entries are plain data objects, as
      an object literal or [JSON.parse] makes them: own fields, and
      [Object.prototype] behind them.
    - Of the prototype, the model has what the library runs into on
      such objects: [item.hasOwnProperty(key)] is a call of whatever
      the record holds under that name, and throws when the record has
      a field named ["hasOwnProperty"]; an assignment to ["__proto__"]
      on an object without a field of that name goes to the setter of
      [Object.prototype] and creates no field.  A read of a name the
      object does not own gives [undefined]: the functions
      [Object.prototype] holds ([constructor], [toString], ...) and a
      prototype replaced through ["__proto__"] are left out, and the
      statements whose truth depends on such a read exclude it by a
      hypothesis on the names involved.
    - Numbers are IEEE-754 binary64 values, the kernel's primitive
      floats: every sum, difference, product and quotient is rounded
      as the language rounds it.
    - An object is its list of own properties in the order
      [Object.keys] reports them: array-index names first, ascending,
      then the other names in creation order.
    - [throw] is modelled by the [outcome] monad.
    - The conversions between numbers and strings and [Math.pow]
      belong to the JavaScript runtime, not to this repository; they
      are the fields of the [Runtime] class. *)

From Stdlib Require Import List String Ascii Bool Arith Lia.
From Stdlib Require Import ZArith NArith.
From Stdlib Require Import Floats.PrimFloat Floats.SpecFloat Floats.FloatOps.
From Stdlib Require Import Permutation.
From Stdlib Require DecimalString.
Import ListNotations.

Local Open Scope string_scope.
Local Open Scope list_scope.

(* ================================================================== *)
(** * Part I: definitions *)
(* ================================================================== *)

(** ** Numbers

    A JavaScript number is an IEEE-754 binary64 value.  It is modelled
    by the kernel's primitive [float]: the same format, every
    operation rounded to nearest with ties to even, two zeros, two
    infinities and one [NaN]. *)

Definition num : Type := float.

Definition NaN : num := nan.

(** The number nearest to an integer; exact below [2^53]. *)
Definition num_of_Z (z : Z) : num :=
  SF2Prim (binary_normalize prec emax z 0 false).

Definition num_of_nat (n : nat) : num := num_of_Z (Z.of_nat n).

Definition nadd : num -> num -> num := PrimFloat.add.
Definition nsub : num -> num -> num := PrimFloat.sub.
Definition nmul : num -> num -> num := PrimFloat.mul.
Definition ndiv : num -> num -> num := PrimFloat.div.

(** ** Values and the runtime's conversions *)

#[warnings="-register-all"]
Inductive value : Type :=
| VUndef
| VNum (n : num)
| VStr (s : string)
| VArr (l : list value).

Class Runtime : Type := {
  (** [Number::toString] *)
  num_to_string : num -> string;
  (** [StringToNumber] *)
  string_to_num : string -> num;
  (** [Math.pow] on numbers, whose result the language leaves to the
      implementation ("implementation-approximated") *)
  math_pow : num -> num -> num
}.

Fixpoint join_strings (sep : string) (l : list string) : string :=
  match l with
  | [] => EmptyString
  | [s] => s
  | s :: l' => s ++ sep ++ join_strings sep l'
  end.

Section Conversions.
Context {rt : Runtime}.

(** [ToString].  For an array this is [join(",")], which renders
    [undefined] elements as the empty string. *)
Fixpoint to_string (v : value) : string :=
  match v with
  | VUndef => "undefined"
  | VNum n => num_to_string n
  | VStr s => s
  | VArr l =>
      join_strings ","
        (map (fun x => match x with VUndef => EmptyString | _ => to_string x end) l)
  end.

Definition elem_string (v : value) : string :=
  match v with
  | VUndef => EmptyString
  | _ => to_string v
  end.

(** [Array.prototype.join(sep)] *)
Definition join (sep : string) (l : list value) : string :=
  join_strings sep (map elem_string l).

(** [ToPrimitive]: only arrays are not primitive already. *)
Definition to_primitive (v : value) : value :=
  match v with
  | VArr _ => VStr (to_string v)
  | _ => v
  end.

(** [ToNumber] *)
Definition to_number (v : value) : num :=
  match v with
  | VUndef => NaN
  | VNum n => n
  | VStr s => string_to_num s
  | VArr _ => string_to_num (to_string v)
  end.

(** The binary [+]: concatenation as soon as one operand is a string. *)
Definition js_add (a b : value) : value :=
  match to_primitive a, to_primitive b with
  | VStr s, pb => VStr (s ++ to_string pb)
  | pa, VStr s => VStr (to_string pa ++ s)
  | pa, pb => VNum (nadd (to_number pa) (to_number pb))
  end.

Definition js_sub (a b : value) : value :=
  VNum (nsub (to_number a) (to_number b)).

Definition js_mul (a b : value) : value :=
  VNum (nmul (to_number a) (to_number b)).

Definition js_div (a b : value) : value :=
  VNum (ndiv (to_number a) (to_number b)).

(** [Math.pow(v, 2)] *)
Definition js_pow2 (v : value) : value :=
  VNum (math_pow (to_number v) (num_of_Z 2)).
End Conversions.

(** ** Exceptions *)

(** [InvalidInput] is [Error("Input arrays must have the same non-zero
    length.")], [InsufficientData] is [Error("Input arrays must have
    more than one value")], and [TypeError] is the runtime's own
    exception for reading a property of [undefined] or calling
    something that is not a function. *)
Inductive error : Type :=
| InvalidInput
| InsufficientData
| TypeError.

Inductive outcome (A : Type) : Type :=
| Ok (a : A)
| Throw (e : error).

Arguments Ok {A} a.
Arguments Throw {A} e.

Definition bind {A B : Type} (m : outcome A) (f : A -> outcome B) : outcome B :=
  match m with
  | Ok a => f a
  | Throw e => Throw e
  end.

Notation "x <- m ;; k" := (bind m (fun x => k))
  (at level 61, m at next level, right associativity).

Fixpoint mapM {A B : Type} (f : A -> outcome B) (l : list A) : outcome (list B) :=
  match l with
  | [] => Ok []
  | x :: l' =>
      y <- f x ;;
      ys <- mapM f l' ;;
      Ok (y :: ys)
  end.

Fixpoint filterM {A : Type} (p : A -> outcome bool) (l : list A) : outcome (list A) :=
  match l with
  | [] => Ok []
  | x :: l' =>
      b <- p x ;;
      xs <- filterM p l' ;;
      Ok (if b then x :: xs else xs)
  end.

(** [l.every(p)], which stops at the first element that fails. *)
Fixpoint every {A : Type} (p : A -> outcome bool) (l : list A) : outcome bool :=
  match l with
  | [] => Ok true
  | x :: l' =>
      b <- p x ;;
      if b then every p l' else Ok false
  end.

Fixpoint foldM {A B : Type} (f : A -> B -> outcome A) (l : list B) (a : A) : outcome A :=
  match l with
  | [] => Ok a
  | x :: l' =>
      a' <- f a x ;;
      foldM f l' a'
  end.

(** ** Property access on values *)

(** [v.length]: [None] stands for [undefined]. *)
Definition js_length (v : value) : outcome (option nat) :=
  match v with
  | VUndef => Throw TypeError
  | VNum _ => Ok None
  | VStr s => Ok (Some (String.length s))
  | VArr l => Ok (Some (List.length l))
  end.

(** [v[i]] for a non-negative integer [i]. *)
Definition js_index (v : value) (i : nat) : outcome value :=
  match v with
  | VUndef => Throw TypeError
  | VNum _ => Ok VUndef
  | VStr s =>
      Ok (match String.get i s with
          | Some c => VStr (String c EmptyString)
          | None => VUndef
          end)
  | VArr l => Ok (nth i l VUndef)
  end.

(** The receiver of an array method ([reduce], [map], [push]). *)
Definition as_array (v : value) : outcome (list value) :=
  match v with
  | VArr l => Ok l
  | _ => Throw TypeError
  end.

(** [len > 1] and [i < len] for a length that may be [undefined]. *)
Definition length_gt (len : option nat) (k : nat) : bool :=
  match len with
  | Some n => (k <? n)%nat
  | None => false
  end.

Definition length_is (len : option nat) (k : nat) : bool :=
  match len with
  | Some n => (n =? k)%nat
  | None => false
  end.

Definition length_eqb (a b : option nat) : bool :=
  match a, b with
  | Some n, Some m => (n =? m)%nat
  | None, None => true
  | _, _ => false
  end.

(** ** Objects *)

Definition includes (l : list string) (k : string) : bool :=
  existsb (String.eqb k) l.

(** Array-index property names: canonical decimal numerals below
    [2^32 - 1]. *)
Definition digit_of (c : ascii) : option N :=
  let n := N_of_ascii c in
  if ((48 <=? n) && (n <=? 57))%N then Some (n - 48)%N else None.

Fixpoint digits_value (s : string) (acc : N) : option N :=
  match s with
  | EmptyString => Some acc
  | String c s' =>
      match digit_of c with
      | Some d => digits_value s' (10 * acc + d)%N
      | None => None
      end
  end.

Definition array_index (s : string) : option N :=
  match s with
  | EmptyString => None
  | String c s' =>
      if (Ascii.eqb c "0"%char) && negb (String.eqb s' EmptyString) then None
      else
        match digits_value s 0%N with
        | Some n => if (n <=? 4294967294)%N then Some n else None
        | None => None
        end
  end.

Section Objects.
Context {V : Type}.

Definition props : Type := list (string * V).

Fixpoint lookup (o : props) (k : string) : option V :=
  match o with
  | [] => None
  | (k', v) :: o' => if String.eqb k' k then Some v else lookup o' k
  end.

(** [o.hasOwnProperty(k)] *)
Definition has_own (o : props) (k : string) : bool :=
  match lookup o k with
  | Some _ => true
  | None => false
  end.

(** [Object.keys(o)] *)
Definition obj_keys (o : props) : list string := map fst o.

Fixpoint obj_replace (k : string) (v : V) (o : props) : props :=
  match o with
  | [] => []
  | (k', v') :: o' =>
      if String.eqb k' k then (k, v) :: o' else (k', v') :: obj_replace k v o'
  end.

(** Position of a new array-index name [i]: before the first name that
    is not an array index or is a larger one. *)
Fixpoint obj_insert_index (i : N) (k : string) (v : V) (o : props) : props :=
  match o with
  | [] => [(k, v)]
  | (k', v') :: o' =>
      match array_index k' with
      | Some j =>
          if (j <? i)%N then (k', v') :: obj_insert_index i k v o'
          else (k, v) :: o
      | None => (k, v) :: o
      end
  end.

(** [o[k] = v].  An object that has no field named [__proto__]
    inherits that name as an accessor, and the assignment runs its
    setter: no field is created.  (When [v] is an array the setter
    makes it the prototype of [o]; the model has no prototype slot,
    see the conventions.) *)
Definition obj_set (k : string) (v : V) (o : props) : props :=
  if has_own o k then obj_replace k v o
  else if String.eqb k "__proto__" then o
  else
    match array_index k with
    | Some i => obj_insert_index i k v o
    | None => o ++ [(k, v)]
    end.

(** [delete o[k]] *)
Definition obj_delete (k : string) (o : props) : props :=
  filter (fun kv => negb (String.eqb (fst kv) k)) o.

(** [result.find(p)], keeping the position of the entry found so that
    an update made through the reference lands in place. *)
Fixpoint find_split {A : Type} (p : A -> bool) (l : list A)
  : option (list A * A * list A) :=
  match l with
  | [] => None
  | x :: l' =>
      if p x then Some ([], x, l')
      else
        match find_split p l' with
        | Some (before, y, after) => Some (x :: before, y, after)
        | None => None
        end
  end.
End Objects.

Definition obj : Type := @props value.

(** [o[k]] *)
Definition obj_get (o : obj) (k : string) : value :=
  match lookup o k with
  | Some v => v
  | None => VUndef
  end.

(** ** The library, [src/index.js] *)

Section Library.
Context {rt : Runtime}.

(** [xValues.reduce((sum, x, i) => sum + f(x, i), 0)] *)
Fixpoint reduce_sum (f : value -> nat -> value) (l : list value)
    (i : nat) (sum : value) : value :=
  match l with
  | [] => sum
  | x :: l' => reduce_sum f l' (S i) (js_add sum (f x i))
  end.

Definition linearRegressionPredictor (xValues yValues : value)
  : outcome (value -> value) :=
  xlen <- js_length xValues ;;
  ylen <- js_length yValues ;;
  if negb (length_eqb xlen ylen) || length_is xlen 0 then Throw InvalidInput
  else if length_is xlen 1 then Throw InsufficientData
  else
    let n := match xlen with Some k => VNum (num_of_nat k) | None => VUndef end in
    xs <- as_array xValues ;;
    let xMean := js_div (reduce_sum (fun x _ => x) xs 0 (VNum (num_of_Z 0))) n in
    ys <- as_array yValues ;;
    let yMean := js_div (reduce_sum (fun y _ => y) ys 0 (VNum (num_of_Z 0))) n in
    let numerator :=
      reduce_sum
        (fun x i => js_mul (js_sub x xMean) (js_sub (nth i ys VUndef) yMean))
        xs 0 (VNum (num_of_Z 0)) in
    let denominator :=
      reduce_sum (fun x _ => js_pow2 (js_sub x xMean)) xs 0 (VNum (num_of_Z 0)) in
    let slope := js_div numerator denominator in
    let intercept := js_sub yMean (js_mul slope xMean) in
    Ok (fun newX => js_add (js_mul slope newX) intercept).

(** [entry.key === key] *)
Definition key_is (key : string) (entry : obj) : bool :=
  match obj_get entry "key" with
  | VStr s => String.eqb s key
  | _ => false
  end.

(** [Object.keys(item).filter(key => !groupingKeys.includes(key))] *)
Definition aggregated (groupingKeys : list string) (item : obj) : list string :=
  filter (fun key => negb (includes groupingKeys key)) (obj_keys item).

(** [existingEntry[property].push(v)] *)
Definition push_prop (entry : obj) (property : string) (v : value) : outcome obj :=
  l <- as_array (obj_get entry property) ;;
  Ok (obj_set property (VArr (l ++ [v])) entry).

(** [item.hasOwnProperty(key)].  The method is looked up on the
    record first: a field named [hasOwnProperty] shadows the built-in
    method, its value is data, and calling it throws. *)
Definition call_hasOwnProperty (item : obj) (key : string) : outcome bool :=
  if has_own item "hasOwnProperty" then Throw TypeError
  else Ok (has_own item key).

(** [item] has every grouping key as a field of its own: the answer
    of [groupingKeys.every(key => item.hasOwnProperty(key))] when the
    calls return. *)
Definition complete (groupingKeys : list string) (item : obj) : bool :=
  forallb (has_own item) groupingKeys.

(** [groupingKeys.map(key => item[key]).join('-')] *)
Definition composite_key (groupingKeys : list string) (item : obj) : string :=
  join "-" (map (obj_get item) groupingKeys).

(** The callback of [array.reduce] in [group]. *)
Definition group_step (groupingKeys : list string) (result : list obj)
    (item : obj) : outcome (list obj) :=
  ok <- every (call_hasOwnProperty item) groupingKeys ;;
  if negb ok then Ok result
  else
    let key := composite_key groupingKeys item in
    let aggregatedProperties := aggregated groupingKeys item in
    match find_split (key_is key) result with
    | Some (before, existingEntry, after) =>
        entry <- foldM (fun e property => push_prop e property (obj_get item property))
                   aggregatedProperties existingEntry ;;
        Ok (before ++ entry :: after)
    | None =>
        let newEntry : obj := [] in
        let newEntry :=
          fold_left (fun e key => obj_set key (obj_get item key) e)
            groupingKeys newEntry in
        let newEntry :=
          fold_left (fun e property => obj_set property (VArr [obj_get item property]) e)
            aggregatedProperties newEntry in
        let newEntry := obj_set "key" (VStr key) newEntry in
        Ok (result ++ [newEntry])
    end.

Definition group (array : list obj) (groupingKeys : list string)
  : outcome (list obj) :=
  result <- foldM (group_step groupingKeys) array [] ;;
  Ok (map (obj_delete "key") result).

Definition removeExtraProperties (data : list obj)
    (allowedProperties : list string) : list obj :=
  map (fun item =>
         fold_left (fun o key => obj_set key (obj_get item key) o)
           (filter (includes allowedProperties) (obj_keys item))
           ([] : obj))
      data.

(** The body of the [for] loop of [ungroup] at index [i]. *)
Definition ungroup_item (groupingKeys aggregatedProperties : list string)
    (item : obj) (i : nat) : outcome obj :=
  let newItem : obj := [] in
  let newItem :=
    fold_left (fun o key => obj_set key (obj_get item key) o)
      groupingKeys newItem in
  foldM (fun o property =>
           v <- js_index (obj_get item property) i ;;
           Ok (obj_set property v o))
        aggregatedProperties newItem.

(** The callback of [array.forEach] in [ungroup].  With no aggregated
    property, [aggregatedProperties[0]] is [undefined] and the loop
    bound reads the property named ["undefined"]. *)
Definition ungroup_entry (groupingKeys : list string) (item : obj)
  : outcome (list obj) :=
  let aggregatedProperties := aggregated groupingKeys item in
  let first :=
    match aggregatedProperties with
    | property :: _ => property
    | [] => "undefined"
    end in
  len <- js_length (obj_get item first) ;;
  match len with
  | Some n => mapM (ungroup_item groupingKeys aggregatedProperties item) (seq 0 n)
  | None => Ok []
  end.

Definition ungroup (array : list obj) (groupingKeys : list string)
  : outcome (list obj) :=
  foldM (fun newArray item =>
           items <- ungroup_entry groupingKeys item ;;
           Ok (newArray ++ items))
        array [].

(** [item => item[xKey].length > 1] *)
Definition enough_points (xKey : string) (item : obj) : outcome bool :=
  len <- js_length (obj_get item xKey) ;;
  Ok (length_gt len 1).

(** The callback of [groupedData.map] in [batchPredict]. *)
Definition predict_entry (xKey yKey : string) (newXs : list value) (item : obj)
  : outcome obj :=
  predictor <- linearRegressionPredictor (obj_get item xKey) (obj_get item yKey) ;;
  let item := obj_set xKey (VArr newXs) item in
  let item := obj_set yKey (VArr (map predictor newXs)) item in
  Ok item.

Definition batchPredict (data : list obj) (groupingKeys : list string)
    (xKey yKey : string) (newXs : list value) : outcome (list obj) :=
  let allowedKeys := groupingKeys ++ [xKey; yKey] in
  let data := removeExtraProperties data allowedKeys in
  grouped <- group data groupingKeys ;;
  groupedData <- filterM (enough_points xKey) grouped ;;
  predicted <- mapM (predict_entry xKey yKey newXs) groupedData ;;
  ungroup predicted groupingKeys.
End Library.

(** ** The variant of [batchPredict] in [src/unnamed/part_000] *)

Section Delegating.
Context {rt : Runtime}.

(** The composition [linearRegressionLine(linearRegression(zipped))] of
    the statistics package the variant imports.  The package is not
    part of the repository, so the fit is left abstract. *)
Variable regressionLine : list value -> value -> value.

(** [item[xKey].map((x, i) => [x, item[yKey][i]])] *)
Fixpoint zip_with_index (ys : value) (xs : list value) (i : nat)
  : outcome (list value) :=
  match xs with
  | [] => Ok []
  | x :: xs' =>
      y <- js_index ys i ;;
      rest <- zip_with_index ys xs' (S i) ;;
      Ok (VArr [x; y] :: rest)
  end.

Definition predict_entry_delegating (xKey yKey : string) (newXs : list value)
    (item : obj) : outcome obj :=
  xs <- as_array (obj_get item xKey) ;;
  zipped <- zip_with_index (obj_get item yKey) xs 0 ;;
  let predictor := regressionLine zipped in
  let item := obj_set yKey (VArr (map predictor newXs)) item in
  Ok item.

Definition batchPredict_delegating (data : list obj) (groupingKeys : list string)
    (xKey yKey : string) (newXs : list value) : outcome (list obj) :=
  let allowedKeys := groupingKeys ++ [xKey; yKey] in
  let data := removeExtraProperties data allowedKeys in
  grouped <- group data groupingKeys ;;
  groupedData <- filterM (enough_points xKey) grouped ;;
  predicted <- mapM (predict_entry_delegating xKey yKey newXs) groupedData ;;
  ungroup predicted groupingKeys.
End Delegating.

(** ** The ordinary-least-squares formula, as the specification words it

    The formula is read in the arithmetic of the language: every
    operation is a binary64 operation, a sum Σ is accumulated from zero
    in the order of the sequence, and the square is the runtime's
    [Math.pow] at exponent 2. *)

(** Σ over a sequence *)
Definition sum_of (l : list num) : num := fold_left nadd l (num_of_Z 0).

(** Arithmetic mean *)
Definition mean (l : list num) : num :=
  ndiv (sum_of l) (num_of_nat (List.length l)).

Section Formula.
Context {rt : Runtime}.

(** slope = Σ(xᵢ−x̄)(yᵢ−ȳ) / Σ(xᵢ−x̄)² *)
Definition ols_slope (xs ys : list num) : num :=
  let xbar := mean xs in
  let ybar := mean ys in
  ndiv
    (sum_of (map (fun xy => nmul (nsub (fst xy) xbar) (nsub (snd xy) ybar))
               (combine xs ys)))
    (sum_of (map (fun x => math_pow (nsub x xbar) (num_of_Z 2)) xs)).

(** intercept = ȳ − slope·x̄ *)
Definition ols_intercept (xs ys : list num) : num :=
  nsub (mean ys) (nmul (ols_slope xs ys) (mean xs)).
End Formula.

(** ** Relations used to state the properties *)

Section Buckets.
Context {rt : Runtime}.

(** The partition [group] computes, as lists of member records: one
    bucket per composite key in order of first occurrence, members in
    encounter order. *)
Definition add_to_bucket (key : string) (r : obj)
    (bs : list (string * list obj)) : list (string * list obj) :=
  match find_split (fun b => String.eqb (fst b) key) bs with
  | Some (before, (c, members), after) => before ++ (c, members ++ [r]) :: after
  | None => bs ++ [(key, [r])]
  end.

Definition bucket_step (K : list string) (bs : list (string * list obj))
    (r : obj) : list (string * list obj) :=
  if negb (complete K r) then bs
  else add_to_bucket (composite_key K r) r bs.

Definition buckets (K : list string) (R : list obj) : list (string * list obj) :=
  fold_left (bucket_step K) R [].

(** What the entry built by the reducer of [group] holds for a bucket:
    the routing key, the key fields of the first member, and one
    sequence for each other field of the first member. *)
Definition represents (K : list string) (entry : obj)
    (b : string * list obj) : Prop :=
  match snd b with
  | [] => False
  | first :: _ =>
      lookup entry "key" = Some (VStr (fst b)) /\
      forall p, p <> "key" ->
        lookup entry p =
        if includes K p then lookup first p
        else if has_own first p
             then Some (VArr (map (fun m => obj_get m p) (snd b)))
             else None
  end.

(** A bucket of the records [P] seen so far. *)
Definition bucket_ok (K : list string) (P : list obj)
    (b : string * list obj) : Prop :=
  snd b <> [] /\
  forall m, In m (snd b) ->
    In m P /\ complete K m = true /\ composite_key K m = fst b.

(** Records that [group] processes without surprise: no field name
    twice among the aggregated ones, none of them named ["key"], and
    no field named ["__proto__"]. *)
Definition plain (K : list string) (r : obj) : Prop :=
  NoDup (aggregated K r) /\ ~ In "key" (aggregated K r) /\
  lookup r "__proto__" = None.

(** Two records with all grouping keys either have different
    composite keys or the same aggregated field names. *)
Definition alike (K : list string) (r r' : obj) : Prop :=
  complete K r = true -> complete K r' = true ->
  composite_key K r = composite_key K r' ->
  forall p, includes K p = false -> has_own r p = has_own r' p.

(** An entry made from a single record when one of the two fields
    [xKey], [yKey] is named ["key"]: the routing key sits under that
    name and the other field holds one value. *)
Definition single_entry (xKey yKey : string) (e : obj) : Prop :=
  (exists c, lookup e "key" = Some (VStr c)) /\
  forall p, p <> "key" -> p = xKey \/ p = yKey ->
    exists v, lookup e p = Some (VArr [v]).
End Buckets.

(** Two records with the same fields and field values, in any order. *)
Definition same_fields (r1 r2 : obj) : Prop :=
  forall k, lookup r1 k = lookup r2 k.

(** Equal multisets of records, up to the order of fields. *)
Definition same_records (l1 l2 : list obj) : Prop :=
  exists l, Forall2 same_fields l1 l /\ Permutation l l2.

(** A record as an object can be: no field name occurs twice. *)
Definition well_formed (r : obj) : Prop := NoDup (obj_keys r).

(** ** A reference runtime for the concrete examples

    The conversions are exact on integers of magnitude below [10^21]
    and on the non-finite numbers, which is all the examples convert;
    elsewhere they only approximate the JavaScript conversions.
    [Math.pow] is the correctly rounded square at exponent 2, the only
    exponent the library uses. *)

Definition decimal_of_N (n : N) : string :=
  DecimalString.NilZero.string_of_uint (N.to_uint n).

Fixpoint fraction_digits (fuel : nat) (r d : N) : string :=
  match fuel with
  | O => EmptyString
  | S fuel' =>
      if (r =? 0)%N then EmptyString
      else String (ascii_of_N (48 + (10 * r) / d))
             (fraction_digits fuel' ((10 * r) mod d)%N d)
  end.

Definition reference_num_to_string (a : num) : string :=
  match Prim2SF a with
  | S754_nan => "NaN"
  | S754_infinity false => "Infinity"
  | S754_infinity true => "-Infinity"
  | S754_zero _ => "0"
  | S754_finite negative m e =>
      let n := match e with
               | Zpos p => (Npos m * 2 ^ Npos p)%N
               | _ => Npos m
               end in
      let d := match e with
               | Zneg p => (2 ^ Npos p)%N
               | _ => 1%N
               end in
      let sign := if negative then "-" else EmptyString in
      let fraction := fraction_digits 16 (n mod d)%N d in
      sign ++ decimal_of_N (n / d)%N
           ++ (if String.eqb fraction EmptyString then EmptyString else "." ++ fraction)
  end.

Definition reference_string_to_num (s : string) : num :=
  match s with
  | EmptyString => num_of_Z 0
  | String "-"%char s' =>
      match s' with
      | EmptyString => NaN
      | _ => match digits_value s' 0%N with
             | Some n => PrimFloat.opp (num_of_Z (Z.of_N n))
             | None => NaN
             end
      end
  | _ => match digits_value s 0%N with
         | Some n => num_of_Z (Z.of_N n)
         | None => NaN
         end
  end.

Definition reference_math_pow (x y : num) : num :=
  if PrimFloat.eqb y (num_of_Z 2) then nmul x x else NaN.

Definition reference_runtime : Runtime :=
  {| num_to_string := reference_num_to_string;
     string_to_num := reference_string_to_num;
     math_pow := reference_math_pow |}.

(** ** Concrete inputs *)

Definition int (z : Z) : value := VNum (num_of_Z z).

Definition sale (branch : string) (period sales : Z) : obj :=
  [("branch", VStr branch); ("period", int period); ("sales", int sales)].

(** The two-branch dataset of the README. *)
Definition readme_data : list obj :=
  [ sale "A" 1 2; sale "A" 2 4; sale "A" 3 6;
    sale "A" 4 8; sale "A" 5 10; sale "A" 6 12;
    sale "B" 2 3; sale "B" 4 5; sale "B" 6 7;
    sale "B" 8 12; sale "B" 9 14; sale "B" 10 16 ].

Definition prediction (branch : string) (period : Z) (sales : num) : obj :=
  [("branch", VStr branch); ("period", int period); ("sales", VNum sales)].


(** Two records whose grouping values differ and whose composite keys
    coincide. *)
Definition colliding_records : list obj :=
  [ [("a", VStr "x-y"); ("b", VStr "z"); ("v", int 1)];
    [("a", VStr "x"); ("b", VStr "y-z"); ("v", int 2)] ].

(** A group whose second record lacks the dependent field. *)
Definition ragged_records : list obj :=
  [ [("b", VStr "A"); ("x", int 1); ("y", int 2)];
    [("b", VStr "A"); ("x", int 2)] ].

(** A record carrying a field named ["key"] of its own. *)
Definition keyed_records : list obj :=
  [ [("city", VStr "Oslo"); ("key", int 7); ("name", VStr "Ada")] ].

(** Three sales of two branches, and one record without a branch. *)
Definition small_data : list obj :=
  [ sale "A" 1 2; sale "A" 2 4; sale "B" 2 3 ].

Definition stray_record : obj := [("period", int 3); ("sales", int 9)].

(** The periods of the README dataset, in input order. *)
Definition readme_periods : list value :=
  map int [1; 2; 3; 4; 5; 6; 2; 4; 6; 8; 9; 10]%Z.

(** ** The groups of an input, spelled out *)

(** The distinct elements of a list, in order of first occurrence. *)
Definition distinct_keys (l : list string) : list string :=
  fold_left (fun seen c => if includes seen c then seen else seen ++ [c]) l [].

(** ** Names with a meaning of their own

    Three names are not like the others: ["key"], under which [group]
    keeps its routing key while it runs; ["__proto__"], under which an
    assignment replaces a prototype instead of creating a field; and
    ["hasOwnProperty"], the method [group] calls on every record. *)

Definition ordinary (k : string) : Prop :=
  k <> "key" /\ k <> "__proto__" /\ k <> "hasOwnProperty".

(** ** The order of property names

    [Object.keys] lists the array indices in ascending order, then the
    other names: [may_follow k k'] tells whether [k'] may come after
    [k]. *)

Definition may_follow (k k' : string) : bool :=
  match array_index k, array_index k' with
  | Some i, Some j => (i <? j)%N
  | Some _, None => true
  | None, Some _ => false
  | None, None => true
  end.

Fixpoint keys_in_order (ks : list string) : bool :=
  match ks with
  | [] => true
  | k :: ks' => forallb (may_follow k) ks' && keys_in_order ks'
  end.

Section Groups.
Context {rt : Runtime}.

(** The composite keys [group] meets, in order of first occurrence. *)
Definition group_keys (K : list string) (R : list obj) : list string :=
  distinct_keys (map (composite_key K) (filter (complete K) R)).

(** The records routed to the composite key [c], in input order. *)
Definition members (K : list string) (R : list obj) (c : string) : list obj :=
  filter (fun r => String.eqb (composite_key K r) c) (filter (complete K) R).

(** What every entry in the accumulator of [group] keeps of its
    bucket, whatever the records: the routing key, the key fields of
    the first member and the names of its other fields. *)
Definition outlines (K : list string) (entry : obj)
    (b : string * list obj) : Prop :=
  match snd b with
  | [] => False
  | first :: _ =>
      lookup entry "key" = Some (VStr (fst b)) /\
      forall p, p <> "key" ->
        if includes K p then lookup entry p = lookup first p
        else (lookup entry p = None <-> lookup first p = None)
  end.

(** An entry returned by [group] for the member records [ms]: the key
    fields of the first member, one sequence per other field of the
    first member with the values of all members in order, and nothing
    under the name ["key"]. *)
Definition columnar (K : list string) (entry : obj) (ms : list obj) : Prop :=
  match ms with
  | [] => False
  | first :: _ =>
      forall p,
        lookup entry p =
        if String.eqb p "key" then None
        else if includes K p then lookup first p
        else if has_own first p
             then Some (VArr (map (fun m => obj_get m p) ms))
             else None
  end.
End Groups.

(** ** The rows [ungroup] makes of an entry *)

(** The sequence an entry holds under [p]. *)
Definition sequence_of (e : obj) (p : string) : list value :=
  match obj_get e p with
  | VArr l => l
  | _ => []
  end.

Section Rows.
Context {rt : Runtime}.

(** The loop bound for an entry: the length of its first aggregated
    sequence. *)
Definition entry_bound (K : list string) (e : obj) : nat :=
  match aggregated K e with
  | p :: _ => List.length (sequence_of e p)
  | [] => 0
  end.

(** Row [i] of entry [e]: the grouping keys as the entry has them,
    and position [i] of every aggregated sequence, [undefined] beyond
    its end. *)
Definition row_of (K : list string) (e : obj) (i : nat) (row : obj) : Prop :=
  forall p,
    lookup row p =
    if includes (aggregated K e) p then Some (nth i (sequence_of e p) VUndef)
    else if includes K p then Some (obj_get e p)
    else None.
End Rows.

(** ** The predictions [batchPredict] returns *)

Section Predictions.
Context {rt : Runtime}.

(** The composite keys whose groups are fitted: those of at least two
    records. *)
Definition fitted_keys (K : list string) (data : list obj) : list string :=
  filter (fun c => 1 <? List.length (members K data c))%nat (group_keys K data).

(** The predictor fitted to the group of the composite key [c]. *)
Definition fitted (K : list string) (xKey yKey : string) (data : list obj)
    (c : string) : value -> value :=
  let ms := members K data c in
  match linearRegressionPredictor
          (VArr (map (fun m => obj_get m xKey) ms))
          (VArr (map (fun m => obj_get m yKey) ms)) with
  | Ok predictor => predictor
  | Throw _ => fun _ => VUndef
  end.

(** The record predicted for the group of [c] at [newX]: the grouping
    keys of the group's first record, [newX] under [xKey] and the
    fitted value under [yKey]. *)
Definition prediction_row (K : list string) (xKey yKey : string)
    (data : list obj) (c : string) (newX : value) (row : obj) : Prop :=
  forall p,
    lookup row p =
    if String.eqb p yKey then Some (fitted K xKey yKey data c newX)
    else if String.eqb p xKey then Some newX
    else if includes K p then lookup (hd [] (members K data c)) p
    else None.

(** The entry [group] makes, inside [batchPredict], of the group of
    [c]: the grouping keys of its first record and the [xKey] and
    [yKey] columns. *)
Definition projected_entry (K : list string) (xKey yKey : string)
    (data : list obj) (e : obj) (c : string) : Prop :=
  members K data c <> [] /\
  forall p,
    lookup e p =
    if includes K p then lookup (hd [] (members K data c)) p
    else if String.eqb p xKey || String.eqb p yKey
         then Some (VArr (map (fun m => obj_get m p) (members K data c)))
         else None.

(** The same entry after the [map] callback of [batchPredict]. *)
Definition predicted_entry (K : list string) (xKey yKey : string)
    (data : list obj) (newXs : list value) (e : obj) (c : string) : Prop :=
  members K data c <> [] /\
  forall p,
    lookup e p =
    if String.eqb p yKey
    then Some (VArr (map (fitted K xKey yKey data c) newXs))
    else if String.eqb p xKey then Some (VArr newXs)
    else if includes K p then lookup (hd [] (members K data c)) p
    else None.

(** The entry of [c] after the [map] callback of the variant in
    [src/unnamed/part_000], where [fit] stands for the delegated fit:
    the dependent sequence holds the predictions, the independent
    sequence is the one [group] made. *)
Definition delegated_entry (fit : list value -> value -> value)
    (K : list string) (xKey yKey : string) (data : list obj)
    (newXs : list value) (e : obj) (c : string) : Prop :=
  members K data c <> [] /\
  forall p,
    lookup e p =
    if String.eqb p yKey
    then Some (VArr (map (fit (map (fun m => VArr [obj_get m xKey; obj_get m yKey])
                                (members K data c)))
                      newXs))
    else if includes K p then lookup (hd [] (members K data c)) p
    else if String.eqb p xKey
         then Some (VArr (map (fun m => obj_get m xKey) (members K data c)))
         else None.
End Predictions.

(** ** The library over an explicit store

    The same functions once more, with allocation and aliasing made
    explicit: objects and arrays live in a store and are handled by
    address, so that an assignment through one reference is seen
    through every other.  The spines of the arrays of objects ([data],
    [result], [newArray] and the results of [map] and [filter]) are
    created and consumed by the library without being shared, and are
    kept as lists of addresses. *)

Module Store.

Inductive hval : Type :=
| HUndef
| HNum (n : num)
| HStr (s : string)
| HRef (a : nat).

Record store : Type := mkStore {
  objs : list (@props hval);
  arrs : list (list hval)
}.

(** Computations: a store transformer that returns or throws. *)
Definition M (A : Type) : Type := store -> store * outcome A.

Definition ret {A : Type} (a : A) : M A := fun s => (s, Ok a).

Definition throw {A : Type} (e : error) : M A := fun s => (s, Throw e).

Definition bind {A B : Type} (m : M A) (f : A -> M B) : M B :=
  fun s =>
    match m s with
    | (s', Ok a) => f a s'
    | (s', Throw e) => (s', Throw e)
    end.

Notation "x <~ m ;; k" := (bind m (fun x => k))
  (at level 61, m at next level, right associativity).

Fixpoint set_nth {A : Type} (i : nat) (x : A) (l : list A) {struct l} : list A :=
  match l, i with
  | [], _ => []
  | _ :: l', O => x :: l'
  | y :: l', S j => y :: set_nth j x l'
  end.

Definition obj_at (s : store) (a : nat) : @props hval := nth a (objs s) [].
Definition arr_at (s : store) (b : nat) : list hval := nth b (arrs s) [].

(** [{}] *)
Definition new_obj : M nat :=
  fun s => (mkStore (objs s ++ [[]]) (arrs s), Ok (List.length (objs s))).

(** [[v1, ..., vn]] *)
Definition new_arr (l : list hval) : M hval :=
  fun s => (mkStore (objs s) (arrs s ++ [l]), Ok (HRef (List.length (arrs s)))).

Definition read_obj (a : nat) : M (@props hval) :=
  fun s => (s, Ok (obj_at s a)).

Definition write_obj (a : nat) (o : @props hval) : M unit :=
  fun s => (mkStore (set_nth a o (objs s)) (arrs s), Ok tt).

Definition read_arr (b : nat) : M (list hval) :=
  fun s => (s, Ok (arr_at s b)).

Definition write_arr (b : nat) (l : list hval) : M unit :=
  fun s => (mkStore (objs s) (set_nth b l (arrs s)), Ok tt).

Fixpoint mapM {A B : Type} (f : A -> M B) (l : list A) : M (list B) :=
  match l with
  | [] => ret []
  | x :: l' =>
      y <~ f x ;;
      ys <~ mapM f l' ;;
      ret (y :: ys)
  end.

(** [l.forEach(f)] *)
Fixpoint forM {A : Type} (f : A -> M unit) (l : list A) : M unit :=
  match l with
  | [] => ret tt
  | x :: l' =>
      _ <~ f x ;;
      forM f l'
  end.

Fixpoint foldM {A B : Type} (f : A -> B -> M A) (l : list B) (a : A) : M A :=
  match l with
  | [] => ret a
  | x :: l' =>
      a' <~ f a x ;;
      foldM f l' a'
  end.

Fixpoint filterM {A : Type} (p : A -> M bool) (l : list A) : M (list A) :=
  match l with
  | [] => ret []
  | x :: l' =>
      b <~ p x ;;
      xs <~ filterM p l' ;;
      ret (if b then x :: xs else xs)
  end.

(** [l.every(p)] *)
Fixpoint every {A : Type} (p : A -> M bool) (l : list A) : M bool :=
  match l with
  | [] => ret true
  | x :: l' =>
      b <~ p x ;;
      if b then every p l' else ret false
  end.

(** [l.find(p)] *)
Fixpoint find {A : Type} (p : A -> M bool) (l : list A) : M (option A) :=
  match l with
  | [] => ret None
  | x :: l' =>
      b <~ p x ;;
      if b then ret (Some x) else find p l'
  end.

(** [o[key]] *)
Definition get_prop (a : nat) (key : string) : M hval :=
  o <~ read_obj a ;;
  ret (match lookup o key with Some v => v | None => HUndef end).

(** [o.hasOwnProperty(key)]: a field named [hasOwnProperty] shadows
    the built-in method and cannot be called. *)
Definition call_hasOwnProperty (a : nat) (key : string) : M bool :=
  o <~ read_obj a ;;
  if has_own o "hasOwnProperty" then throw TypeError
  else ret (has_own o key).

(** [o[key] = v] *)
Definition set_prop (a : nat) (key : string) (v : hval) : M unit :=
  o <~ read_obj a ;;
  write_obj a (obj_set key v o).

(** [delete o[key]] *)
Definition delete_prop (a : nat) (key : string) : M unit :=
  o <~ read_obj a ;;
  write_obj a (obj_delete key o).

(** [Object.keys(o)] *)
Definition keys (a : nat) : M (list string) :=
  o <~ read_obj a ;;
  ret (obj_keys o).

(** [v.length] *)
Definition length_of (v : hval) : M (option nat) :=
  match v with
  | HUndef => throw TypeError
  | HNum _ => ret None
  | HStr s => ret (Some (String.length s))
  | HRef b => l <~ read_arr b ;; ret (Some (List.length l))
  end.

(** [v[i]] *)
Definition index_of (v : hval) (i : nat) : M hval :=
  match v with
  | HUndef => throw TypeError
  | HNum _ => ret HUndef
  | HStr s =>
      ret (match String.get i s with
           | Some c => HStr (String c EmptyString)
           | None => HUndef
           end)
  | HRef b => l <~ read_arr b ;; ret (nth i l HUndef)
  end.

(** [target.push(v)] *)
Definition push (target v : hval) : M unit :=
  match target with
  | HRef b => l <~ read_arr b ;; write_arr b (l ++ [v])
  | _ => throw TypeError
  end.

(** The elements of the receiver of [map]. *)
Definition elements (v : hval) : M (list hval) :=
  match v with
  | HRef b => read_arr b
  | _ => throw TypeError
  end.

(** The value a reference stands for, read through the store.  The
    fuel bounds the nesting depth of arrays. *)
Fixpoint view (fuel : nat) (arrays : list (list hval)) (v : hval) : value :=
  match v with
  | HUndef => VUndef
  | HNum n => VNum n
  | HStr x => VStr x
  | HRef b =>
      match fuel with
      | O => VUndef
      | S fuel' => VArr (map (view fuel' arrays) (nth b arrays []))
      end
  end.

Definition read_value (v : hval) : M value :=
  fun s => (s, Ok (view (S (List.length (arrs s))) (arrs s) v)).

Section Library.
Context {rt : Runtime}.

Definition removeExtraProperties (data : list nat)
    (allowedProperties : list string) : M (list nat) :=
  mapM (fun item =>
          ks <~ keys item ;;
          filteredObject <~ new_obj ;;
          _ <~ forM (fun key =>
                       v <~ get_prop item key ;;
                       set_prop filteredObject key v)
                 (filter (includes allowedProperties) ks) ;;
          ret filteredObject)
       data.

Definition key_is (key : string) (entry : nat) : M bool :=
  v <~ get_prop entry "key" ;;
  ret (match v with HStr s => String.eqb s key | _ => false end).

Definition composite_key (groupingKeys : list string) (item : nat) : M string :=
  vs <~ mapM (get_prop item) groupingKeys ;;
  values <~ mapM read_value vs ;;
  ret (join "-" values).

Definition aggregated (groupingKeys : list string) (item : nat)
  : M (list string) :=
  ks <~ keys item ;;
  ret (filter (fun key => negb (includes groupingKeys key)) ks).

Definition group_step (groupingKeys : list string) (result : list nat)
    (item : nat) : M (list nat) :=
  ok <~ every (call_hasOwnProperty item) groupingKeys ;;
  if negb ok then ret result
  else
    key <~ composite_key groupingKeys item ;;
    aggregatedProperties <~ aggregated groupingKeys item ;;
    existingEntry <~ find (key_is key) result ;;
    match existingEntry with
    | Some existingEntry =>
        _ <~ forM (fun property =>
                     target <~ get_prop existingEntry property ;;
                     v <~ get_prop item property ;;
                     push target v)
               aggregatedProperties ;;
        ret result
    | None =>
        newEntry <~ new_obj ;;
        _ <~ forM (fun key =>
                     v <~ get_prop item key ;;
                     set_prop newEntry key v)
               groupingKeys ;;
        _ <~ forM (fun property =>
                     v <~ get_prop item property ;;
                     sequence <~ new_arr [v] ;;
                     set_prop newEntry property sequence)
               aggregatedProperties ;;
        _ <~ set_prop newEntry "key" (HStr key) ;;
        ret (result ++ [newEntry])
    end.

Definition group (array : list nat) (groupingKeys : list string)
  : M (list nat) :=
  result <~ foldM (group_step groupingKeys) array [] ;;
  mapM (fun item => _ <~ delete_prop item "key" ;; ret item) result.

Definition ungroup_item (groupingKeys aggregatedProperties : list string)
    (item : nat) (i : nat) : M nat :=
  newItem <~ new_obj ;;
  _ <~ forM (fun key =>
               v <~ get_prop item key ;;
               set_prop newItem key v)
         groupingKeys ;;
  _ <~ forM (fun property =>
               sequence <~ get_prop item property ;;
               v <~ index_of sequence i ;;
               set_prop newItem property v)
         aggregatedProperties ;;
  ret newItem.

Definition ungroup_entry (groupingKeys : list string) (item : nat)
  : M (list nat) :=
  aggregatedProperties <~ aggregated groupingKeys item ;;
  let first :=
    match aggregatedProperties with
    | property :: _ => property
    | [] => "undefined"
    end in
  bound <~ get_prop item first ;;
  len <~ length_of bound ;;
  match len with
  | Some n =>
      mapM (ungroup_item groupingKeys aggregatedProperties item) (seq 0 n)
  | None => ret []
  end.

Definition ungroup (array : list nat) (groupingKeys : list string)
  : M (list nat) :=
  foldM (fun newArray item =>
           items <~ ungroup_entry groupingKeys item ;;
           ret (newArray ++ items))
        array [].

Definition enough_points (xKey : string) (item : nat) : M bool :=
  v <~ get_prop item xKey ;;
  len <~ length_of v ;;
  ret (length_gt len 1).

(** The callback of [groupedData.map] in [batchPredict].  The
    Regressor only reads its arguments; what the predictor returns
    is a number. *)
Definition predict_entry (xKey yKey : string) (newXs : hval) (item : nat)
  : M nat :=
  x <~ get_prop item xKey ;;
  y <~ get_prop item yKey ;;
  xValues <~ read_value x ;;
  yValues <~ read_value y ;;
  match linearRegressionPredictor xValues yValues with
  | Throw e => throw e
  | Ok predictor =>
      _ <~ set_prop item xKey newXs ;;
      elems <~ elements newXs ;;
      values <~ mapM read_value elems ;;
      predictions <~
        new_arr (map (fun v => HNum (to_number (predictor v))) values) ;;
      _ <~ set_prop item yKey predictions ;;
      ret item
  end.

Definition batchPredict (data : list nat) (groupingKeys : list string)
    (xKey yKey : string) (newXs : hval) : M (list nat) :=
  let allowedKeys := groupingKeys ++ [xKey; yKey] in
  data <~ removeExtraProperties data allowedKeys ;;
  grouped <~ group data groupingKeys ;;
  groupedData <~ filterM (enough_points xKey) grouped ;;
  predicted <~ mapM (predict_entry xKey yKey newXs) groupedData ;;
  ungroup predicted groupingKeys.
End Library.

(** Moving between the two presentations, for records of scalars. *)
Definition scalar (v : value) : hval :=
  match v with
  | VNum n => HNum n
  | VStr s => HStr s
  | _ => HUndef
  end.

(** A store holding the given records, at addresses [0], [1], ..., and
    one array, at address [0]. *)
Definition load (records : list obj) (numbers : list value) : store :=
  {| objs := map (map (fun kv => (fst kv, scalar (snd kv)))) records;
     arrs := [map scalar numbers] |}.

(** The records at the given addresses, read back. *)
Definition read_records (s : store) (addresses : list nat) : list obj :=
  map (fun a =>
         map (fun kv => (fst kv, view (S (List.length (arrs s))) (arrs s) (snd kv)))
             (obj_at s a))
      addresses.

Definition run {A : Type} (m : M A) (s : store) : outcome A := snd (m s).

Definition final {A : Type} (m : M A) (s : store) : store := fst (m s).

(** The change the library makes to a store it was handed: nothing
    that was there is touched. *)
Definition extends (s0 s : store) : Prop :=
  firstn (List.length (objs s0)) (objs s) = objs s0 /\
  firstn (List.length (arrs s0)) (arrs s) = arrs s0.

(** *** Notions for the frame property

    They are relative to the store [s0] the library was handed. *)
Section Frame.
Variable s0 : store.

Definition fresh_obj (a : nat) : Prop := List.length (objs s0) <= a.

Definition fresh_val (v : hval) : Prop :=
  match v with
  | HRef b => List.length (arrs s0) <= b
  | _ => True
  end.

(** [m], started in [s] extending [s0], ends in a store that still
    extends [s0], and establishes [Q] when it returns. *)
Definition safe {A : Type} (m : M A) (Q : A -> store -> Prop) (s : store)
  : Prop :=
  extends s0 s ->
  extends s0 (final m s) /\
  forall a, run m s = Ok a -> Q a (final m s).

(** An entry under construction by [group]: outside the grouping
    keys, the only arrays it refers to were created by the call. *)
Definition good_obj (K : list string) (o : @props hval) : Prop :=
  forall p v, includes K p = false -> lookup o p = Some v -> fresh_val v.

Definition entries_ok (K : list string) (s : store) (entries : list nat)
  : Prop :=
  Forall (fun e => fresh_obj e /\ good_obj K (obj_at s e)) entries.
End Frame.

(** A computation that leaves the store as it is. *)
Definition reads {A : Type} (m : M A) : Prop := forall s, final m s = s.
End Store.
(* ================================================================== *)
(** * Part II: properties *)
(* ================================================================== *)

(** ** Objects as finite maps *)

Section ObjectFacts.
Context {V : Type}.
Implicit Types (o : @props V) (k : string) (v : V).

Lemma has_own_lookup o k : has_own o k = true <-> lookup o k <> None.
Proof.
  unfold has_own. destruct (lookup o k); split; congruence.
Qed.

Lemma has_own_false o k : has_own o k = false <-> lookup o k = None.
Proof.
  unfold has_own. destruct (lookup o k); split; congruence.
Qed.

Lemma lookup_in_keys o k : lookup o k <> None <-> In k (obj_keys o).
Proof.
  induction o as [|[k' v'] o IH]; simpl.
  - split; [congruence | tauto].
  - destruct (String.eqb_spec k' k) as [->|Hne].
    + split; [auto | congruence].
    + rewrite IH. split; [auto | intros [H|H]; [congruence | exact H]].
Qed.

Lemma same_keys_same_names o1 o2 :
  obj_keys o1 = obj_keys o2 ->
  forall k, lookup o1 k = None <-> lookup o2 k = None.
Proof.
  intros Hkeys k.
  pose proof (lookup_in_keys o1 k) as H1.
  pose proof (lookup_in_keys o2 k) as H2.
  rewrite Hkeys in H1.
  destruct (lookup o1 k), (lookup o2 k); split; intros H;
    try reflexivity; try discriminate H; exfalso.
  - apply H2; [|reflexivity]. apply H1. discriminate.
  - apply H1; [|reflexivity]. apply H2. discriminate.
Qed.

Lemma lookup_app o1 o2 k :
  lookup (o1 ++ o2) k =
  match lookup o1 k with Some v => Some v | None => lookup o2 k end.
Proof.
  induction o1 as [|[k' v'] o1 IH]; simpl; [reflexivity|].
  destruct (String.eqb k' k); [reflexivity | exact IH].
Qed.

Lemma lookup_obj_replace o k v k' :
  lookup o k <> None ->
  lookup (obj_replace k v o) k' = if String.eqb k k' then Some v else lookup o k'.
Proof.
  induction o as [|[k0 v0] o IH]; simpl; [congruence|].
  destruct (String.eqb_spec k0 k) as [->|Hne]; intros Hk; simpl.
  - destruct (String.eqb k k'); reflexivity.
  - destruct (String.eqb_spec k0 k') as [->|Hne'].
    + destruct (String.eqb_spec k k'); [congruence | reflexivity].
    + apply IH, Hk.
Qed.

Lemma lookup_obj_insert_index o i k v k' :
  lookup o k = None ->
  lookup (obj_insert_index i k v o) k' =
  if String.eqb k k' then Some v else lookup o k'.
Proof.
  induction o as [|[k0 v0] o IH]; simpl; intros Hk.
  - reflexivity.
  - destruct (String.eqb_spec k0 k) as [->|Hne]; [discriminate|].
    destruct (array_index k0) as [j|]; [destruct (j <? i)%N|]; simpl;
      try reflexivity.
    destruct (String.eqb_spec k0 k') as [->|Hne'].
    + destruct (String.eqb_spec k k'); [congruence | reflexivity].
    + apply IH, Hk.
Qed.

(** Reading after [o[k] = v]. *)
Lemma lookup_obj_set_gen o k v k' :
  lookup (obj_set k v o) k' =
  if String.eqb k k' && (has_own o k || negb (String.eqb k "__proto__"))
  then Some v else lookup o k'.
Proof.
  unfold obj_set, has_own.
  destruct (lookup o k) eqn:Hk; simpl.
  - rewrite Bool.andb_true_r. apply lookup_obj_replace. congruence.
  - destruct (String.eqb_spec k "__proto__") as [->|Hp]; simpl.
    + rewrite Bool.andb_false_r. reflexivity.
    + rewrite Bool.andb_true_r. destruct (array_index k).
      * apply lookup_obj_insert_index, Hk.
      * rewrite lookup_app. simpl.
        destruct (String.eqb_spec k k') as [<-|Hne].
        -- rewrite Hk. reflexivity.
        -- destruct (lookup o k'); reflexivity.
Qed.

Lemma lookup_obj_set o k v k' :
  k <> "__proto__" ->
  lookup (obj_set k v o) k' = if String.eqb k k' then Some v else lookup o k'.
Proof.
  intros Hk. rewrite lookup_obj_set_gen.
  apply String.eqb_neq in Hk. rewrite Hk, Bool.orb_true_r, Bool.andb_true_r.
  reflexivity.
Qed.

Lemma lookup_obj_set_at o k v k' :
  k' <> "__proto__" ->
  lookup (obj_set k v o) k' = if String.eqb k k' then Some v else lookup o k'.
Proof.
  intros Hk'. destruct (String.eqb_spec k k') as [->|Hne].
  - rewrite lookup_obj_set by exact Hk'. rewrite String.eqb_refl. reflexivity.
  - rewrite lookup_obj_set_gen. apply String.eqb_neq in Hne. rewrite Hne.
    reflexivity.
Qed.

Lemma lookup_obj_set_own o k v k' :
  lookup o k <> None ->
  lookup (obj_set k v o) k' = if String.eqb k k' then Some v else lookup o k'.
Proof.
  intros Hk. rewrite lookup_obj_set_gen.
  apply has_own_lookup in Hk. rewrite Hk, Bool.andb_true_r. reflexivity.
Qed.

(** An assignment gives no field named [__proto__] to an object that
    has none. *)
Lemma lookup_obj_set_proto o k v :
  lookup o "__proto__" = None -> lookup (obj_set k v o) "__proto__" = None.
Proof.
  intros Ho. rewrite lookup_obj_set_gen.
  destruct (String.eqb_spec k "__proto__") as [->|Hne]; [|exact Ho].
  unfold has_own. rewrite Ho. reflexivity.
Qed.

(** Reading after [delete o[k]]. *)
Lemma lookup_obj_delete o k k' :
  lookup (obj_delete k o) k' = if String.eqb k k' then None else lookup o k'.
Proof.
  induction o as [|[k0 v0] o IH]; simpl.
  - destruct (String.eqb k k'); reflexivity.
  - destruct (String.eqb_spec k0 k) as [->|Hne]; simpl.
    + rewrite IH. destruct (String.eqb k k'); reflexivity.
    + rewrite IH. destruct (String.eqb_spec k0 k') as [<-|Hne'].
      * destruct (String.eqb_spec k k0); [congruence | reflexivity].
      * reflexivity.
Qed.

(** Reading after a run of assignments [o[k] = f(k)]. *)
Lemma lookup_fold_obj_set (f : string -> V) ks o k' :
  k' <> "__proto__" ->
  lookup (fold_left (fun o k => obj_set k (f k) o) ks o) k' =
  if includes ks k' then Some (f k') else lookup o k'.
Proof.
  intros Hk'. revert o. induction ks as [|k ks IH]; intros o; simpl; [reflexivity|].
  rewrite IH, lookup_obj_set_at by exact Hk'. unfold includes. simpl.
  rewrite (String.eqb_sym k' k).
  destruct (String.eqb_spec k k') as [->|Hne]; simpl.
  - destruct (existsb (String.eqb k') ks); reflexivity.
  - reflexivity.
Qed.

Lemma lookup_fold_obj_set_proto (f : string -> V) ks o :
  lookup o "__proto__" = None ->
  lookup (fold_left (fun o k => obj_set k (f k) o) ks o) "__proto__" = None.
Proof.
  revert o. induction ks as [|k ks IH]; intros o Ho; simpl; [exact Ho|].
  apply IH, lookup_obj_set_proto, Ho.
Qed.

Lemma includes_In ks k : includes ks k = true <-> In k ks.
Proof.
  unfold includes. rewrite existsb_exists. split.
  - intros [x [Hin Heq]]. apply String.eqb_eq in Heq. subst. exact Hin.
  - intros Hin. exists k. split; [exact Hin | apply String.eqb_refl].
Qed.

Lemma includes_false ks k : includes ks k = false <-> ~ In k ks.
Proof.
  rewrite <- includes_In. destruct (includes ks k); split; congruence.
Qed.
End ObjectFacts.

(** ** The outcome monad *)

Lemma foldM_app {A B : Type} (f : A -> B -> outcome A) (l1 l2 : list B) (a : A) :
  foldM f (l1 ++ l2) a = (a' <- foldM f l1 a ;; foldM f l2 a').
Proof.
  revert a. induction l1 as [|x l1 IH]; intros a; simpl; [reflexivity|].
  destruct (f a x); simpl; [apply IH | reflexivity].
Qed.

Lemma bind_Ok {A B : Type} (m : outcome A) (f : A -> outcome B) (b : B) :
  bind m f = Ok b -> exists a, m = Ok a /\ f a = Ok b.
Proof.
  destruct m; simpl; [eauto | discriminate].
Qed.

Lemma bind_Throw {A B : Type} (m : outcome A) (f : A -> outcome B) (e : error) :
  bind m f = Throw e -> m = Throw e \/ exists a, m = Ok a /\ f a = Throw e.
Proof.
  destruct m; simpl; [eauto | intros [= ->]; auto].
Qed.

Section Regressor.
Context {rt : Runtime}.

(** ** The Regressor's error paths *)

(** C4.  On two arrays, [linearRegressionPredictor] throws
    [InvalidInput] exactly when the lengths differ or are zero, throws
    [InsufficientData] exactly when both hold a single value, and
    returns a predictor exactly in the remaining case of two equal
    lengths of at least two; nothing else about the values is
    inspected. *)
Theorem linearRegressionPredictor_errors (xs ys : list value) :
  (linearRegressionPredictor (VArr xs) (VArr ys) = Throw InvalidInput
     <-> List.length xs <> List.length ys \/ List.length xs = 0) /\
  (linearRegressionPredictor (VArr xs) (VArr ys) = Throw InsufficientData
     <-> List.length xs = List.length ys /\ List.length xs = 1) /\
  ((exists predictor, linearRegressionPredictor (VArr xs) (VArr ys) = Ok predictor)
     <-> List.length xs = List.length ys /\ 2 <= List.length xs).
Proof.
  unfold linearRegressionPredictor. simpl.
  destruct (Nat.eqb_spec (List.length xs) (List.length ys)) as [Heq|Hne];
    [destruct (Nat.eqb_spec (List.length xs) 0) as [H0|H0];
     [|destruct (Nat.eqb_spec (List.length xs) 1) as [H1|H1]]|];
    simpl; repeat split; intros;
    repeat match goal with
           | H : exists _, _ |- _ => destruct H
           | H : _ /\ _ |- _ => destruct H
           | H : _ \/ _ |- _ => destruct H
           end;
    try discriminate; try lia; eauto.
Qed.

(** ** The fitted line *)

Lemma reduce_sum_values (l : list num) (i : nat) (s : num) :
  reduce_sum (fun x _ => x) (map VNum l) i (VNum s) = VNum (fold_left nadd l s).
Proof.
  revert i s. induction l as [|x l IH]; intros i s; simpl; [reflexivity|].
  apply IH.
Qed.

Lemma reduce_sum_squares (xbar : num) (l : list num) (i : nat) (s : num) :
  reduce_sum (fun x _ => js_pow2 (js_sub x (VNum xbar))) (map VNum l) i (VNum s) =
  VNum (fold_left nadd (map (fun x => math_pow (nsub x xbar) (num_of_Z 2)) l) s).
Proof.
  revert i s. induction l as [|x l IH]; intros i s; simpl; [reflexivity|].
  apply IH.
Qed.

Lemma reduce_sum_products (xbar ybar : num) (xs ys : list num)
    (seen : list value) (s : num) :
  List.length xs = List.length ys ->
  reduce_sum
    (fun x i => js_mul (js_sub x (VNum xbar))
                  (js_sub (nth i (seen ++ map VNum ys) VUndef) (VNum ybar)))
    (map VNum xs) (List.length seen) (VNum s) =
  VNum (fold_left nadd
          (map (fun xy => nmul (nsub (fst xy) xbar) (nsub (snd xy) ybar))
             (combine xs ys)) s).
Proof.
  revert ys seen s. induction xs as [|x xs IH]; intros ys seen s Hlen.
  - reflexivity.
  - destruct ys as [|y ys]; [discriminate|].
    injection Hlen as Hlen. simpl.
    rewrite nth_middle.
    replace (seen ++ VNum y :: map VNum ys)
      with ((seen ++ [VNum y]) ++ map VNum ys)
      by (rewrite <- app_assoc; reflexivity).
    replace (S (List.length seen)) with (List.length (seen ++ [VNum y]))
      by (rewrite length_app; simpl; lia).
    apply (IH ys (seen ++ [VNum y])). exact Hlen.
Qed.

(** C2.  On two numeric sequences of one length, at least two,
    [linearRegressionPredictor] returns the function
    [newX ↦ slope·newX + intercept] whose slope and intercept are
    those of the least-squares formula, every operation of the
    formula being the binary64 operation of the language, every
    square the runtime's [Math.pow] at exponent 2, and every sum
    accumulated from zero in index order. *)
Theorem linearRegressionPredictor_ols (xs ys : list num) :
  List.length xs = List.length ys ->
  2 <= List.length xs ->
  exists predictor,
    linearRegressionPredictor (VArr (map VNum xs)) (VArr (map VNum ys))
      = Ok predictor /\
    forall newX : num,
      predictor (VNum newX) =
      VNum (nadd (nmul (ols_slope xs ys) newX) (ols_intercept xs ys)).
Proof.
  intros Hlen Hn.
  unfold linearRegressionPredictor. simpl.
  rewrite !length_map.
  replace (List.length xs =? List.length ys)%nat with true
    by (symmetry; apply Nat.eqb_eq, Hlen).
  replace (List.length xs =? 0)%nat with false
    by (symmetry; apply Nat.eqb_neq; lia).
  replace (List.length xs =? 1)%nat with false
    by (symmetry; apply Nat.eqb_neq; lia).
  simpl. eexists. split; [reflexivity|].
  intros newX.
  rewrite !reduce_sum_values.
  change (js_div (VNum (fold_left nadd xs (num_of_Z 0)))
            (VNum (num_of_nat (List.length xs))))
    with (VNum (mean xs)).
  replace (js_div (VNum (fold_left nadd ys (num_of_Z 0)))
             (VNum (num_of_nat (List.length xs))))
    with (VNum (mean ys)) by (unfold mean, sum_of; rewrite Hlen; reflexivity).
  rewrite (reduce_sum_products (mean xs) (mean ys) xs ys [] _ Hlen).
  rewrite reduce_sum_squares.
  reflexivity.
Qed.
End Regressor.

Section Grouping.
Context {rt : Runtime}.

(** ** The test of the reducer *)

(** The test answers [complete], unless a field named
    [hasOwnProperty] makes its first call throw. *)
Lemma every_call_hasOwnProperty (K : list string) (r : obj) :
  every (call_hasOwnProperty r) K =
  match K with
  | [] => Ok true
  | _ :: _ =>
      if has_own r "hasOwnProperty" then Throw TypeError
      else Ok (complete K r)
  end.
Proof.
  destruct K as [|k0 K0]; [reflexivity|].
  destruct (has_own r "hasOwnProperty") eqn:Hs.
  - simpl. unfold call_hasOwnProperty. rewrite Hs. reflexivity.
  - generalize (k0 :: K0). intros K.
    induction K as [|k K IH]; simpl; [reflexivity|].
    unfold call_hasOwnProperty at 1. rewrite Hs. simpl.
    destruct (has_own r k); [exact IH | reflexivity].
Qed.

Lemma every_unshadowed (K : list string) (r : obj) :
  lookup r "hasOwnProperty" = None ->
  every (call_hasOwnProperty r) K = Ok (complete K r).
Proof.
  intros Hs. rewrite every_call_hasOwnProperty.
  apply has_own_false in Hs. rewrite Hs. destruct K; reflexivity.
Qed.

Lemma every_cases (K : list string) (r : obj) :
  every (call_hasOwnProperty r) K = Ok (complete K r) \/
  every (call_hasOwnProperty r) K = Throw TypeError.
Proof.
  rewrite every_call_hasOwnProperty.
  destruct K; [left; reflexivity|].
  destruct (has_own r "hasOwnProperty"); auto.
Qed.

(** ** Records lacking a grouping key *)



(** ** The routing key is not exposed *)

(** C9.  No entry returned by [group] has a field named ["key"],
    whatever the input records carried under that name. *)
Theorem group_hides_key (R : list obj) (K : list string) (entries : list obj) :
  group R K = Ok entries ->
  Forall (fun entry => lookup entry "key" = None) entries.
Proof.
  unfold group. intros H.
  apply bind_Ok in H. destruct H as [result [_ H]].
  injection H as <-.
  apply Forall_forall. intros entry Hin.
  apply in_map_iff in Hin. destruct Hin as [e [<- _]].
  rewrite lookup_obj_delete. reflexivity.
Qed.

(** ** Entries without a value sequence *)

Lemma mapM_Throw {A B : Type} (f : A -> outcome B) (l : list A) (err : error) :
  mapM f l = Throw err -> exists x, In x l /\ f x = Throw err.
Proof.
  induction l as [|x l IH]; simpl; [discriminate|].
  destruct (f x) as [y|e] eqn:Hx; simpl.
  - destruct (mapM f l) as [ys|e]; simpl; [discriminate|].
    intros [= ->]. destruct IH as [x' [Hin Hx']]; eauto.
  - intros [= ->]. eauto.
Qed.

Lemma ungroup_item_Throw (K aggregatedProperties : list string) (item : obj)
    (i : nat) (err : error) :
  ungroup_item K aggregatedProperties item i = Throw err -> err = TypeError.
Proof.
  unfold ungroup_item.
  generalize (fold_left (fun o key => obj_set key (obj_get item key) o) K ([] : obj)).
  induction aggregatedProperties as [|p ps IH]; intros o; simpl; [discriminate|].
  destruct (obj_get item p); simpl; try (intros [= <-]; reflexivity); apply IH.
Qed.

Lemma ungroup_entry_Throw (K : list string) (item : obj) (err : error) :
  ungroup_entry K item = Throw err -> err = TypeError.
Proof.
  unfold ungroup_entry. intros H.
  apply bind_Throw in H. destruct H as [H|[len [_ H]]].
  - destruct (obj_get item _); simpl in H; congruence.
  - destruct len as [n|]; [|discriminate].
    apply mapM_Throw in H. destruct H as [i [_ H]].
    eapply ungroup_item_Throw, H.
Qed.

Lemma ungroup_from_Throw (K : list string) (es : list obj) (acc : list obj)
    (err : error) :
  foldM (fun newArray item =>
           items <- ungroup_entry K item ;; Ok (newArray ++ items)) es acc
    = Throw err ->
  err = TypeError.
Proof.
  revert acc. induction es as [|e es IH]; intros acc; simpl; [discriminate|].
  destruct (ungroup_entry K e) as [items|e'] eqn:He; simpl.
  - apply IH.
  - intros [= <-]. eapply ungroup_entry_Throw, He.
Qed.

(** The only exception [ungroup] can raise is the runtime's. *)
Lemma ungroup_Throw (K : list string) (es : list obj) (err : error) :
  ungroup es K = Throw err -> err = TypeError.
Proof. apply ungroup_from_Throw. Qed.

Lemma aggregated_all_keys (K : list string) (e : obj) :
  (forall k, In k (obj_keys e) -> In k K) -> aggregated K e = [].
Proof.
  intros H. unfold aggregated.
  induction (obj_keys e) as [|k ks IH]; simpl; [reflexivity|].
  assert (Hk : includes K k = true) by (apply includes_In, H; left; reflexivity).
  rewrite Hk. simpl. apply IH. intros k' Hin. apply H. right. exact Hin.
Qed.

(** C10, for entries without a field named ["undefined"].  [ungroup]
    raises a [TypeError] as soon as some entry has only grouping-key
    fields, none of them named ["undefined"]: the loop bound is read
    through [aggregatedProperties[0]], which is [undefined] for such
    an entry. *)
Theorem ungroup_fails_without_sequences (es : list obj) (K : list string) :
  Exists (fun e => (forall k, In k (obj_keys e) -> In k K)
                   /\ lookup e "undefined" = None) es ->
  ungroup es K = Throw TypeError.
Proof.
  unfold ungroup. generalize (@nil obj) as acc.
  induction es as [|e es IH]; intros acc Hex.
  - inversion Hex.
  - simpl. destruct (ungroup_entry K e) as [items|err] eqn:He; simpl.
    + apply Exists_cons in Hex. destruct Hex as [[Hall Hu]|Hex].
      * unfold ungroup_entry in He.
        rewrite (aggregated_all_keys K e Hall) in He.
        unfold obj_get in He. rewrite Hu in He. discriminate.
      * apply IH, Hex.
    + apply ungroup_entry_Throw in He. subst. reflexivity.
Qed.
End Grouping.

(** ** What [group] builds *)

Lemma find_split_Some {A : Type} (p : A -> bool) (l before after : list A) (x : A) :
  find_split p l = Some (before, x, after) ->
  l = before ++ x :: after /\ p x = true.
Proof.
  revert before. induction l as [|y l IH]; intros before; simpl; [discriminate|].
  destruct (p y) eqn:Hy.
  - intros [= <- <- <-]. auto.
  - destruct (find_split p l) as [[[b z] a]|]; [|discriminate].
    intros [= <- <- <-]. destruct (IH b eq_refl) as [-> Hz]. auto.
Qed.

Lemma find_split_Forall2 {A B : Type} (R : A -> B -> Prop)
    (p : A -> bool) (q : B -> bool) (l1 : list A) (l2 : list B) :
  Forall2 R l1 l2 ->
  (forall x y, R x y -> p x = q y) ->
  match find_split p l1, find_split q l2 with
  | Some (b1, x, a1), Some (b2, y, a2) =>
      Forall2 R b1 b2 /\ R x y /\ Forall2 R a1 a2
  | None, None => True
  | _, _ => False
  end.
Proof.
  intros HF Hpq. induction HF as [|x y l1 l2 Hxy HF IH]; simpl; [exact I|].
  rewrite (Hpq x y Hxy). destruct (q y).
  - auto.
  - destruct (find_split p l1) as [[[b1 x1] a1]|],
             (find_split q l2) as [[[b2 y1] a2]|]; try contradiction; [|exact I].
    destruct IH as [Hb [Hx Ha]]. auto.
Qed.

Section GroupSpec.
Context {rt : Runtime}.
Variable K : list string.

Lemma represents_key_is (key : string) (e : obj) (b : string * list obj) :
  represents K e b -> key_is key e = String.eqb (fst b) key.
Proof.
  unfold represents, key_is, obj_get.
  destruct (snd b); [contradiction|].
  intros [-> _]. reflexivity.
Qed.

Lemma in_aggregated (r : obj) (p : string) :
  In p (aggregated K r) <-> lookup r p <> None /\ includes K p = false.
Proof.
  unfold aggregated. rewrite filter_In, <- lookup_in_keys.
  destruct (includes K p); simpl; intuition congruence.
Qed.

Lemma complete_lookup (r : obj) (k : string) :
  complete K r = true -> In k K -> lookup r k = Some (obj_get r k).
Proof.
  unfold complete. rewrite forallb_forall. intros H Hin.
  specialize (H k Hin). unfold has_own, obj_get in *.
  destruct (lookup r k); [reflexivity | discriminate].
Qed.

(** The pushes made for a record joining an existing entry. *)
Lemma push_props_spec (item : obj) (L : list string) (e : obj) :
  NoDup L ->
  (forall p, In p L -> exists l, lookup e p = Some (VArr l)) ->
  exists e',
    foldM (fun e property => push_prop e property (obj_get item property)) L e
      = Ok e' /\
    forall p,
      lookup e' p =
      if includes L p
      then match lookup e p with
           | Some (VArr l) => Some (VArr (l ++ [obj_get item p]))
           | other => other
           end
      else lookup e p.
Proof.
  revert e. induction L as [|p0 L IH]; intros e Hnd Harr; simpl.
  - eauto.
  - inversion Hnd as [|? ? Hnotin Hnd']; subst.
    destruct (Harr p0 (or_introl eq_refl)) as [l0 Hl0].
    unfold push_prop at 1, obj_get at 1. rewrite Hl0. simpl.
    destruct (IH (obj_set p0 (VArr (l0 ++ [obj_get item p0])) e) Hnd')
      as [e' [He' Hlook]].
    { intros p Hp. rewrite lookup_obj_set_own by (rewrite Hl0; discriminate).
      destruct (String.eqb_spec p0 p) as [->|_]; [contradiction|].
      apply Harr. right. exact Hp. }
    exists e'. split; [exact He'|].
    intros p. rewrite Hlook, lookup_obj_set_own by (rewrite Hl0; discriminate).
    unfold includes. simpl.
    rewrite (String.eqb_sym p p0).
    destruct (String.eqb_spec p0 p) as [->|Hne]; simpl.
    + apply includes_false in Hnotin. unfold includes in Hnotin.
      rewrite Hnotin, Hl0. reflexivity.
    + reflexivity.
Qed.

(** The entry created for the first record of a bucket. *)
Lemma new_entry_represents (r : obj) :
  complete K r = true ->
  lookup r "__proto__" = None ->
  represents K
    (obj_set "key" (VStr (composite_key K r))
       (fold_left (fun e property => obj_set property (VArr [obj_get r property]) e)
          (aggregated K r)
          (fold_left (fun e key => obj_set key (obj_get r key) e) K ([] : obj))))
    (composite_key K r, [r]).
Proof.
  intros Hc Hproto. unfold represents. simpl. split.
  - rewrite lookup_obj_set by discriminate. reflexivity.
  - intros p Hp.
    destruct (String.eqb_spec p "__proto__") as [->|Hpp].
    { rewrite lookup_obj_set_proto, Hproto.
      - unfold has_own. rewrite Hproto.
        destruct (includes K "__proto__"); reflexivity.
      - apply (lookup_fold_obj_set_proto (fun property => VArr [obj_get r property])).
        apply (lookup_fold_obj_set_proto (fun key => obj_get r key)).
        reflexivity. }
    rewrite lookup_obj_set by discriminate.
    destruct (String.eqb_spec "key" p) as [Heq|_]; [congruence|].
    rewrite (lookup_fold_obj_set (fun property => VArr [obj_get r property]))
      by exact Hpp.
    rewrite (lookup_fold_obj_set (fun key => obj_get r key)) by exact Hpp.
    destruct (includes (aggregated K r) p) eqn:Hagg.
    + apply includes_In, in_aggregated in Hagg. destruct Hagg as [Hl HK].
      rewrite HK. apply has_own_lookup in Hl. rewrite Hl. reflexivity.
    + destruct (includes K p) eqn:HK.
      * symmetry. apply complete_lookup; [exact Hc | apply includes_In, HK].
      * destruct (has_own r p) eqn:Hown; [|reflexivity].
        apply includes_false in Hagg. exfalso. apply Hagg, in_aggregated.
        split; [apply has_own_lookup, Hown | exact HK].
Qed.

Lemma bucket_ok_weaken (P P' : list obj) (b : string * list obj) :
  incl P P' -> bucket_ok K P b -> bucket_ok K P' b.
Proof.
  intros Hincl [Hne H]. split; [exact Hne|].
  intros m Hm. destruct (H m Hm) as [? [? ?]]. auto.
Qed.

Lemma bucket_step_ok (P : list obj) (bs : list (string * list obj)) (r : obj) :
  Forall (bucket_ok K P) bs ->
  Forall (bucket_ok K (P ++ [r])) (bucket_step K bs r).
Proof.
  intros Hbs.
  assert (Hbs' : Forall (bucket_ok K (P ++ [r])) bs).
  { eapply Forall_impl; [|exact Hbs].
    intros b. apply bucket_ok_weaken. apply incl_appl, incl_refl. }
  unfold bucket_step. destruct (complete K r) eqn:Hc; simpl; [|exact Hbs'].
  unfold add_to_bucket.
  destruct (find_split _ bs) as [[[before [c members]] after]|] eqn:Hf.
  - apply find_split_Some in Hf. destruct Hf as [-> Hkey].
    simpl in Hkey. apply String.eqb_eq in Hkey. subst c.
    apply Forall_app in Hbs'. destruct Hbs' as [Hb Ha].
    inversion Ha as [|? ? [Hne Hm] Ha']; subst.
    apply Forall_app. split; [exact Hb|]. constructor; [|exact Ha'].
    split; simpl.
    + destruct members; discriminate.
    + intros m Hin. apply in_app_or in Hin. destruct Hin as [Hin|[<-|[]]].
      * apply Hm, Hin.
      * split; [apply in_or_app; right; left; reflexivity | auto].
  - apply Forall_app. split; [exact Hbs'|]. constructor; [|constructor].
    split; simpl; [discriminate|].
    intros m [<-|[]]. split; [apply in_or_app; right; left; reflexivity | auto].
Qed.

Lemma buckets_snoc (P : list obj) (r : obj) :
  buckets K (P ++ [r]) = bucket_step K (buckets K P) r.
Proof. unfold buckets. rewrite fold_left_app. reflexivity. Qed.

Lemma buckets_ok (P : list obj) : Forall (bucket_ok K P) (buckets K P).
Proof.
  induction P as [|r P IH] using rev_ind.
  - constructor.
  - rewrite buckets_snoc. apply bucket_step_ok, IH.
Qed.
End GroupSpec.

Section GroupFold.
Context {rt : Runtime}.
Variable K : list string.

Lemma group_step_spec (P : list obj) (result : list obj)
    (bs : list (string * list obj)) (r : obj) :
  Forall2 (represents K) result bs ->
  Forall (bucket_ok K P) bs ->
  (complete K r = true -> plain K r) ->
  (forall m, In m P -> alike K m r) ->
  every (call_hasOwnProperty r) K = Ok (complete K r) ->
  exists result',
    group_step K result r = Ok result' /\
    Forall2 (represents K) result' (bucket_step K bs r).
Proof.
  intros Hrep Hok Hplain Halike Htest.
  unfold group_step, bucket_step. rewrite Htest. simpl bind.
  destruct (complete K r) eqn:Hc; simpl; [|eauto].
  destruct (Hplain eq_refl) as [Hnd [Hkey Hproto]].
  pose proof (find_split_Forall2 (represents K)
                (key_is (composite_key K r))
                (fun b => String.eqb (fst b) (composite_key K r))
                result bs Hrep
                (represents_key_is K (composite_key K r))) as Hfind.
  unfold add_to_bucket.
  destruct (find_split (key_is _) result) as [[[before e] after]|];
    destruct (find_split _ bs) as [[[bbefore [c members]] bafter]|] eqn:Hfb;
    try contradiction.
  - (* the record joins an existing entry *)
    destruct Hfind as [Hb [He Ha]].
    apply find_split_Some in Hfb. destruct Hfb as [-> Hceq].
    simpl in Hceq. apply String.eqb_eq in Hceq. subst c.
    apply Forall_app in Hok. destruct Hok as [_ Hok].
    inversion Hok as [|? ? [Hne Hmem] _]; subst. simpl in Hne, Hmem.
    unfold represents in He. simpl in He.
    destruct members as [|first members]; [contradiction|].
    destruct He as [Hk Hfields].
    destruct (Hmem first (or_introl eq_refl)) as [HfP [Hfc Hfk]].
    assert (Hsame : forall p, includes K p = false -> has_own first p = has_own r p).
    { intros p. apply (Halike first HfP Hfc Hc Hfk). }
    destruct (push_props_spec r (aggregated K r) e Hnd) as [e' [He' Hlook]].
    { intros p Hp. assert (Hpk : p <> "key") by (intros ->; contradiction).
      apply in_aggregated in Hp. destruct Hp as [Hl HK].
      rewrite (Hfields p Hpk), HK, (Hsame p HK).
      apply has_own_lookup in Hl. rewrite Hl. eauto. }
    rewrite He'. simpl. eexists. split; [reflexivity|].
    apply Forall2_app; [exact Hb|]. constructor; [|exact Ha].
    unfold represents. simpl. split.
    + rewrite Hlook.
      destruct (includes (aggregated K r) "key") eqn:Hin.
      * apply includes_In in Hin. contradiction.
      * exact Hk.
    + intros p Hp. rewrite Hlook, (Hfields p Hp).
      destruct (includes (aggregated K r) p) eqn:Hin.
      * apply includes_In, in_aggregated in Hin. destruct Hin as [Hl HK].
        rewrite HK, (Hsame p HK).
        apply has_own_lookup in Hl. rewrite Hl.
        rewrite map_app. reflexivity.
      * destruct (includes K p) eqn:HK; [reflexivity|].
        rewrite (Hsame p HK).
        destruct (has_own r p) eqn:Hown; [|reflexivity].
        apply includes_false in Hin. exfalso. apply Hin, in_aggregated.
        split; [apply has_own_lookup, Hown | exact HK].
  - (* the record opens a new entry *)
    eexists. split; [reflexivity|].
    apply Forall2_app; [exact Hrep|]. constructor; [|constructor].
    apply new_entry_represents; assumption.
Qed.

(** The same step when the test may throw. *)
Lemma group_step_spec_cond (P : list obj) (result : list obj)
    (bs : list (string * list obj)) (r : obj) :
  Forall2 (represents K) result bs ->
  Forall (bucket_ok K P) bs ->
  (complete K r = true -> plain K r) ->
  (forall m, In m P -> alike K m r) ->
  match group_step K result r with
  | Ok result' => Forall2 (represents K) result' (bucket_step K bs r)
  | Throw _ => True
  end.
Proof.
  intros Hrep Hok Hplain Halike.
  destruct (every_cases K r) as [Htest|Htest].
  - destruct (group_step_spec P result bs r Hrep Hok Hplain Halike Htest)
      as [result' [-> H]]. exact H.
  - unfold group_step. rewrite Htest. exact I.
Qed.

Lemma group_fold_spec_cond (R : list obj) :
  (forall r, In r R -> complete K r = true -> plain K r) ->
  (forall r r', In r R -> In r' R -> alike K r r') ->
  match foldM (group_step K) R [] with
  | Ok result => Forall2 (represents K) result (buckets K R)
  | Throw _ => True
  end.
Proof.
  induction R as [|r P IH] using rev_ind; intros Hplain Halike.
  - constructor.
  - rewrite foldM_app, buckets_snoc.
    assert (IH' : match foldM (group_step K) P [] with
                  | Ok result => Forall2 (represents K) result (buckets K P)
                  | Throw _ => True
                  end).
    { apply IH.
      - intros r' Hin. apply Hplain, in_or_app. left. exact Hin.
      - intros r1 r2 H1 H2. apply Halike; apply in_or_app; left; assumption. }
    destruct (foldM (group_step K) P []) as [result|err]; simpl; [|exact I].
    pose proof (group_step_spec_cond P result (buckets K P) r IH' (buckets_ok K P))
      as Hstep.
    destruct (group_step K result r) as [result'|err]; [|exact I].
    apply Hstep.
    + apply Hplain, in_or_app. right. left. reflexivity.
    + intros m Hm. apply Halike; apply in_or_app; [left|right; left]; auto.
Qed.

(** The accumulator of [group] after the whole input. *)
Lemma group_fold_spec (R : list obj) :
  (forall r, In r R -> complete K r = true -> plain K r) ->
  (forall r r', In r R -> In r' R -> alike K r r') ->
  (forall r, In r R -> every (call_hasOwnProperty r) K = Ok (complete K r)) ->
  exists result,
    foldM (group_step K) R [] = Ok result /\
    Forall2 (represents K) result (buckets K R).
Proof.
  induction R as [|r P IH] using rev_ind; intros Hplain Halike Htest.
  - exists []. split; [reflexivity | constructor].
  - destruct IH as [result [Hfold Hrep]].
    { intros r' Hin. apply Hplain, in_or_app. left. exact Hin. }
    { intros r1 r2 H1 H2. apply Halike; apply in_or_app; left; assumption. }
    { intros r' Hin. apply Htest, in_or_app. left. exact Hin. }
    destruct (group_step_spec P result (buckets K P) r Hrep (buckets_ok K P))
      as [result' [Hstep Hrep']].
    { apply Hplain, in_or_app. right. left. reflexivity. }
    { intros m Hm. apply Halike; apply in_or_app; [left|right; left]; auto. }
    { apply Htest, in_or_app. right. left. reflexivity. }
    exists result'. rewrite foldM_app, Hfold, buckets_snoc. simpl.
    rewrite Hstep. auto.
Qed.
End GroupFold.

(** ** Grouping, then ungrouping *)

Lemma mapM_seq_Forall2 {A B : Type} (f : nat -> outcome B) (R : B -> A -> Prop)
    (l : list A) (d : A) (s : nat) :
  (forall i, i < List.length l -> exists o, f (s + i) = Ok o /\ R o (nth i l d)) ->
  exists os, mapM f (seq s (List.length l)) = Ok os /\ Forall2 R os l.
Proof.
  revert s. induction l as [|a l IH]; intros s H; simpl.
  - exists []. split; [reflexivity | constructor].
  - destruct (H 0) as [o [Ho HR]]; [simpl; lia|].
    rewrite Nat.add_0_r in Ho. rewrite Ho. simpl.
    destruct (IH (S s)) as [os [Hos HF]].
    { intros i Hi. destruct (H (S i)) as [o' [Ho' HR']]; [simpl; lia|].
      exists o'. split; [|exact HR'].
      rewrite <- Ho'. f_equal. lia. }
    rewrite Hos. simpl. exists (o :: os). split; [reflexivity|].
    constructor; assumption.
Qed.

Section RoundTrip.
Context {rt : Runtime}.
Variable K : list string.

(** One pass of the loop body of [ungroup] over sequences. *)
Lemma ungroup_item_spec (L : list string) (item : obj) (i : nat) :
  (forall p, In p L -> exists l, obj_get item p = VArr l) ->
  exists o,
    ungroup_item K L item i = Ok o /\
    lookup o "__proto__" = None /\
    forall p,
      p <> "__proto__" ->
      lookup o p =
      if includes L p
      then Some (match obj_get item p with
                 | VArr l => nth i l VUndef
                 | _ => VUndef
                 end)
      else if includes K p then Some (obj_get item p) else None.
Proof.
  intros Harr. unfold ungroup_item.
  set (g := fun p => match obj_get item p with
                     | VArr l => nth i l VUndef
                     | _ => VUndef
                     end).
  set (o0 := fold_left (fun o key => obj_set key (obj_get item key) o) K ([] : obj)).
  assert (Hfold : forall o,
    foldM (fun o property =>
             v <- js_index (obj_get item property) i ;; Ok (obj_set property v o))
          L o
    = Ok (fold_left (fun o p => obj_set p (g p) o) L o)).
  { revert Harr. clear. induction L as [|p L IH]; intros Harr o; simpl.
    - reflexivity.
    - destruct (Harr p (or_introl eq_refl)) as [l Hl].
      assert (Hg : g p = nth i l VUndef) by (unfold g; rewrite Hl; reflexivity).
      rewrite Hl, Hg. simpl.
      apply IH. intros q Hq. apply Harr. right. exact Hq. }
  rewrite Hfold. eexists. split; [reflexivity|]. split.
  - apply (lookup_fold_obj_set_proto g).
    apply (lookup_fold_obj_set_proto (fun key => obj_get item key)).
    reflexivity.
  - intros p Hp. rewrite (lookup_fold_obj_set g) by exact Hp. unfold o0.
    rewrite (lookup_fold_obj_set (fun key => obj_get item key)) by exact Hp.
    reflexivity.
Qed.

Variable R : list obj.
Hypothesis R_no_key : forall r, In r R -> lookup r "key" = None.
Hypothesis R_no_proto : forall r, In r R -> lookup r "__proto__" = None.
Hypothesis K_no_key : ~ In "key" K.
Hypothesis R_aggregates :
  forall r, In r R -> exists p, ~ In p K /\ lookup r p <> None.
Hypothesis R_same_keys :
  forall r r', In r R -> In r' R ->
    composite_key K r = composite_key K r' ->
    forall k, In k K -> lookup r k = lookup r' k.
Hypothesis R_same_names :
  forall r r', In r R -> In r' R ->
    composite_key K r = composite_key K r' ->
    forall p, lookup r p = None <-> lookup r' p = None.

(** The entry of a bucket expands to the members of the bucket. *)
Lemma ungroup_entry_spec (e : obj) (b : string * list obj) :
  represents K e b ->
  bucket_ok K R b ->
  exists records,
    ungroup_entry K (obj_delete "key" e) = Ok records /\
    Forall2 same_fields records (snd b).
Proof.
  destruct b as [c members]. unfold represents. simpl.
  destruct members as [|first members]; [contradiction|].
  intros [Hk Hfields] [_ Hmem]. simpl in Hmem.
  destruct (Hmem first (or_introl eq_refl)) as [HfR [Hfc Hfk]].
  set (e' := obj_delete "key" e).
  set (ms := first :: members) in *.
  assert (He' : forall p, p <> "key" -> lookup e' p = lookup e p).
  { intros p Hp. unfold e'. rewrite lookup_obj_delete.
    destruct (String.eqb_spec "key" p); [congruence | reflexivity]. }
  assert (HL : forall p, In p (aggregated K e') ->
               p <> "key" /\ includes K p = false /\ has_own first p = true).
  { intros p Hp. apply in_aggregated in Hp. destruct Hp as [Hl HK].
    assert (Hpk : p <> "key").
    { intros ->. apply Hl. unfold e'. rewrite lookup_obj_delete. reflexivity. }
    rewrite (He' p Hpk), (Hfields p Hpk), HK in Hl.
    destruct (has_own first p); [auto | congruence]. }
  assert (Hseq : forall p, In p (aggregated K e') ->
                 obj_get e' p = VArr (map (fun m => obj_get m p) ms)).
  { intros p Hp. destruct (HL p Hp) as [Hpk [HK Hown]].
    unfold obj_get at 1. rewrite (He' p Hpk), (Hfields p Hpk), HK, Hown.
    reflexivity. }
  assert (Hne : exists p, In p (aggregated K e')).
  { destruct (R_aggregates first HfR) as [p [HpK Hp]].
    exists p. apply in_aggregated.
    assert (Hpk : p <> "key") by (intros ->; apply Hp, R_no_key, HfR).
    apply includes_false in HpK.
    rewrite (He' p Hpk), (Hfields p Hpk), HpK.
    apply has_own_lookup in Hp. rewrite Hp. split; [discriminate | reflexivity]. }
  unfold ungroup_entry. fold e'.
  assert (Hfirst : js_length (obj_get e' match aggregated K e' with
                                        | property :: _ => property
                                        | [] => "undefined"
                                        end)
                   = Ok (Some (List.length ms))).
  { destruct (aggregated K e') as [|p1 L] eqn:HLeq.
    - destruct Hne as [p []].
    - rewrite (Hseq p1 (or_introl eq_refl)). simpl. rewrite length_map. reflexivity. }
  rewrite Hfirst. simpl bind.
  apply (mapM_seq_Forall2 _ same_fields ms ([] : obj) 0).
  intros i Hi. change (0 + i) with i.
  destruct (ungroup_item_spec (aggregated K e') e' i) as [o [Ho [Hop Hlook]]].
  { intros p Hp. rewrite (Hseq p Hp). eauto. }
  exists o. split; [exact Ho|].
  assert (Hin : In (nth i ms []) ms) by (apply nth_In, Hi).
  remember (nth i ms []) as m eqn:Hm_def.
  destruct (Hmem _ Hin) as [HmR [Hmc Hmk]].
  assert (Hck : composite_key K first = composite_key K m) by congruence.
  intros p.
  destruct (String.eqb_spec p "__proto__") as [->|Hpp];
    [rewrite Hop; symmetry; apply R_no_proto, HmR|].
  rewrite (Hlook p Hpp).
  destruct (includes (aggregated K e') p) eqn:HinL.
  - apply includes_In in HinL.
    rewrite (Hseq p HinL).
    destruct (HL p HinL) as [Hpk [HK Hown]].
    change VUndef with ((fun m => obj_get m p) ([] : obj)).
    rewrite map_nth, <- Hm_def.
    apply has_own_lookup in Hown.
    assert (Hm : lookup m p <> None).
    { intros Hnone. apply Hown, (R_same_names first m HfR HmR Hck p), Hnone. }
    unfold obj_get. destruct (lookup m p); [reflexivity | contradiction].
  - destruct (includes K p) eqn:HK.
    + apply includes_In in HK.
      assert (Hpk : p <> "key") by (intros ->; contradiction).
      rewrite <- (R_same_keys first m HfR HmR Hck p HK).
      unfold obj_get. rewrite (He' p Hpk), (Hfields p Hpk).
      replace (includes K p) with true by (symmetry; apply includes_In, HK).
      rewrite (complete_lookup K first p Hfc HK). reflexivity.
    + symmetry. destruct (String.eqb_spec p "key") as [->|Hpk].
      * apply R_no_key, HmR.
      * apply (R_same_names first m HfR HmR Hck p).
        apply has_own_false.
        destruct (has_own first p) eqn:Hown; [|reflexivity].
        apply includes_false in HinL. exfalso. apply HinL, in_aggregated.
        rewrite (He' p Hpk), (Hfields p Hpk), HK, Hown.
        split; [discriminate | reflexivity].
Qed.

Lemma ungroup_spec (result : list obj) (bs : list (string * list obj))
    (acc acc' : list obj) :
  Forall2 (represents K) result bs ->
  Forall (bucket_ok K R) bs ->
  Forall2 same_fields acc acc' ->
  exists records,
    foldM (fun newArray item =>
             items <- ungroup_entry K item ;; Ok (newArray ++ items))
          (map (obj_delete "key") result) acc
      = Ok records /\
    Forall2 same_fields records (acc' ++ List.concat (map snd bs)).
Proof.
  intros Hrep. revert acc acc'.
  induction Hrep as [|e b result bs He Hrep IH]; intros acc acc' Hok Hacc; simpl.
  - exists acc. rewrite app_nil_r. auto.
  - inversion Hok as [|? ? Hb Hok']; subst.
    destruct (ungroup_entry_spec e b He Hb) as [items [Hitems HF]].
    rewrite Hitems. simpl.
    destruct (IH (acc ++ items) (acc' ++ snd b) Hok') as [records [Hrec HF']].
    { apply Forall2_app; assumption. }
    exists records. split; [exact Hrec|].
    rewrite <- app_assoc in HF'. exact HF'.
Qed.
End RoundTrip.

Section BucketsPermutation.
Context {rt : Runtime}.
Variable K : list string.

Lemma add_to_bucket_members (key : string) (r : obj) (bs : list (string * list obj)) :
  Permutation (List.concat (map snd (add_to_bucket key r bs)))
              (List.concat (map snd bs) ++ [r]).
Proof.
  unfold add_to_bucket.
  destruct (find_split _ bs) as [[[before [c members]] after]|] eqn:Hf.
  - apply find_split_Some in Hf. destruct Hf as [-> _].
    rewrite !map_app, !concat_app. simpl.
    rewrite <- !app_assoc. do 2 apply Permutation_app_head.
    apply Permutation_app_comm.
  - rewrite map_app, concat_app. reflexivity.
Qed.

(** The buckets hold exactly the records that have every grouping key. *)
Lemma buckets_members (R : list obj) :
  Permutation (List.concat (map snd (buckets K R))) (filter (complete K) R).
Proof.
  induction R as [|r P IH] using rev_ind.
  - reflexivity.
  - rewrite buckets_snoc, filter_app. unfold bucket_step. simpl.
    destruct (complete K r); simpl.
    + rewrite add_to_bucket_members. apply Permutation_app_tail, IH.
    + rewrite app_nil_r. exact IH.
Qed.
End BucketsPermutation.

Section RoundTripTheorem.
Context {rt : Runtime}.

(** C5, under the conditions that make the round trip exact.  Let
    every record of [R] be well formed, have all the fields of [K]
    and at least one other field, and none named ["key"],
    ["hasOwnProperty"] or ["__proto__"]; and let any two records with
    the same composite key agree on their key fields and have the
    same field names.  Then [group] and [ungroup] both return, and
    [ungroup(group(R, K), K)] is [R] up to the order of the records
    and of their fields. *)
Theorem ungroup_group_same_records (R : list obj) (K : list string) :
  (forall r, In r R -> well_formed r) ->
  (forall r, In r R -> forall k, In k K -> lookup r k <> None) ->
  (forall r, In r R -> lookup r "key" = None) ->
  (forall r, In r R -> lookup r "hasOwnProperty" = None) ->
  (forall r, In r R -> lookup r "__proto__" = None) ->
  (forall r, In r R -> exists p, ~ In p K /\ lookup r p <> None) ->
  (forall r r', In r R -> In r' R -> composite_key K r = composite_key K r' ->
     (forall k, In k K -> lookup r k = lookup r' k) /\
     (forall p, lookup r p = None <-> lookup r' p = None)) ->
  exists grouped records,
    group R K = Ok grouped /\
    ungroup grouped K = Ok records /\
    same_records records R.
Proof.
  intros Hwf Hcomplete Hnokey Hnohas Hnoproto Hagg Hsame.
  destruct R as [|r0 R0] eqn:HR.
  { exists [], []. repeat split; try reflexivity.
    exists []. split; constructor. }
  rewrite <- HR in *.
  assert (Hr0 : In r0 R) by (rewrite HR; left; reflexivity).
  assert (HK : ~ In "key" K).
  { intros Hin. apply (Hcomplete r0 Hr0 "key" Hin), Hnokey, Hr0. }
  clear HR Hr0.
  assert (Hc : forall r, In r R -> complete K r = true).
  { intros r Hr. unfold complete. apply forallb_forall. intros k Hk.
    apply has_own_lookup, Hcomplete; assumption. }
  destruct (group_fold_spec K R) as [result [Hfold Hrep]].
  - intros r Hr _. split; [|split].
    + apply NoDup_filter, Hwf, Hr.
    + intros Hin. apply in_aggregated in Hin. destruct Hin as [Hl _].
      apply Hl, Hnokey, Hr.
    + apply Hnoproto, Hr.
  - intros r r' Hr Hr' _ _ Hck p _.
    destruct (Hsame r r' Hr Hr' Hck) as [_ Hnames].
    unfold has_own. specialize (Hnames p).
    destruct (lookup r p), (lookup r' p); try reflexivity.
    + destruct Hnames as [_ H]. discriminate H; reflexivity.
    + destruct Hnames as [H _]. discriminate H; reflexivity.
  - intros r Hr. apply every_unshadowed, Hnohas, Hr.
  - destruct (ungroup_spec K R Hnokey Hnoproto HK Hagg
                (fun r r' Hr Hr' Hck => proj1 (Hsame r r' Hr Hr' Hck))
                (fun r r' Hr Hr' Hck => proj2 (Hsame r r' Hr Hr' Hck))
                result (buckets K R) [] [] Hrep (buckets_ok K R))
      as [records [Hrec HF]]; [constructor|].
    exists (map (obj_delete "key") result), records.
    unfold group. rewrite Hfold. simpl.
    split; [reflexivity|]. split; [exact Hrec|].
    exists (List.concat (map snd (buckets K R))). split; [exact HF|].
    rewrite buckets_members.
    rewrite (forallb_filter_id (complete K) R); [reflexivity|].
    apply forallb_forall, Hc.
Qed.
End RoundTripTheorem.

(** ** Projection *)

Section KeysFacts.
Context {V : Type}.
Implicit Types (o : @props V) (k : string) (v : V).

Lemma obj_keys_replace o k v : obj_keys (obj_replace k v o) = obj_keys o.
Proof.
  induction o as [|[k0 v0] o IH]; simpl; [reflexivity|].
  destruct (String.eqb_spec k0 k) as [->|Hne]; simpl; [reflexivity|].
  f_equal. exact IH.
Qed.

Lemma in_keys_insert_index o i k v k' :
  In k' (obj_keys (obj_insert_index i k v o)) <-> k' = k \/ In k' (obj_keys o).
Proof.
  induction o as [|[k0 v0] o IH]; simpl.
  - intuition.
  - destruct (array_index k0) as [j|]; [destruct (j <? i)%N|]; simpl;
      rewrite ?IH; intuition.
Qed.

Lemma NoDup_insert_index o i k v :
  NoDup (obj_keys o) -> ~ In k (obj_keys o) ->
  NoDup (obj_keys (obj_insert_index i k v o)).
Proof.
  induction o as [|[k0 v0] o IH]; simpl; intros Hnd Hk.
  - constructor; [tauto | constructor].
  - inversion Hnd as [|? ? Hk0 Hnd']; subst.
    destruct (array_index k0) as [j|]; [destruct (j <? i)%N|]; simpl;
      try (constructor; [simpl; tauto | exact Hnd]).
    constructor.
    + rewrite in_keys_insert_index. intros [->|H]; tauto.
    + apply IH; tauto.
Qed.

(** An assignment keeps the property names distinct. *)
Lemma NoDup_obj_set o k v :
  NoDup (obj_keys o) -> NoDup (obj_keys (obj_set k v o)).
Proof.
  intros Hnd. unfold obj_set.
  destruct (has_own o k) eqn:Hown.
  - rewrite obj_keys_replace. exact Hnd.
  - assert (Hk : ~ In k (obj_keys o)).
    { rewrite <- lookup_in_keys. apply has_own_false in Hown. congruence. }
    destruct (String.eqb k "__proto__"); [exact Hnd|].
    destruct (array_index k).
    + apply NoDup_insert_index; assumption.
    + unfold obj_keys. rewrite map_app. simpl.
      apply (Permutation_NoDup (Permutation_cons_append _ _)).
      constructor; assumption.
Qed.

Lemma NoDup_fold_obj_set (f : string -> V) ks o :
  NoDup (obj_keys o) ->
  NoDup (obj_keys (fold_left (fun o k => obj_set k (f k) o) ks o)).
Proof.
  revert o. induction ks as [|k ks IH]; intros o Hnd; simpl; [exact Hnd|].
  apply IH, NoDup_obj_set, Hnd.
Qed.
End KeysFacts.

(** ** The outcomes of [batchPredict] *)

Lemma filterM_In {A : Type} (p : A -> outcome bool) (l l' : list A) (x : A) :
  filterM p l = Ok l' -> In x l' -> In x l /\ p x = Ok true.
Proof.
  revert l'. induction l as [|a l IH]; intros l'; simpl.
  - intros [= <-] [].
  - destruct (p a) as [b|] eqn:Ha; simpl; [|discriminate].
    destruct (filterM p l) as [xs|]; simpl; [|discriminate].
    intros [= <-] Hin. destruct b.
    + destruct Hin as [<-|Hin]; [auto|].
      destruct (IH xs eq_refl Hin). auto.
    + destruct (IH xs eq_refl Hin). auto.
Qed.

Lemma filterM_Throw {A : Type} (p : A -> outcome bool) (l : list A) (err : error) :
  filterM p l = Throw err -> exists x, In x l /\ p x = Throw err.
Proof.
  induction l as [|a l IH]; simpl; [discriminate|].
  destruct (p a) as [b|e] eqn:Ha; simpl.
  - destruct (filterM p l) as [xs|e]; simpl; [discriminate|].
    intros [= ->]. destruct IH as [x [Hin Hx]]; eauto.
  - intros [= ->]. eauto.
Qed.

Lemma foldM_Throw_inv {A B : Type} (f : A -> B -> outcome A) (Q : error -> Prop)
    (l : list B) (a : A) (err : error) :
  (forall a x e, f a x = Throw e -> Q e) ->
  foldM f l a = Throw err -> Q err.
Proof.
  intros Hf. revert a. induction l as [|x l IH]; intros a; simpl; [discriminate|].
  destruct (f a x) as [a'|e] eqn:Hx; simpl.
  - apply IH.
  - intros [= <-]. eapply Hf, Hx.
Qed.

Section BatchOutcomes.
Context {rt : Runtime}.

Lemma push_prop_Throw (e : obj) (p : string) (v : value) (err : error) :
  push_prop e p v = Throw err -> err = TypeError.
Proof.
  unfold push_prop. destruct (obj_get e p); simpl; congruence.
Qed.

Lemma group_step_Throw (K : list string) (result : list obj) (r : obj)
    (err : error) :
  group_step K result r = Throw err -> err = TypeError.
Proof.
  unfold group_step.
  destruct (every_cases K r) as [-> | ->]; simpl bind;
    [|intros [= <-]; reflexivity].
  destruct (negb (complete K r)); [discriminate|].
  destruct (find_split _ result) as [[[before e] after]|]; [|discriminate].
  intros H. apply bind_Throw in H. destruct H as [H|[e' [_ H]]]; [|discriminate].
  revert H. apply (foldM_Throw_inv _ (fun e => e = TypeError)).
  intros a x e0. apply push_prop_Throw.
Qed.

(** The only exception [group] can raise is the runtime's. *)
Lemma group_Throw (R : list obj) (K : list string) (err : error) :
  group R K = Throw err -> err = TypeError.
Proof.
  unfold group. intros H.
  apply bind_Throw in H. destruct H as [H|[result [_ H]]]; [|discriminate].
  revert H. apply (foldM_Throw_inv _ (fun e => e = TypeError)).
  apply group_step_Throw.
Qed.

Lemma enough_points_Throw (xKey : string) (item : obj) (err : error) :
  enough_points xKey item = Throw err -> err = TypeError.
Proof.
  unfold enough_points. destruct (obj_get item xKey); simpl; congruence.
Qed.

(** What survives the filter has an independent value of length at
    least two. *)
Lemma enough_points_true (xKey : string) (item : obj) :
  enough_points xKey item = Ok true ->
  exists n, js_length (obj_get item xKey) = Ok (Some n) /\ 2 <= n.
Proof.
  unfold enough_points.
  destruct (js_length (obj_get item xKey)) as [[n|]|]; simpl; try discriminate.
  intros [= H]. apply Nat.ltb_lt in H. eauto.
Qed.

Lemma linearRegressionPredictor_InsufficientData (x y : value) :
  linearRegressionPredictor x y = Throw InsufficientData ->
  js_length x = Ok (Some 1).
Proof.
  unfold linearRegressionPredictor.
  destruct (js_length x) as [xlen|e] eqn:Hx; simpl.
  - destruct (js_length y) as [ylen|e] eqn:Hy; simpl;
      [|destruct y; simpl in Hy; congruence].
    destruct (negb (length_eqb xlen ylen) || length_is xlen 0); [discriminate|].
    destruct (length_is xlen 1) eqn:H1.
    + intros _. destruct xlen as [n|]; simpl in H1; [|discriminate].
      apply Nat.eqb_eq in H1. subst. reflexivity.
    + destruct x; simpl; try discriminate.
      destruct y; simpl; discriminate.
  - destruct x; simpl in Hx; congruence.
Qed.

Lemma linearRegressionPredictor_arrays (xs ys : list value) :
  List.length xs = List.length ys -> 2 <= List.length xs ->
  exists predictor, linearRegressionPredictor (VArr xs) (VArr ys) = Ok predictor.
Proof.
  intros Hlen Hn. unfold linearRegressionPredictor. simpl.
  replace (List.length xs =? List.length ys)%nat with true
    by (symmetry; apply Nat.eqb_eq, Hlen).
  replace (List.length xs =? 0)%nat with false
    by (symmetry; apply Nat.eqb_neq; lia).
  replace (List.length xs =? 1)%nat with false
    by (symmetry; apply Nat.eqb_neq; lia).
  simpl. eauto.
Qed.

Lemma predict_entry_Throw (xKey yKey : string) (newXs : list value)
    (item : obj) (err : error) :
  predict_entry xKey yKey newXs item = Throw err ->
  linearRegressionPredictor (obj_get item xKey) (obj_get item yKey) = Throw err.
Proof.
  unfold predict_entry. intros H.
  apply bind_Throw in H. destruct H as [H|[p [_ H]]]; [exact H | discriminate].
Qed.

(** Whatever the input, the [InsufficientData] path of the Regressor
    is closed by the filter of [batchPredict]. *)
Lemma batchPredict_not_InsufficientData (data : list obj) (K : list string)
    (xKey yKey : string) (newXs : list value) :
  batchPredict data K xKey yKey newXs <> Throw InsufficientData.
Proof.
  unfold batchPredict. intros H.
  apply bind_Throw in H. destruct H as [H|[grouped [_ H]]].
  { apply group_Throw in H. discriminate. }
  apply bind_Throw in H. destruct H as [H|[groupedData [Hfilter H]]].
  { apply filterM_Throw in H. destruct H as [item [_ H]].
    apply enough_points_Throw in H. discriminate. }
  apply bind_Throw in H. destruct H as [H|[predicted [_ H]]].
  - apply mapM_Throw in H. destruct H as [item [Hin H]].
    apply predict_entry_Throw, linearRegressionPredictor_InsufficientData in H.
    destruct (filterM_In _ _ _ item Hfilter Hin) as [_ Hpts].
    apply enough_points_true in Hpts. destruct Hpts as [n [Hn Hge]].
    rewrite Hn in H. injection H as ->. lia.
  - apply ungroup_Throw in H. discriminate.
Qed.
End BatchOutcomes.

Lemma Forall2_In_l {A B : Type} (R : A -> B -> Prop) (l1 : list A) (l2 : list B)
    (x : A) :
  Forall2 R l1 l2 -> In x l1 -> exists y, In y l2 /\ R x y.
Proof.
  induction 1 as [|a b l1 l2 Hab _ IH]; intros Hin; [destruct Hin|].
  destruct Hin as [<-|Hin].
  - exists b. split; [left; reflexivity | exact Hab].
  - destruct (IH Hin) as [y [Hy HR]]. exists y. split; [right; exact Hy | exact HR].
Qed.

Section RegressorReachability.
Context {rt : Runtime}.

(** A projected record keeps exactly the allowed fields it had,
    except one named [__proto__]. *)
Lemma lookup_projected (allowed : list string) (item : obj) (p : string) :
  lookup (fold_left (fun o key => obj_set key (obj_get item key) o)
            (filter (includes allowed) (obj_keys item)) ([] : obj)) p
  = if includes allowed p && negb (String.eqb p "__proto__")
    then lookup item p else None.
Proof.
  destruct (String.eqb_spec p "__proto__") as [->|Hp]; simpl.
  { rewrite Bool.andb_false_r.
    apply (lookup_fold_obj_set_proto (fun key => obj_get item key)).
    reflexivity. }
  rewrite Bool.andb_true_r.
  rewrite (lookup_fold_obj_set (fun key => obj_get item key)) by exact Hp. simpl.
  destruct (includes (filter (includes allowed) (obj_keys item)) p) eqn:Hin.
  - apply includes_In, filter_In in Hin. destruct Hin as [Hk Ha].
    rewrite Ha. apply lookup_in_keys in Hk.
    unfold obj_get. destruct (lookup item p); [reflexivity | contradiction].
  - destruct (includes allowed p) eqn:Ha; [|reflexivity].
    destruct (lookup item p) eqn:Hl; [|reflexivity].
    apply includes_false in Hin. exfalso. apply Hin, filter_In.
    split; [apply lookup_in_keys; congruence | exact Ha].
Qed.

Lemma lookup_projected_at (allowed : list string) (item : obj) (p : string) :
  p <> "__proto__" ->
  lookup (fold_left (fun o key => obj_set key (obj_get item key) o)
            (filter (includes allowed) (obj_keys item)) ([] : obj)) p
  = if includes allowed p then lookup item p else None.
Proof.
  intros Hp. rewrite lookup_projected.
  apply String.eqb_neq in Hp. rewrite Hp, Bool.andb_true_r. reflexivity.
Qed.

Lemma lookup_projected_Some (allowed : list string) (item : obj) (p : string) :
  lookup (fold_left (fun o key => obj_set key (obj_get item key) o)
            (filter (includes allowed) (obj_keys item)) ([] : obj)) p
  <> None ->
  includes allowed p = true /\ p <> "__proto__" /\ lookup item p <> None.
Proof.
  rewrite lookup_projected.
  destruct (includes allowed p); simpl; [|congruence].
  destruct (String.eqb_spec p "__proto__"); simpl; [congruence|].
  auto.
Qed.

Lemma NoDup_projected (allowed : list string) (item : obj) :
  NoDup (obj_keys (fold_left (fun o key => obj_set key (obj_get item key) o)
                     (filter (includes allowed) (obj_keys item)) ([] : obj))).
Proof.
  apply (NoDup_fold_obj_set (fun key => obj_get item key)). constructor.
Qed.

Lemma includes_allowed (K : list string) (xKey yKey p : string) :
  includes (K ++ [xKey; yKey]) p = true <-> In p K \/ p = xKey \/ p = yKey.
Proof.
  rewrite includes_In, in_app_iff. simpl. intuition.
Qed.

(** The case in which neither field is named ["key"]. *)
Lemma batchPredict_no_InvalidInput_plain (data : list obj)
    (K : list string) (xKey yKey : string) (newXs : list value) :
  (forall r, In r data ->
     (forall k, In k K -> lookup r k <> None) ->
     lookup r xKey <> None /\ lookup r yKey <> None) ->
  ~ In xKey K -> ~ In yKey K -> xKey <> "key" -> yKey <> "key" ->
  xKey <> "__proto__" -> yKey <> "__proto__" ->
  batchPredict data K xKey yKey newXs <> Throw InvalidInput.
Proof.
  intros Hxy HxK HyK Hxk Hyk Hxp Hyp.
  unfold batchPredict.
  set (allowed := K ++ [xKey; yKey]).
  set (data' := removeExtraProperties data allowed).
  assert (Hx_allowed : includes allowed xKey = true)
    by (apply includes_allowed; auto).
  assert (Hy_allowed : includes allowed yKey = true)
    by (apply includes_allowed; auto).
  (* the projected records *)
  assert (Hproj : forall r', In r' data' ->
            NoDup (obj_keys r') /\
            lookup r' "__proto__" = None /\
            (forall p, lookup r' p <> None ->
                       includes allowed p = true) /\
            (complete K r' = true ->
             lookup r' xKey <> None /\ lookup r' yKey <> None)).
  { intros r' Hin. unfold data', removeExtraProperties in Hin.
    apply in_map_iff in Hin. destruct Hin as [r [<- Hr]].
    split; [apply NoDup_projected|].
    split; [rewrite lookup_projected, Bool.andb_false_r; reflexivity|].
    split.
    - intros p Hp. apply lookup_projected_Some in Hp. tauto.
    - intros Hc.
      rewrite !lookup_projected_at, Hx_allowed, Hy_allowed by assumption.
      apply (Hxy r Hr). intros k Hk.
      unfold complete in Hc. rewrite forallb_forall in Hc.
      specialize (Hc k Hk). apply has_own_lookup in Hc.
      apply lookup_projected_Some in Hc. tauto. }
  assert (Hagg : forall r' p, In r' data' -> complete K r' = true ->
            includes K p = false ->
            has_own r' p = (String.eqb p xKey || String.eqb p yKey)).
  { intros r' p Hin Hc HK.
    destruct (Hproj r' Hin) as [_ [_ [Hall Hboth]]].
    destruct (Hboth Hc) as [Hx Hy].
    destruct (String.eqb_spec p xKey) as [->|Hpx];
      [apply has_own_lookup, Hx|].
    destruct (String.eqb_spec p yKey) as [->|Hpy];
      [apply has_own_lookup, Hy|].
    simpl. apply has_own_false.
    destruct (lookup r' p) eqn:Hl; [|reflexivity].
    assert (Ha : includes allowed p = true) by (apply Hall; congruence).
    apply includes_allowed in Ha. apply includes_false in HK.
    destruct Ha as [Ha|[Ha|Ha]]; contradiction. }
  pose proof (group_fold_spec_cond K data') as Hrep.
  intros H.
  apply bind_Throw in H. destruct H as [H|[grouped [Hgroup H]]].
  { apply group_Throw in H. discriminate. }
  unfold group in Hgroup. apply bind_Ok in Hgroup.
  destruct Hgroup as [result [Hfold [= <-]]].
  rewrite Hfold in Hrep.
  assert (Hrep' : Forall2 (represents K) result (buckets K data')).
  { apply Hrep.
    - intros r' Hin Hc. destruct (Hproj r' Hin) as [Hnd [Hpr [Hall _]]].
      split; [|split; [|exact Hpr]].
      + apply NoDup_filter, Hnd.
      + intros Hkey. apply in_aggregated in Hkey. destruct Hkey as [Hl HK].
        apply Hall, includes_allowed in Hl. apply includes_false in HK.
        destruct Hl as [Hl|[Hl|Hl]]; [contradiction | congruence | congruence].
    - intros r1 r2 H1 H2 Hc1 Hc2 _ p HK.
      rewrite (Hagg r1 p H1 Hc1 HK), (Hagg r2 p H2 Hc2 HK). reflexivity. }
  clear Hrep. rename Hrep' into Hrep.
  apply bind_Throw in H. destruct H as [H|[groupedData [Hfilter H]]].
  { apply filterM_Throw in H. destruct H as [item [_ H]].
    apply enough_points_Throw in H. discriminate. }
  apply bind_Throw in H. destruct H as [H|[predicted [_ H]]];
    [|apply ungroup_Throw in H; discriminate].
  apply mapM_Throw in H. destruct H as [item [Hin H]].
  apply predict_entry_Throw in H.
  destruct (filterM_In _ _ _ item Hfilter Hin) as [Hitem Hpts].
  apply in_map_iff in Hitem. destruct Hitem as [e [<- He]].
  destruct (Forall2_In_l _ _ _ e Hrep He) as [[c members] [Hb Hrepr]].
  pose proof (buckets_ok K data') as Hok.
  rewrite Forall_forall in Hok. destruct (Hok _ Hb) as [_ Hmem].
  unfold represents in Hrepr. simpl in Hrepr, Hmem.
  destruct members as [|first members]; [contradiction|].
  destruct Hrepr as [_ Hfields].
  destruct (Hmem first (or_introl eq_refl)) as [HfR [Hfc _]].
  assert (Hseq : forall p, (p = xKey \/ p = yKey) ->
            obj_get (obj_delete "key" e) p
            = VArr (map (fun m => obj_get m p) (first :: members))).
  { intros p Hp.
    assert (Hpk : p <> "key") by (destruct Hp; congruence).
    assert (HK : includes K p = false)
      by (apply includes_false; destruct Hp; congruence).
    unfold obj_get at 1. rewrite lookup_obj_delete.
    destruct (String.eqb_spec "key" p) as [Heq|_]; [congruence|].
    rewrite (Hfields p Hpk), HK, (Hagg first p HfR Hfc HK).
    destruct Hp as [->| ->]; rewrite String.eqb_refl, ?orb_true_r; reflexivity. }
  rewrite (Hseq xKey (or_introl eq_refl)), (Hseq yKey (or_intror eq_refl)) in H.
  apply enough_points_true in Hpts. destruct Hpts as [n [Hn Hge]].
  rewrite (Hseq xKey (or_introl eq_refl)) in Hn. simpl in Hn.
  injection Hn as Hn.
  destruct (linearRegressionPredictor_arrays
              (map (fun m => obj_get m xKey) (first :: members))
              (map (fun m => obj_get m yKey) (first :: members)))
    as [predictor Hp].
  - rewrite !length_map. reflexivity.
  - simpl. lia.
  - rewrite Hp in H. discriminate.
Qed.

(** When one of the two fields is named ["key"], the routing key
    takes its place in every entry: a second record of a group makes
    [group] throw, and an entry of one record does not pass the
    filter. *)
Lemma push_key_fails (item : obj) (L : list string) (e : obj) :
  In "key" L ->
  (exists c, lookup e "key" = Some (VStr c)) ->
  exists err,
    foldM (fun e property => push_prop e property (obj_get item property)) L e
      = Throw err.
Proof.
  revert e. induction L as [|p L IH]; intros e Hin [c Hc]; [destruct Hin|].
  simpl. destruct (String.eqb_spec p "key") as [->|Hne].
  - unfold push_prop, obj_get. rewrite Hc. simpl. eauto.
  - destruct Hin as [Heq|Hin]; [congruence|].
    unfold push_prop at 1.
    destruct (as_array (obj_get e p)) as [l|err]; simpl; [|eauto].
    apply IH; [exact Hin|].
    exists c. rewrite lookup_obj_set_at by discriminate.
    destruct (String.eqb_spec p "key"); [congruence | exact Hc].
Qed.

Lemma group_step_keyed (K : list string) (xKey yKey : string)
    (result : list obj) (r : obj) :
  xKey <> "__proto__" -> yKey <> "__proto__" ->
  (complete K r = true ->
   In "key" (aggregated K r) /\
   forall p, p = xKey \/ p = yKey -> In p (aggregated K r)) ->
  Forall (single_entry xKey yKey) result ->
  match group_step K result r with
  | Ok result' => Forall (single_entry xKey yKey) result'
  | Throw _ => True
  end.
Proof.
  intros Hxp Hyp Hr Hres. unfold group_step.
  destruct (every_cases K r) as [-> | ->]; simpl bind; [|exact I].
  destruct (complete K r) eqn:Hc; simpl; [|exact Hres].
  destruct (Hr eq_refl) as [Hkey Hxy].
  destruct (find_split _ result) as [[[before e] after]|] eqn:Hf.
  - apply find_split_Some in Hf. destruct Hf as [-> _].
    apply Forall_app in Hres. destruct Hres as [_ Hres].
    inversion Hres as [|? ? [He _] _]; subst.
    destruct (push_key_fails r (aggregated K r) e Hkey He) as [err ->].
    exact I.
  - apply Forall_app. split; [exact Hres|]. constructor; [|constructor].
    split.
    + eexists. rewrite lookup_obj_set by discriminate. reflexivity.
    + intros p Hp Hpxy. rewrite lookup_obj_set by discriminate.
      destruct (String.eqb_spec "key" p) as [Heq|_]; [congruence|].
      rewrite (lookup_fold_obj_set (fun property => VArr [obj_get r property]))
        by (destruct Hpxy; congruence).
      replace (includes (aggregated K r) p) with true
        by (symmetry; apply includes_In, Hxy, Hpxy).
      eauto.
Qed.

Lemma group_fold_keyed (K : list string) (xKey yKey : string)
    (R : list obj) (result : list obj) :
  xKey <> "__proto__" -> yKey <> "__proto__" ->
  (forall r, In r R -> complete K r = true ->
     In "key" (aggregated K r) /\
     forall p, p = xKey \/ p = yKey -> In p (aggregated K r)) ->
  Forall (single_entry xKey yKey) result ->
  match foldM (group_step K) R result with
  | Ok result' => Forall (single_entry xKey yKey) result'
  | Throw _ => True
  end.
Proof.
  intros Hxp Hyp.
  revert result. induction R as [|r R IH]; intros result HR Hres; simpl.
  - exact Hres.
  - pose proof (group_step_keyed K xKey yKey result r Hxp Hyp
                  (HR r (or_introl eq_refl)) Hres) as Hstep.
    destruct (group_step K result r) as [result'|err]; simpl; [|exact I].
    apply IH; [|exact Hstep].
    intros r' Hin. apply HR. right. exact Hin.
Qed.

Lemma batchPredict_no_InvalidInput_keyed (data : list obj)
    (K : list string) (xKey yKey : string) (newXs : list value) :
  (forall r, In r data ->
     (forall k, In k K -> lookup r k <> None) ->
     lookup r xKey <> None /\ lookup r yKey <> None) ->
  ~ In xKey K -> ~ In yKey K -> xKey = "key" \/ yKey = "key" ->
  xKey <> "__proto__" -> yKey <> "__proto__" ->
  batchPredict data K xKey yKey newXs <> Throw InvalidInput.
Proof.
  intros Hxy HxK HyK Hkey Hxp Hyp.
  unfold batchPredict.
  set (allowed := K ++ [xKey; yKey]).
  set (data' := removeExtraProperties data allowed).
  assert (Hagg : forall r', In r' data' -> complete K r' = true ->
            forall p, p = xKey \/ p = yKey -> In p (aggregated K r')).
  { intros r' Hin Hc p Hp. unfold data', removeExtraProperties in Hin.
    apply in_map_iff in Hin. destruct Hin as [r [<- Hr]].
    apply in_aggregated.
    rewrite lookup_projected_at by (destruct Hp; congruence).
    replace (includes allowed p) with true
      by (symmetry; apply includes_allowed; tauto).
    split; [|apply includes_false; destruct Hp; congruence].
    assert (Hboth : lookup r xKey <> None /\ lookup r yKey <> None).
    { apply (Hxy r Hr). intros k Hk.
      unfold complete in Hc. rewrite forallb_forall in Hc.
      specialize (Hc k Hk). apply has_own_lookup in Hc.
      apply lookup_projected_Some in Hc. tauto. }
    destruct Hp as [-> | ->]; tauto. }
  pose proof (group_fold_keyed K xKey yKey data' [] Hxp Hyp) as Hfold.
  intros H.
  apply bind_Throw in H. destruct H as [H|[grouped [Hgroup H]]].
  { apply group_Throw in H. discriminate. }
  apply bind_Throw in H. destruct H as [H|[groupedData [Hfilter H]]].
  { apply filterM_Throw in H. destruct H as [item [_ H]].
    apply enough_points_Throw in H. discriminate. }
  apply bind_Throw in H. destruct H as [H|[predicted [_ H]]];
    [|apply ungroup_Throw in H; discriminate].
  apply mapM_Throw in H. destruct H as [item [Hin _]].
  destruct (filterM_In _ _ _ item Hfilter Hin) as [Hitem Hpts].
  unfold group in Hgroup. apply bind_Ok in Hgroup.
  destruct Hgroup as [result [Hresult [= <-]]].
  rewrite Hresult in Hfold.
  assert (Hsingle : Forall (single_entry xKey yKey) result).
  { apply Hfold; [|constructor].
    intros r' Hr' Hc. split; [|apply Hagg; assumption].
    destruct Hkey as [Hk|Hk]; rewrite <- Hk; apply Hagg; auto. }
  apply in_map_iff in Hitem. destruct Hitem as [e [<- He]].
  rewrite Forall_forall in Hsingle. destruct (Hsingle e He) as [_ Hone].
  unfold enough_points, obj_get in Hpts. rewrite lookup_obj_delete in Hpts.
  destruct (String.eqb_spec "key" xKey) as [Heq|Hne].
  - discriminate Hpts.
  - destruct (Hone xKey) as [v Hv]; [congruence | auto |].
    rewrite Hv in Hpts. discriminate Hpts.
Qed.

(** C6, for records that carry both fields.  When every record that
    has all the grouping keys also has the independent and the
    dependent field, neither of which is a grouping key or is named
    ["__proto__"], [batchPredict] takes neither error path of the
    Regressor: every group that survives the filter reaches it with
    two sequences of one length, at least two. *)
Theorem batchPredict_regressor_errors_unreachable (data : list obj)
    (K : list string) (xKey yKey : string) (newXs : list value) :
  (forall r, In r data ->
     (forall k, In k K -> lookup r k <> None) ->
     lookup r xKey <> None /\ lookup r yKey <> None) ->
  ~ In xKey K -> ~ In yKey K ->
  xKey <> "__proto__" -> yKey <> "__proto__" ->
  batchPredict data K xKey yKey newXs <> Throw InvalidInput /\
  batchPredict data K xKey yKey newXs <> Throw InsufficientData.
Proof.
  intros Hxy HxK HyK Hxp Hyp.
  split; [|apply batchPredict_not_InsufficientData].
  destruct (String.eqb_spec xKey "key") as [Hx|Hx];
    [apply batchPredict_no_InvalidInput_keyed; auto|].
  destruct (String.eqb_spec yKey "key") as [Hy|Hy];
    [apply batchPredict_no_InvalidInput_keyed; auto|].
  apply batchPredict_no_InvalidInput_plain; assumption.
Qed.
End RegressorReachability.

(** ** The README example *)

(** C1.  On the two-branch dataset of the README, [batchPredict]
    returns four records in group-then-newX order: branch A with sales
    14 and 16, then branch B with the doubles the language prints as
    10.336842105263157 and 12.010526315789473, where the README and
    the docstrings of both files announce 9 and 11. *)
#[warnings="-inexact-float"]
Theorem batchPredict_readme :
  batchPredict (rt := reference_runtime)
    readme_data ["branch"] "period" "sales" [int 7; int 8]
  = Ok [ prediction "A" 7 (num_of_Z 14); prediction "A" 8 (num_of_Z 16);
         prediction "B" 7 10.336842105263157%float;
         prediction "B" 8 12.010526315789473%float ].
Proof. vm_compute. reflexivity. Qed.

Section Readme.
Context {rt : Runtime}.

(** C3, at the README dataset.  The variant of [src/unnamed/part_000]
    leaves each group's independent sequence in place, so whatever
    the delegated fit computes it returns one record per original
    observation, twelve of them carrying the original periods, where
    [src/index.js] returns four. *)
Theorem batchPredict_delegating_differs (fit : list value -> value -> value) :
  (exists rows,
     batchPredict_delegating fit readme_data ["branch"] "period" "sales"
       [int 7; int 8] = Ok rows /\
     List.length rows = 12 /\
     map (fun r => obj_get r "period") rows = readme_periods) /\
  batchPredict_delegating fit readme_data ["branch"] "period" "sales"
    [int 7; int 8]
  <> batchPredict readme_data ["branch"] "period" "sales" [int 7; int 8].
Proof.
  split.
  - eexists. split; [vm_compute; reflexivity|].
    split; reflexivity.
  - vm_compute. discriminate.
Qed.
End Readme.

(** ** The groups [group] forms *)

Lemma distinct_keys_snoc (l : list string) (c : string) :
  distinct_keys (l ++ [c]) =
  if includes (distinct_keys l) c then distinct_keys l else distinct_keys l ++ [c].
Proof. unfold distinct_keys. rewrite fold_left_app. reflexivity. Qed.

Lemma distinct_keys_In (l : list string) (c : string) :
  In c (distinct_keys l) <-> In c l.
Proof.
  induction l as [|x l IH] using rev_ind; [reflexivity|].
  rewrite distinct_keys_snoc, in_app_iff. simpl.
  destruct (includes (distinct_keys l) x) eqn:Hx.
  - apply includes_In in Hx. rewrite IH.
    split; [auto | intros [H|[H|[]]]; [exact H | subst; apply IH, Hx]].
  - rewrite in_app_iff, IH. simpl. tauto.
Qed.

Lemma distinct_keys_NoDup (l : list string) : NoDup (distinct_keys l).
Proof.
  induction l as [|x l IH] using rev_ind; [constructor|].
  rewrite distinct_keys_snoc.
  destruct (includes (distinct_keys l) x) eqn:Hx; [exact IH|].
  apply includes_false in Hx.
  apply (Permutation_NoDup (Permutation_cons_append _ _)).
  constructor; assumption.
Qed.

Section GroupsSpelledOut.
Context {rt : Runtime}.
Variable K : list string.

Lemma add_to_bucket_map (c : string) (r : obj) (f : string -> list obj)
    (ks : list string) :
  NoDup ks ->
  add_to_bucket c r (map (fun c' => (c', f c')) ks) =
  map (fun c' => (c', if String.eqb c' c then f c' ++ [r] else f c')) ks
  ++ (if includes ks c then [] else [(c, [r])]).
Proof.
  unfold add_to_bucket. induction ks as [|k ks IH]; intros Hnd; simpl.
  - reflexivity.
  - inversion Hnd as [|? ? Hk Hnd']; subst.
    rewrite (String.eqb_sym c k).
    destruct (String.eqb_spec k c) as [->|Hne]; simpl.
    + rewrite app_nil_r. f_equal.
      apply map_ext_in. intros c' Hc'.
      destruct (String.eqb_spec c' c) as [->|_]; [contradiction | reflexivity].
    + specialize (IH Hnd').
      destruct (find_split _ (map (fun c' => (c', f c')) ks))
        as [[[before [c0 ms]] after]|]; rewrite <- IH; reflexivity.
Qed.

Lemma members_snoc (P : list obj) (r : obj) (c : string) :
  complete K r = true ->
  members K (P ++ [r]) c =
  if String.eqb c (composite_key K r) then members K P c ++ [r]
  else members K P c.
Proof.
  intros Hc. unfold members. rewrite !filter_app. simpl. rewrite Hc. simpl.
  rewrite (String.eqb_sym c).
  destruct (String.eqb (composite_key K r) c); [reflexivity | apply app_nil_r].
Qed.

Lemma members_nil (P : list obj) (c : string) :
  ~ In c (group_keys K P) -> members K P c = [].
Proof.
  intros Hc. unfold members.
  destruct (filter _ (filter (complete K) P)) as [|m ms] eqn:Hf; [reflexivity|].
  exfalso. apply Hc. unfold group_keys. apply distinct_keys_In.
  assert (Hin : In m (m :: ms)) by (left; reflexivity).
  rewrite <- Hf in Hin. apply filter_In in Hin. destruct Hin as [Hin Heq].
  apply String.eqb_eq in Heq. subst c. apply in_map, Hin.
Qed.

(** The buckets are the member lists of the distinct composite keys,
    in order of first occurrence. *)
Lemma buckets_spelled_out (R : list obj) :
  buckets K R = map (fun c => (c, members K R c)) (group_keys K R).
Proof.
  induction R as [|r P IH] using rev_ind; [reflexivity|].
  rewrite buckets_snoc. unfold bucket_step.
  destruct (complete K r) eqn:Hc; simpl.
  - rewrite IH, add_to_bucket_map by apply distinct_keys_NoDup.
    unfold group_keys at 3. rewrite filter_app, map_app. simpl. rewrite Hc. simpl.
    rewrite distinct_keys_snoc. fold (group_keys K P).
    destruct (includes (group_keys K P) (composite_key K r)) eqn:Hin.
    + rewrite app_nil_r. apply map_ext. intros c.
      rewrite (members_snoc P r c Hc). reflexivity.
    + rewrite map_app. simpl. f_equal.
      * apply map_ext. intros c. rewrite (members_snoc P r c Hc). reflexivity.
      * rewrite (members_snoc P r _ Hc), String.eqb_refl.
        rewrite members_nil; [reflexivity | apply includes_false, Hin].
  - rewrite IH. unfold group_keys, members.
    rewrite filter_app. simpl. rewrite Hc, app_nil_r. reflexivity.
Qed.
End GroupsSpelledOut.

Lemma Forall2_maps {A B C D : Type} (R : C -> D -> Prop) (f : A -> C) (g : B -> D)
    (l1 : list A) (l2 : list B) :
  Forall2 (fun a b => R (f a) (g b)) l1 l2 -> Forall2 R (map f l1) (map g l2).
Proof. induction 1; simpl; constructor; assumption. Qed.

Lemma Forall2_weaken {A B : Type} (R R' : A -> B -> Prop) (l1 : list A) (l2 : list B) :
  (forall a b, In a l1 -> In b l2 -> R a b -> R' a b) ->
  Forall2 R l1 l2 -> Forall2 R' l1 l2.
Proof.
  intros HR HF. induction HF as [|a b l1 l2 Hab HF IH]; constructor.
  - apply HR; [left; reflexivity | left; reflexivity | exact Hab].
  - apply IH. intros a' b' Ha Hb. apply HR; right; assumption.
Qed.

Lemma find_split_None {A : Type} (p : A -> bool) (l : list A) (x : A) :
  find_split p l = None -> In x l -> p x = false.
Proof.
  induction l as [|y l IH]; simpl; [intros _ []|].
  destruct (p y) eqn:Hy; [discriminate|].
  destruct (find_split p l) as [[[b z] a]|]; [discriminate|].
  intros _ [<-|Hin]; [exact Hy | apply IH; [reflexivity | exact Hin]].
Qed.

Section GroupOutline.
Context {rt : Runtime}.
Variable K : list string.

(** What a run of pushes that succeeds has done. *)
Lemma push_props_Ok (item : obj) (L : list string) (e e' : obj) :
  foldM (fun e property => push_prop e property (obj_get item property)) L e
    = Ok e' ->
  (forall p, ~ In p L -> lookup e' p = lookup e p) /\
  (forall p, In p L ->
     exists l l', lookup e p = Some (VArr l) /\ lookup e' p = Some (VArr l')).
Proof.
  revert e. induction L as [|p0 L IH]; intros e; simpl.
  - intros [= <-]. split; [reflexivity | intros p []].
  - unfold push_prop at 1, obj_get at 1.
    destruct (lookup e p0) as [[| | |l0]|] eqn:Hl0; simpl; try discriminate.
    intros H. destruct (IH _ H) as [Hout Hin]. split.
    + intros p Hp. rewrite Hout by tauto.
      rewrite lookup_obj_set_own by (rewrite Hl0; discriminate).
      destruct (String.eqb_spec p0 p); [tauto | reflexivity].
    + intros p Hp.
      destruct (in_dec string_dec p L) as [HpL|HpL].
      * destruct (Hin p HpL) as [l [l' [Hl Hl']]].
        rewrite lookup_obj_set_own in Hl by (rewrite Hl0; discriminate).
        destruct (String.eqb_spec p0 p) as [->|_]; eauto.
      * destruct Hp as [->|Hp]; [|contradiction].
        rewrite (Hout p HpL).
        rewrite lookup_obj_set_own by (rewrite Hl0; discriminate).
        rewrite String.eqb_refl. eauto.
Qed.

Lemma represents_outlines (e : obj) (b : string * list obj) :
  represents K e b -> outlines K e b.
Proof.
  unfold represents, outlines. destruct (snd b) as [|first rest]; [exact id|].
  intros [Hk Hfields]. split; [exact Hk|].
  intros p Hp. rewrite (Hfields p Hp).
  destruct (includes K p); [reflexivity|].
  unfold has_own. destruct (lookup first p); split; congruence.
Qed.

Lemma outlines_key_is (key : string) (e : obj) (b : string * list obj) :
  outlines K e b -> key_is key e = String.eqb (fst b) key.
Proof.
  unfold outlines, key_is, obj_get.
  destruct (snd b); [contradiction|].
  intros [-> _]. reflexivity.
Qed.

Lemma group_step_outlines (result : list obj) (bs : list (string * list obj))
    (r : obj) :
  Forall2 (outlines K) result bs ->
  lookup r "__proto__" = None ->
  match group_step K result r with
  | Ok result' => Forall2 (outlines K) result' (bucket_step K bs r)
  | Throw _ => True
  end.
Proof.
  intros Hout Hproto. unfold group_step, bucket_step.
  destruct (every_cases K r) as [-> | ->]; simpl bind; [|exact I].
  destruct (complete K r) eqn:Hc; simpl; [|exact Hout].
  pose proof (find_split_Forall2 (outlines K)
                (key_is (composite_key K r))
                (fun b => String.eqb (fst b) (composite_key K r))
                result bs Hout
                (outlines_key_is (composite_key K r))) as Hfind.
  unfold add_to_bucket.
  destruct (find_split (key_is _) result) as [[[before e] after]|];
    destruct (find_split _ bs) as [[[bbefore [c ms]] bafter]|];
    try contradiction.
  - destruct Hfind as [Hb [He Ha]].
    destruct (foldM _ (aggregated K r) e) as [e'|err] eqn:Hpush; simpl; [|exact I].
    apply push_props_Ok in Hpush. destruct Hpush as [Hsame Hpushed].
    apply Forall2_app; [exact Hb|]. constructor; [|exact Ha].
    unfold outlines in *. simpl in *.
    destruct ms as [|first rest]; [contradiction|]. simpl.
    destruct He as [Hk Hfields]. split.
    + rewrite Hsame; [exact Hk|].
      intros Hin. destruct (Hpushed _ Hin) as [l [_ [Hl _]]]. congruence.
    + intros p Hp. specialize (Hfields p Hp).
      destruct (includes K p) eqn:HK.
      * rewrite Hsame; [exact Hfields|].
        intros Hin. apply in_aggregated in Hin. destruct Hin. congruence.
      * destruct (in_dec string_dec p (aggregated K r)) as [Hin|Hin].
        -- destruct (Hpushed p Hin) as [l [l' [Hl Hl']]].
           rewrite Hl' . rewrite Hl in Hfields.
           destruct Hfields as [H1 H2]. split; [discriminate|].
           intros H. specialize (H2 H). discriminate.
        -- rewrite (Hsame p Hin). exact Hfields.
  - apply Forall2_app; [exact Hout|]. constructor; [|constructor].
    apply represents_outlines, new_entry_represents; assumption.
Qed.

Lemma group_fold_outlines (R : list obj) (result0 : list obj)
    (bs0 : list (string * list obj)) :
  (forall r, In r R -> lookup r "__proto__" = None) ->
  Forall2 (outlines K) result0 bs0 ->
  match foldM (group_step K) R result0 with
  | Ok result => Forall2 (outlines K) result (fold_left (bucket_step K) R bs0)
  | Throw _ => True
  end.
Proof.
  revert result0 bs0. induction R as [|r R IH]; intros result0 bs0 HR H0; simpl.
  - exact H0.
  - pose proof (group_step_outlines result0 bs0 r H0 (HR r (or_introl eq_refl)))
      as Hstep.
    destruct (group_step K result0 r) as [result1|err]; simpl; [|exact I].
    apply IH; [|exact Hstep].
    intros r' Hr'. apply HR. right. exact Hr'.
Qed.

(** X1. On records without a field named ["__proto__"], whenever
    [group] returns, it returns one entry per distinct composite key
    of the records that have all the grouping keys, in order of
    first occurrence; each entry has, for every grouping key other
    than ["key"], the value of the first record of its group and,
    apart from the name ["key"], exactly the field names of that
    record. *)
Theorem group_entries_per_key (R : list obj) (entries : list obj) :
  (forall r, In r R -> lookup r "__proto__" = None) ->
  group R K = Ok entries ->
  Forall2
    (fun entry c =>
       exists first rest,
         members K R c = first :: rest /\
         (forall k, In k K -> k <> "key" -> lookup entry k = lookup first k) /\
         (forall p, p <> "key" ->
                    (lookup entry p = None <-> lookup first p = None)))
    entries (group_keys K R).
Proof.
  unfold group. intros HR H. apply bind_Ok in H.
  destruct H as [result [Hfold [= <-]]].
  pose proof (group_fold_outlines R [] [] HR (Forall2_nil _)) as Hout.
  rewrite Hfold in Hout. fold (buckets K R) in Hout.
  rewrite buckets_spelled_out in Hout.
  rewrite <- (map_id (group_keys K R)).
  apply Forall2_maps.
  assert (Hout' : Forall2 (fun e c => outlines K e (c, members K R c))
                    result (group_keys K R)).
  { rewrite <- (map_id result) in Hout.
    revert Hout. generalize (group_keys K R) as ks. clear.
    induction result as [|e result IH]; intros [|c ks] H; inversion H; subst;
      constructor; auto. }
  apply (Forall2_weaken _ _ _ _ (fun e c _ _ H => H)) in Hout'.
  revert Hout'. apply Forall2_weaken. intros e c _ _ He.
  unfold outlines in He. simpl in He.
  destruct (members K R c) as [|first rest]; [contradiction|].
  destruct He as [Hk Hfields].
  exists first, rest. split; [reflexivity|]. split.
  - intros k Hin Hne. rewrite lookup_obj_delete.
    destruct (String.eqb_spec "key" k) as [Heq|_]; [congruence|].
    specialize (Hfields k Hne).
    replace (includes K k) with true in Hfields
      by (symmetry; apply includes_In, Hin).
    exact Hfields.
  - intros p Hne. rewrite lookup_obj_delete.
    destruct (String.eqb_spec "key" p) as [Heq|_]; [congruence|].
    specialize (Hfields p Hne).
    destruct (includes K p); [rewrite Hfields; reflexivity | exact Hfields].
Qed.

(** X2. Among records without a field named ["__proto__"], a record
    that joins a group with a field, outside the grouping keys, that
    the first record of the group did not have makes [group] throw a
    [TypeError]: there is no sequence to push to. *)
Theorem group_unseen_field_throws (R1 R2 : list obj) (r1 r2 : obj)
    (rest : list obj) (p : string) :
  (forall r, In r (R1 ++ [r2]) -> lookup r "__proto__" = None) ->
  complete K r2 = true ->
  members K R1 (composite_key K r2) = r1 :: rest ->
  ~ In p K ->
  lookup r2 p <> None ->
  lookup r1 p = None ->
  group (R1 ++ r2 :: R2) K = Throw TypeError.
Proof.
  intros Hplain Hc Hmem HpK Hp2 Hp1.
  assert (Hthrow : exists err, foldM (group_step K) (R1 ++ r2 :: R2) [] = Throw err).
  { rewrite foldM_app.
    assert (HR1 : forall r, In r R1 -> lookup r "__proto__" = None)
      by (intros r Hr; apply Hplain, in_or_app; left; exact Hr).
    pose proof (group_fold_outlines R1 [] [] HR1 (Forall2_nil _)) as Hout.
    destruct (foldM (group_step K) R1 []) as [result|err]; simpl; [|eauto].
    fold (buckets K R1) in Hout. rewrite buckets_spelled_out in Hout.
    unfold group_step at 1.
    destruct (every_cases K r2) as [-> | ->]; simpl bind; [|eauto].
    rewrite Hc. simpl.
    set (c := composite_key K r2) in *.
    pose proof (find_split_Forall2 (outlines K) (key_is c)
                  (fun b => String.eqb (fst b) c)
                  result _ Hout (outlines_key_is c)) as Hfind.
    destruct (find_split (key_is c) result) as [[[before e] after]|].
    - destruct (find_split _ (map _ (group_keys K R1)))
        as [[[bbefore [c' ms]] bafter]|] eqn:Hfb; [|contradiction].
      destruct Hfind as [_ [He _]].
      apply find_split_Some in Hfb. destruct Hfb as [Hbs Hceq].
      simpl in Hceq. apply String.eqb_eq in Hceq. subst c'.
      assert (Hms : ms = members K R1 c).
      { assert (Hin : In (c, ms) (map (fun c0 => (c0, members K R1 c0))
                                    (group_keys K R1))).
        { rewrite Hbs. apply in_or_app. right. left. reflexivity. }
        apply in_map_iff in Hin. destruct Hin as [c0 [[= <- <-] _]]. reflexivity. }
      rewrite Hms, Hmem in He. unfold outlines in He. simpl in He.
      destruct He as [Hk Hfields].
      destruct (foldM _ (aggregated K r2) e) as [e'|err] eqn:Hpush; simpl; [|eauto].
      exfalso. apply push_props_Ok in Hpush. destruct Hpush as [_ Hpushed].
      destruct (Hpushed p) as [l [_ [Hl _]]].
      { apply in_aggregated. split; [exact Hp2 | apply includes_false, HpK]. }
      destruct (String.eqb_spec p "key") as [->|Hne]; [congruence|].
      specialize (Hfields p Hne).
      replace (includes K p) with false in Hfields
        by (symmetry; apply includes_false, HpK).
      apply Hfields in Hp1. congruence.
    - exfalso.
      destruct (find_split _ (map _ (group_keys K R1)))
        as [[[bbefore [c' ms]] bafter]|] eqn:Hfb; [contradiction|].
      assert (Hin : In (c, members K R1 c)
                      (map (fun c0 => (c0, members K R1 c0)) (group_keys K R1))).
      { apply (in_map (fun c0 => (c0, members K R1 c0)) _ c).
        destruct (in_dec string_dec c (group_keys K R1)) as [H|H];
          [exact H|].
        apply members_nil in H. congruence. }
      apply (find_split_None _ _ _ Hfb) in Hin. simpl in Hin.
      rewrite String.eqb_refl in Hin. discriminate. }
  destruct Hthrow as [err Hthrow].
  assert (Herr : err = TypeError).
  { revert Hthrow. apply (foldM_Throw_inv _ (fun e => e = TypeError)).
    apply group_step_Throw. }
  unfold group. rewrite Hthrow. subst. reflexivity.
Qed.
End GroupOutline.

Section GroupColumnar.
Context {rt : Runtime}.

Lemma group_columnar_entries (R : list obj) (K : list string) :
  (forall r, In r R -> every (call_hasOwnProperty r) K = Ok (complete K r)) ->
  (forall r, In r R -> complete K r = true ->
     well_formed r /\ lookup r "key" = None /\ lookup r "__proto__" = None) ->
  (forall r r', In r R -> In r' R ->
     complete K r = true -> complete K r' = true ->
     composite_key K r = composite_key K r' ->
     forall p, ~ In p K -> (lookup r p = None <-> lookup r' p = None)) ->
  exists entries,
    group R K = Ok entries /\
    Forall2 (fun entry c => columnar K entry (members K R c))
      entries (group_keys K R).
Proof.
  intros Htest Hwf Hnames.
  destruct (group_fold_spec K R) as [result [Hfold Hrep]].
  - intros r Hr Hc. destruct (Hwf r Hr Hc) as [Hnd [Hkey Hproto]].
    split; [apply NoDup_filter, Hnd|]. split; [|exact Hproto].
    intros Hin. apply in_aggregated in Hin. destruct Hin as [Hl HK].
    contradiction.
  - intros r r' Hr Hr' Hc Hc' Hck p HK. apply includes_false in HK.
    pose proof (Hnames r r' Hr Hr' Hc Hc' Hck p HK) as H. unfold has_own.
    destruct (lookup r p), (lookup r' p); try reflexivity.
    + destruct H as [_ H]. discriminate H; reflexivity.
    + destruct H as [H _]. discriminate H; reflexivity.
  - exact Htest.
  - exists (map (obj_delete "key") result).
    unfold group. rewrite Hfold. split; [reflexivity|].
    rewrite buckets_spelled_out in Hrep.
    rewrite <- (map_id (group_keys K R)). apply Forall2_maps.
    assert (Hrep' : Forall2 (fun e c => represents K e (c, members K R c))
                      result (group_keys K R)).
    { revert Hrep. generalize (group_keys K R) as ks. clear.
      induction result as [|e result IH]; intros [|c ks] H; inversion H; subst;
        constructor; auto. }
    revert Hrep'. apply Forall2_weaken. intros e c _ _ He.
    unfold represents in He. unfold columnar. simpl in He.
    destruct (members K R c) as [|first rest]; [contradiction|].
    destruct He as [_ Hfields]. intros p.
    rewrite lookup_obj_delete, (String.eqb_sym p "key").
    destruct (String.eqb_spec "key" p) as [_|Hne]; [reflexivity|].
    apply Hfields. congruence.
Qed.

(** X3. Let no record have a field named ["hasOwnProperty"]; let the
    records that have all the grouping keys have no field name twice
    and no field named ["key"] or ["__proto__"]; and let those with
    one composite key have the same field names outside the grouping
    keys.  Then [group] returns, and the entry of each composite key
    is the columnar form of its member records: the grouping-key
    values of the first, and under every other field name of the
    first the sequence of the members' values, in input order. *)
Theorem group_columnar (R : list obj) (K : list string) :
  (forall r, In r R -> lookup r "hasOwnProperty" = None) ->
  (forall r, In r R -> complete K r = true ->
     well_formed r /\ lookup r "key" = None /\ lookup r "__proto__" = None) ->
  (forall r r', In r R -> In r' R ->
     complete K r = true -> complete K r' = true ->
     composite_key K r = composite_key K r' ->
     forall p, ~ In p K -> (lookup r p = None <-> lookup r' p = None)) ->
  exists entries,
    group R K = Ok entries /\
    Forall2 (fun entry c => columnar K entry (members K R c))
      entries (group_keys K R).
Proof.
  intros Hhas. apply group_columnar_entries.
  intros r Hr. apply every_unshadowed, Hhas, Hr.
Qed.
End GroupColumnar.

(** ** The rows [ungroup] makes *)

Lemma mapM_Forall2 {A B : Type} (f : A -> outcome B) (R : B -> A -> Prop)
    (l : list A) :
  (forall x, In x l -> exists y, f x = Ok y /\ R y x) ->
  exists ys, mapM f l = Ok ys /\ Forall2 R ys l.
Proof.
  induction l as [|x l IH]; intros H; simpl.
  - exists []. split; [reflexivity | constructor].
  - destruct (H x (or_introl eq_refl)) as [y [Hy HR]]. rewrite Hy. simpl.
    destruct IH as [ys [Hys HF]]; [intros z Hz; apply H; right; exact Hz|].
    rewrite Hys. simpl. exists (y :: ys). split; [reflexivity|].
    constructor; assumption.
Qed.

Section UngroupRows.
Context {rt : Runtime}.
Variable K : list string.

Lemma ungroup_from (es : list obj) (acc : list obj) :
  foldM (fun newArray item =>
           items <- ungroup_entry K item ;; Ok (newArray ++ items)) es acc
  = (rows <- ungroup es K ;; Ok (acc ++ rows)).
Proof.
  unfold ungroup. revert acc.
  induction es as [|e es IH]; intros acc; simpl.
  - rewrite app_nil_r. reflexivity.
  - destruct (ungroup_entry K e) as [items|err]; simpl; [|reflexivity].
    rewrite (IH (acc ++ items)), (IH items).
    destruct (foldM _ es []) as [rows|err]; simpl; [|reflexivity].
    rewrite app_assoc. reflexivity.
Qed.

Lemma ungroup_cons (e : obj) (es : list obj) :
  ungroup (e :: es) K
  = (items <- ungroup_entry K e ;; rows <- ungroup es K ;; Ok (items ++ rows)).
Proof.
  unfold ungroup at 1. simpl.
  destruct (ungroup_entry K e) as [items|err]; simpl; [|reflexivity].
  apply ungroup_from.
Qed.

(** X4. Ungrouping a concatenation is concatenating the ungroupings;
    an exception of the first part comes first. *)
Theorem ungroup_app (es1 es2 : list obj) :
  ungroup (es1 ++ es2) K
  = (rows1 <- ungroup es1 K ;; rows2 <- ungroup es2 K ;; Ok (rows1 ++ rows2)).
Proof.
  induction es1 as [|e es1 IH]; simpl.
  - change (ungroup [] K) with (@Ok (list obj) []). simpl.
    destruct (ungroup es2 K); reflexivity.
  - rewrite !ungroup_cons, IH.
    destruct (ungroup_entry K e) as [items|err]; simpl; [|reflexivity].
    destruct (ungroup es1 K) as [rows1|err]; simpl; [|reflexivity].
    destruct (ungroup es2 K) as [rows2|err]; simpl; [|reflexivity].
    rewrite app_assoc. reflexivity.
Qed.

Lemma ungroup_entry_rows (e : obj) :
  lookup e "__proto__" = None ->
  ~ In "__proto__" K ->
  aggregated K e <> [] ->
  (forall p, In p (aggregated K e) -> exists l, lookup e p = Some (VArr l)) ->
  exists rows,
    ungroup_entry K e = Ok rows /\
    Forall2 (fun row i => row_of K e i row) rows (seq 0 (entry_bound K e)).
Proof.
  intros Hproto HKp Hne Harr.
  assert (Hget : forall p, In p (aggregated K e) ->
                           obj_get e p = VArr (sequence_of e p)).
  { intros p Hp. destruct (Harr p Hp) as [l Hl].
    unfold sequence_of, obj_get. rewrite Hl. reflexivity. }
  assert (Hagg : includes (aggregated K e) "__proto__" = false).
  { apply includes_false. intros Hin. apply in_aggregated in Hin.
    destruct Hin as [Hl _]. contradiction. }
  unfold ungroup_entry, entry_bound.
  destruct (aggregated K e) as [|p1 L] eqn:HL; [contradiction|].
  rewrite (Hget p1 (or_introl eq_refl)). simpl bind.
  rewrite <- HL in *.
  apply mapM_Forall2. intros i _.
  destruct (ungroup_item_spec K (aggregated K e) e i) as [o [Ho [Hop Hlook]]].
  { intros p Hp. rewrite (Hget p Hp). eauto. }
  exists o. split; [exact Ho|].
  intros p.
  destruct (String.eqb_spec p "__proto__") as [->|Hpp].
  { rewrite Hop, Hagg.
    replace (includes K "__proto__") with false
      by (symmetry; apply includes_false, HKp).
    reflexivity. }
  rewrite (Hlook p Hpp).
  destruct (includes (aggregated K e) p) eqn:Hin; [|reflexivity].
  apply includes_In in Hin. rewrite (Hget p Hin). reflexivity.
Qed.

(** X5. On entries that have every grouping key, no field named
    ["__proto__"], and at least one further field, all further
    fields holding sequences, [ungroup] returns the rows of each
    entry in turn: as many as its first sequence is long, each with
    the entry's grouping-key values and the values at its index,
    [undefined] where a sequence is shorter. *)
Theorem ungroup_rows (es : list obj) :
  (forall e, In e es ->
     (forall k, In k K -> lookup e k <> None) /\
     lookup e "__proto__" = None /\
     aggregated K e <> [] /\
     forall p, In p (aggregated K e) -> exists l, lookup e p = Some (VArr l)) ->
  exists rows,
    ungroup es K = Ok rows /\
    Forall2 (fun row ei => row_of K (fst ei) (snd ei) row) rows
      (flat_map (fun e => map (pair e) (seq 0 (entry_bound K e))) es).
Proof.
  induction es as [|e es IH]; intros H.
  - exists []. split; [reflexivity | constructor].
  - destruct (H e (or_introl eq_refl)) as [Hown [Hproto [Hne Harr]]].
    assert (HKp : ~ In "__proto__" K).
    { intros Hin. apply (Hown _ Hin), Hproto. }
    destruct (ungroup_entry_rows e Hproto HKp Hne Harr) as [items [Hitems HF]].
    destruct IH as [rows [Hrows HF']]; [intros e' He'; apply H; right; exact He'|].
    exists (items ++ rows). rewrite ungroup_cons, Hitems, Hrows. simpl.
    split; [reflexivity|].
    apply Forall2_app; [|exact HF'].
    rewrite <- (map_id items). apply Forall2_maps.
    revert HF. apply Forall2_weaken. auto.
Qed.
End UngroupRows.

(** ** Groups of projected records *)

Lemma filter_map_commute {A B : Type} (f : A -> B) (p : B -> bool) (l : list A) :
  filter p (map f l) = map f (filter (fun a => p (f a)) l).
Proof.
  induction l as [|a l IH]; simpl; [reflexivity|].
  destruct (p (f a)); simpl; rewrite IH; reflexivity.
Qed.

Lemma filterM_pure {A : Type} (p : A -> outcome bool) (q : A -> bool) (l : list A) :
  (forall x, In x l -> p x = Ok (q x)) -> filterM p l = Ok (filter q l).
Proof.
  induction l as [|a l IH]; intros H; simpl; [reflexivity|].
  rewrite (H a (or_introl eq_refl)). simpl.
  rewrite IH by (intros x Hx; apply H; right; exact Hx). simpl.
  destruct (q a); reflexivity.
Qed.

Lemma Forall2_filter {A B : Type} (R : A -> B -> Prop) (p : A -> bool)
    (q : B -> bool) (l1 : list A) (l2 : list B) :
  Forall2 R l1 l2 ->
  (forall a b, R a b -> p a = q b) ->
  Forall2 R (filter p l1) (filter q l2).
Proof.
  intros HF Hpq. induction HF as [|a b l1 l2 Hab HF IH]; simpl; [constructor|].
  rewrite (Hpq a b Hab). destruct (q b); [constructor|]; assumption.
Qed.

Section ProjectedGroups.
Context {rt : Runtime}.
Variables (K allowed : list string).
Hypothesis K_allowed : forall k, In k K -> includes allowed k = true.
Hypothesis K_no_proto : ~ In "__proto__" K.

Lemma obj_get_projected (item : obj) (p : string) :
  includes allowed p = true -> p <> "__proto__" ->
  obj_get (fold_left (fun o key => obj_set key (obj_get item key) o)
             (filter (includes allowed) (obj_keys item)) ([] : obj)) p
  = obj_get item p.
Proof.
  intros Hp Hpp. unfold obj_get at 1.
  rewrite lookup_projected_at, Hp by exact Hpp. reflexivity.
Qed.

Lemma complete_projected (item : obj) :
  complete K (fold_left (fun o key => obj_set key (obj_get item key) o)
                (filter (includes allowed) (obj_keys item)) ([] : obj))
  = complete K item.
Proof.
  unfold complete. revert K_allowed K_no_proto.
  induction K as [|k ks IH]; intros Hall Hnp; simpl; [reflexivity|].
  rewrite IH;
    [|intros k' Hk'; apply Hall; right; exact Hk'
     |intros Hin; apply Hnp; right; exact Hin].
  f_equal. unfold has_own.
  rewrite lookup_projected_at, (Hall k (or_introl eq_refl));
    [reflexivity|].
  intros ->. apply Hnp. left. reflexivity.
Qed.

Lemma composite_key_projected (item : obj) :
  composite_key K (fold_left (fun o key => obj_set key (obj_get item key) o)
                     (filter (includes allowed) (obj_keys item)) ([] : obj))
  = composite_key K item.
Proof.
  unfold composite_key. f_equal. apply map_ext_in. intros k Hk.
  apply obj_get_projected; [apply K_allowed, Hk|].
  intros ->. contradiction.
Qed.

Lemma filter_complete_projected (data : list obj) :
  filter (complete K) (removeExtraProperties data allowed)
  = removeExtraProperties (filter (complete K) data) allowed.
Proof.
  unfold removeExtraProperties. rewrite filter_map_commute. f_equal.
  apply filter_ext. intros r. apply complete_projected.
Qed.

Lemma group_keys_projected (data : list obj) :
  group_keys K (removeExtraProperties data allowed) = group_keys K data.
Proof.
  unfold group_keys. rewrite filter_complete_projected.
  unfold removeExtraProperties. rewrite map_map. f_equal.
  apply map_ext. intros r. apply composite_key_projected.
Qed.

Lemma members_projected (data : list obj) (c : string) :
  members K (removeExtraProperties data allowed) c
  = removeExtraProperties (members K data c) allowed.
Proof.
  unfold members. rewrite filter_complete_projected.
  unfold removeExtraProperties. rewrite filter_map_commute. f_equal.
  apply filter_ext. intros r. rewrite composite_key_projected. reflexivity.
Qed.
End ProjectedGroups.

(** ** The rows [batchPredict] returns *)

Lemma mapM_Forall2_rel {A B C : Type} (f : A -> outcome B) (Q : A -> C -> Prop)
    (Q' : B -> C -> Prop) (l : list A) (ks : list C) :
  Forall2 Q l ks ->
  (forall x k, In k ks -> Q x k -> exists y, f x = Ok y /\ Q' y k) ->
  exists ys, mapM f l = Ok ys /\ Forall2 Q' ys ks.
Proof.
  intros HF Hf. induction HF as [|x k l ks Hxk HF IH]; simpl.
  - exists []. split; [reflexivity | constructor].
  - destruct (Hf x k (or_introl eq_refl) Hxk) as [y [Hy HQ]]. rewrite Hy. simpl.
    destruct IH as [ys [Hys HF']];
      [intros x' k' Hk'; apply Hf; right; exact Hk'|].
    rewrite Hys. simpl. exists (y :: ys). split; [reflexivity|].
    constructor; assumption.
Qed.

Lemma Forall2_seq_nth {A B : Type} (R : B -> nat -> Prop) (P : B -> A -> Prop)
    (d : A) (l : list A) (rows : list B) (s : nat) :
  Forall2 R rows (seq s (List.length l)) ->
  (forall row i, i < List.length l -> R row (s + i) -> P row (nth i l d)) ->
  Forall2 P rows l.
Proof.
  revert rows s. induction l as [|a l IH]; intros rows s HF HP; simpl in HF.
  - inversion HF. constructor.
  - inversion HF as [|row ? rows' ? Hrow HF']; subst. constructor.
    + apply (HP row 0); [simpl; lia|]. rewrite Nat.add_0_r. exact Hrow.
    + apply (IH rows' (S s) HF'). intros row' i Hi HR.
      apply (HP row' (S i)); [simpl; lia|].
      replace (s + S i) with (S s + i) by lia. exact HR.
Qed.

Section BatchRows.
Context {rt : Runtime}.
Variables (K : list string) (xKey yKey : string).
Variables (data : list obj) (newXs : list value).
Hypothesis both_fields :
  forall r, In r data -> complete K r = true ->
    lookup r xKey <> None /\ lookup r yKey <> None.
Hypothesis x_outside : ~ In xKey K.
Hypothesis y_outside : ~ In yKey K.
Hypothesis x_plain : xKey <> "key".
Hypothesis y_plain : yKey <> "key".
Hypothesis K_plain : ~ In "key" K.
Hypothesis x_no_proto : xKey <> "__proto__".
Hypothesis y_no_proto : yKey <> "__proto__".
Hypothesis K_no_proto : ~ In "__proto__" K.
Hypothesis x_no_method : xKey <> "hasOwnProperty".
Hypothesis y_no_method : yKey <> "hasOwnProperty".
Hypothesis K_no_method : ~ In "hasOwnProperty" K.

Lemma K_in_allowed (k : string) :
  In k K -> includes (K ++ [xKey; yKey]) k = true.
Proof. intros Hk. apply includes_allowed. auto. Qed.

Lemma member_of_data (c : string) (m : obj) :
  In m (members K data c) -> In m data /\ complete K m = true.
Proof.
  unfold members. intros H. apply filter_In in H. destruct H as [H _].
  apply filter_In in H. exact H.
Qed.

(** The entries [group] makes of the projected records. *)
Lemma grouped_projection :
  exists entries,
    group (removeExtraProperties data (K ++ [xKey; yKey])) K = Ok entries /\
    Forall2 (projected_entry K xKey yKey data) entries (group_keys K data).
Proof.
  set (allowed := K ++ [xKey; yKey]).
  assert (HKa : forall k, In k K -> includes allowed k = true)
    by exact K_in_allowed.
  assert (Hx_allowed : includes allowed xKey = true)
    by (apply includes_allowed; auto).
  assert (Hy_allowed : includes allowed yKey = true)
    by (apply includes_allowed; auto).
  assert (Hkey_allowed : includes allowed "key" = false).
  { apply includes_false. intros H. apply includes_In, includes_allowed in H.
    destruct H as [H|[H|H]]; [contradiction | congruence | congruence]. }
  assert (Hmethod_allowed : includes allowed "hasOwnProperty" = false).
  { apply includes_false. intros H. apply includes_In, includes_allowed in H.
    destruct H as [H|[H|H]]; [contradiction | congruence | congruence]. }
  assert (Hproj : forall r', In r' (removeExtraProperties data allowed) ->
            complete K r' = true ->
            forall p, includes K p = false ->
              (lookup r' p = None <-> (p <> xKey /\ p <> yKey))).
  { intros r' Hin Hc p HK. unfold removeExtraProperties in Hin.
    apply in_map_iff in Hin. destruct Hin as [r [<- Hr]].
    rewrite (complete_projected K allowed HKa K_no_proto) in Hc.
    destruct (both_fields r Hr Hc) as [Hx Hy].
    destruct (String.eqb_spec p xKey) as [->|Hpx].
    { rewrite lookup_projected_at, Hx_allowed by exact x_no_proto.
      split; [contradiction | tauto]. }
    destruct (String.eqb_spec p yKey) as [->|Hpy].
    { rewrite lookup_projected_at, Hy_allowed by exact y_no_proto.
      split; [contradiction | tauto]. }
    rewrite lookup_projected.
    replace (includes allowed p) with false; [simpl; tauto|].
    symmetry. apply includes_false. intros H.
    apply includes_In, includes_allowed in H. apply includes_false in HK.
    destruct H as [H|[H|H]]; contradiction. }
  destruct (group_columnar_entries (removeExtraProperties data allowed) K)
    as [entries [Hgroup Hcol]].
  - intros r' Hin. unfold removeExtraProperties in Hin.
    apply in_map_iff in Hin. destruct Hin as [r [<- Hr]].
    apply every_unshadowed.
    rewrite lookup_projected, Hmethod_allowed. reflexivity.
  - intros r' Hin _. unfold removeExtraProperties in Hin.
    apply in_map_iff in Hin. destruct Hin as [r [<- Hr]].
    split; [apply NoDup_projected|]. split.
    + rewrite lookup_projected, Hkey_allowed. reflexivity.
    + rewrite lookup_projected, Bool.andb_false_r. reflexivity.
  - intros r1 r2 H1 H2 Hc1 Hc2 _ p HK. apply includes_false in HK.
    rewrite (Hproj r1 H1 Hc1 p HK), (Hproj r2 H2 Hc2 p HK). reflexivity.
  - exists entries. split; [exact Hgroup|].
    rewrite (group_keys_projected K allowed HKa K_no_proto) in Hcol.
    revert Hcol. apply Forall2_weaken. intros e c _ _ He.
    rewrite (members_projected K allowed HKa K_no_proto) in He.
    unfold columnar in He. unfold projected_entry.
    destruct (members K data c) as [|first rest] eqn:Hmem; [contradiction|].
    split; [discriminate|]. simpl in He. intros p. rewrite (He p). simpl hd.
    assert (Hfirst : In first data /\ complete K first = true).
    { apply (member_of_data c). rewrite Hmem. left. reflexivity. }
    destruct Hfirst as [HfR Hfc].
    destruct (both_fields first HfR Hfc) as [Hfx Hfy].
    destruct (String.eqb_spec p "key") as [->|Hpk].
    + replace (includes K "key") with false
        by (symmetry; apply includes_false, K_plain).
      destruct (String.eqb_spec "key" xKey); [congruence|].
      destruct (String.eqb_spec "key" yKey); [congruence|]. reflexivity.
    + destruct (includes K p) eqn:HK.
      * apply includes_In in HK.
        rewrite lookup_projected_at, (HKa p HK); [reflexivity|].
        intros ->. contradiction.
      * assert (Hmap : forall q, includes allowed q = true -> q <> "__proto__" ->
                  map (fun m => obj_get m q)
                    (removeExtraProperties rest allowed)
                  = map (fun m => obj_get m q) rest).
        { intros q Hq Hqp. unfold removeExtraProperties. rewrite map_map.
          apply map_ext. intros m. apply obj_get_projected; assumption. }
        unfold has_own.
        destruct (String.eqb_spec p xKey) as [->|Hpx]; simpl.
        { rewrite lookup_projected_at by exact x_no_proto.
          rewrite Hx_allowed, (Hmap xKey Hx_allowed x_no_proto).
          rewrite (obj_get_projected allowed first xKey Hx_allowed x_no_proto).
          destruct (lookup first xKey); [reflexivity | contradiction]. }
        destruct (String.eqb_spec p yKey) as [->|Hpy]; simpl.
        { rewrite lookup_projected_at by exact y_no_proto.
          rewrite Hy_allowed, (Hmap yKey Hy_allowed y_no_proto).
          rewrite (obj_get_projected allowed first yKey Hy_allowed y_no_proto).
          destruct (lookup first yKey); [reflexivity | contradiction]. }
        rewrite lookup_projected.
        replace (includes allowed p) with false; [reflexivity|].
        symmetry. apply includes_false. intros H.
        apply includes_In, includes_allowed in H. apply includes_false in HK.
        destruct H as [H|[H|H]]; contradiction.
Qed.


Lemma enough_points_projected (e : obj) (c : string) :
  projected_entry K xKey yKey data e c ->
  enough_points xKey e = Ok (1 <? List.length (members K data c))%nat.
Proof.
  intros [_ He]. unfold enough_points, obj_get. rewrite (He xKey).
  replace (includes K xKey) with false
    by (symmetry; apply includes_false, x_outside).
  rewrite String.eqb_refl. simpl. rewrite length_map. reflexivity.
Qed.

Lemma predict_entry_projected (e : obj) (c : string) :
  projected_entry K xKey yKey data e c ->
  2 <= List.length (members K data c) ->
  exists e',
    predict_entry xKey yKey newXs e = Ok e' /\
    predicted_entry K xKey yKey data newXs e' c.
Proof.
  intros [Hne He] Hlen. unfold predict_entry.
  assert (Hx : obj_get e xKey
               = VArr (map (fun m => obj_get m xKey) (members K data c))).
  { unfold obj_get at 1. rewrite (He xKey).
    replace (includes K xKey) with false
      by (symmetry; apply includes_false, x_outside).
    rewrite String.eqb_refl. reflexivity. }
  assert (Hy : obj_get e yKey
               = VArr (map (fun m => obj_get m yKey) (members K data c))).
  { unfold obj_get at 1. rewrite (He yKey).
    replace (includes K yKey) with false
      by (symmetry; apply includes_false, y_outside).
    rewrite String.eqb_refl, Bool.orb_true_r. reflexivity. }
  rewrite Hx, Hy.
  destruct (linearRegressionPredictor_arrays
              (map (fun m => obj_get m xKey) (members K data c))
              (map (fun m => obj_get m yKey) (members K data c)))
    as [f Hf]; [rewrite !length_map; reflexivity
               | rewrite length_map; exact Hlen |].
  rewrite Hf. simpl. eexists. split; [reflexivity|].
  split; [exact Hne|].
  intros p. rewrite !lookup_obj_set by assumption. unfold fitted. rewrite Hf.
  rewrite (String.eqb_sym yKey p), (String.eqb_sym xKey p).
  destruct (String.eqb p yKey) eqn:Hpy; [reflexivity|].
  destruct (String.eqb p xKey) eqn:Hpx; [reflexivity|].
  rewrite (He p), Hpx, Hpy. reflexivity.
Qed.

Lemma predicted_aggregated (e : obj) (c : string) :
  predicted_entry K xKey yKey data newXs e c ->
  forall p, In p (aggregated K e) <-> p = yKey \/ p = xKey.
Proof.
  intros [_ He] p. rewrite in_aggregated, (He p).
  destruct (String.eqb_spec p yKey) as [->|Hpy].
  { split; [auto|]. intros _.
    split; [discriminate | apply includes_false, y_outside]. }
  destruct (String.eqb_spec p xKey) as [->|Hpx].
  { split; [auto|]. intros _.
    split; [discriminate | apply includes_false, x_outside]. }
  destruct (includes K p); split.
  - intros [_ H]. discriminate.
  - intros [H|H]; contradiction.
  - intros [H _]. congruence.
  - intros [H|H]; contradiction.
Qed.

Lemma ungroup_predicted (e : obj) (c : string) :
  predicted_entry K xKey yKey data newXs e c ->
  exists rows,
    ungroup_entry K e = Ok rows /\
    Forall2 (fun row newX => prediction_row K xKey yKey data c newX row)
      rows newXs.
Proof.
  intros Hpred. pose proof (predicted_aggregated e c Hpred) as Hagg.
  destruct Hpred as [Hne He].
  assert (Hy_in : In yKey (aggregated K e)) by (apply Hagg; auto).
  assert (Hseq : forall p, In p (aggregated K e) ->
            sequence_of e p
            = if String.eqb p yKey
              then map (fitted K xKey yKey data c) newXs else newXs).
  { intros p Hp. apply Hagg in Hp. unfold sequence_of, obj_get.
    rewrite (He p). destruct Hp as [->| ->].
    - rewrite String.eqb_refl. reflexivity.
    - destruct (String.eqb xKey yKey); [reflexivity|].
      rewrite String.eqb_refl. reflexivity. }
  assert (Hlen : forall p, In p (aggregated K e) ->
            List.length (sequence_of e p) = List.length newXs).
  { intros p Hp. rewrite (Hseq p Hp).
    destruct (String.eqb p yKey); [apply length_map | reflexivity]. }
  destruct (ungroup_entry_rows K e) as [rows [Hrows HF]].
  - rewrite (He "__proto__").
    destruct (String.eqb_spec "__proto__" yKey); [congruence|].
    destruct (String.eqb_spec "__proto__" xKey); [congruence|].
    replace (includes K "__proto__") with false
      by (symmetry; apply includes_false, K_no_proto).
    reflexivity.
  - exact K_no_proto.
  - intros Hnil. rewrite Hnil in Hy_in. destruct Hy_in.
  - intros p Hp. apply Hagg in Hp. rewrite (He p). destruct Hp as [->| ->].
    + rewrite String.eqb_refl. eauto.
    + destruct (String.eqb xKey yKey); [eauto|].
      rewrite String.eqb_refl. eauto.
  - exists rows. split; [exact Hrows|].
    assert (Hbound : entry_bound K e = List.length newXs).
    { unfold entry_bound. destruct (aggregated K e) as [|p1 L] eqn:HL.
      - destruct Hy_in.
      - apply Hlen. left. reflexivity. }
    rewrite Hbound in HF.
    apply (Forall2_seq_nth _ _ VUndef newXs rows 0 HF).
    intros row i Hi Hrow p. simpl in Hrow. rewrite (Hrow p).
    destruct (includes (aggregated K e) p) eqn:Hin.
    + apply includes_In in Hin. rewrite (Hseq p Hin).
      apply Hagg in Hin.
      destruct (String.eqb_spec p yKey) as [->|Hpy].
      * f_equal.
        rewrite (nth_indep _ VUndef (fitted K xKey yKey data c VUndef))
          by (rewrite length_map; exact Hi).
        apply map_nth.
      * destruct Hin as [->| ->]; [contradiction|].
        rewrite String.eqb_refl. reflexivity.
    + apply includes_false in Hin.
      assert (Hpy : p <> yKey) by (intros ->; apply Hin, Hagg; auto).
      assert (Hpx : p <> xKey) by (intros ->; apply Hin, Hagg; auto).
      apply String.eqb_neq in Hpy, Hpx.
      unfold obj_get. rewrite (He p), Hpy, Hpx.
      destruct (includes K p) eqn:HK; [|reflexivity].
      destruct (members K data c) as [|first rest] eqn:Hmem; [contradiction|].
      simpl hd.
      assert (Hfirst : In first data /\ complete K first = true).
      { apply (member_of_data c). rewrite Hmem. left. reflexivity. }
      destruct Hfirst as [_ Hfc].
      apply includes_In in HK.
      destruct (lookup first p) eqn:Hfp; [reflexivity|].
      exfalso. unfold complete in Hfc. rewrite forallb_forall in Hfc.
      specialize (Hfc p HK). unfold has_own in Hfc. rewrite Hfp in Hfc.
      discriminate.
Qed.

Lemma ungroup_predicted_all (es : list obj) (cs : list string) :
  Forall2 (predicted_entry K xKey yKey data newXs) es cs ->
  exists rows,
    ungroup es K = Ok rows /\
    Forall2 (fun row cx =>
               prediction_row K xKey yKey data (fst cx) (snd cx) row)
      rows (flat_map (fun c => map (pair c) newXs) cs).
Proof.
  induction 1 as [|e c es cs He _ IH].
  - exists []. split; [reflexivity | constructor].
  - destruct (ungroup_predicted e c He) as [items [Hitems HFi]].
    destruct IH as [rows [Hrows HFr]].
    rewrite ungroup_cons, Hitems, Hrows. simpl.
    exists (items ++ rows). split; [reflexivity|].
    apply Forall2_app; [|exact HFr].
    clear - HFi. induction HFi; simpl; constructor; assumption.
Qed.

Lemma batchPredict_rows_spec :
  exists rows,
    batchPredict data K xKey yKey newXs = Ok rows /\
    Forall2 (fun row cx =>
               prediction_row K xKey yKey data (fst cx) (snd cx) row)
      rows (flat_map (fun c => map (pair c) newXs) (fitted_keys K data)).
Proof.
  destruct grouped_projection as [entries [Hgroup Hentries]].
  set (q := fun e => match enough_points xKey e with
                     | Ok b => b
                     | Throw _ => false
                     end).
  assert (Hfilter : filterM (enough_points xKey) entries
                    = Ok (filter q entries)).
  { apply filterM_pure. intros e Hin.
    destruct (Forall2_In_l _ _ _ _ Hentries Hin) as [c [_ Hc]].
    unfold q. rewrite (enough_points_projected e c Hc). reflexivity. }
  assert (Hkept : Forall2 (projected_entry K xKey yKey data)
                    (filter q entries) (fitted_keys K data)).
  { unfold fitted_keys. apply Forall2_filter; [exact Hentries|].
    intros e c Hc. unfold q.
    rewrite (enough_points_projected e c Hc). reflexivity. }
  destruct (mapM_Forall2_rel (predict_entry xKey yKey newXs)
              (projected_entry K xKey yKey data)
              (predicted_entry K xKey yKey data newXs)
              (filter q entries) (fitted_keys K data) Hkept)
    as [predicted [Hmap Hpredicted]].
  { intros e c Hc He. apply predict_entry_projected; [exact He|].
    unfold fitted_keys in Hc. apply filter_In in Hc. destruct Hc as [_ Hc].
    apply Nat.ltb_lt in Hc. lia. }
  destruct (ungroup_predicted_all predicted _ Hpredicted)
    as [rows [Hrows HF]].
  exists rows. split; [|exact HF].
  unfold batchPredict. cbv zeta. rewrite Hgroup. simpl bind.
  rewrite Hfilter. simpl bind. rewrite Hmap. simpl bind. exact Hrows.
Qed.
End BatchRows.

Lemma filter_none {A : Type} (f : A -> bool) (l : list A) :
  (forall x, In x l -> f x = false) -> filter f l = [].
Proof.
  induction l as [|a l IH]; intros H; simpl; [reflexivity|].
  rewrite (H a (or_introl eq_refl)). apply IH. intros x Hx. apply H. right. exact Hx.
Qed.

Lemma filter_NoDup_map {A : Type} (f : A -> string) (l : list A) (c : string) :
  NoDup (map f l) ->
  List.length (filter (fun r => String.eqb (f r) c) l) <= 1.
Proof.
  induction l as [|a l IH]; simpl; intros Hnd; [lia|].
  inversion Hnd as [|? ? Hnotin Hnd']; subst.
  destruct (String.eqb_spec (f a) c) as [Heq|Hne]; [|apply IH, Hnd'].
  rewrite filter_none; [simpl; lia|].
  intros x Hx. apply String.eqb_neq. intros Hfx. apply Hnotin.
  rewrite Heq, <- Hfx. apply in_map, Hx.
Qed.

Section BatchTheorems.
Context {rt : Runtime}.

(** X6. [removeExtraProperties] returns one object per input object,
    in order; each has the allowed fields of its original with their
    values, except one named ["__proto__"], which the assignment
    does not create; it has no other field, and no field name
    twice. *)
Theorem removeExtraProperties_fields (data : list obj) (allowed : list string) :
  Forall2
    (fun item filtered =>
       well_formed filtered /\
       forall p,
         lookup filtered p =
         if includes allowed p && negb (String.eqb p "__proto__")
         then lookup item p else None)
    data (removeExtraProperties data allowed).
Proof.
  unfold removeExtraProperties.
  induction data as [|item data IH]; simpl; constructor; [|exact IH].
  split; [apply NoDup_projected|]. intros p. apply lookup_projected.
Qed.

(** X7. Let every record that has all the grouping keys also have
    the independent and the dependent field, neither of them a
    grouping key, and let none of the names involved be ["key"],
    ["__proto__"] or ["hasOwnProperty"].  Then [batchPredict]
    returns: for each composite key with at least two records, in
    order of first occurrence, and for each new x in order, one
    record with the grouping-key values of the first record of the
    group, the new x, and the value at it of the predictor fitted to
    the group. *)
Theorem batchPredict_rows (data : list obj) (K : list string)
    (xKey yKey : string) (newXs : list value) :
  (forall r, In r data -> complete K r = true ->
     lookup r xKey <> None /\ lookup r yKey <> None) ->
  ~ In xKey K -> ~ In yKey K ->
  ordinary xKey -> ordinary yKey -> (forall k, In k K -> ordinary k) ->
  exists rows,
    batchPredict data K xKey yKey newXs = Ok rows /\
    Forall2 (fun row cx =>
               prediction_row K xKey yKey data (fst cx) (snd cx) row)
      rows (flat_map (fun c => map (pair c) newXs) (fitted_keys K data)).
Proof.
  intros Hxy HxK HyK [Hx1 [Hx2 Hx3]] [Hy1 [Hy2 Hy3]] HK.
  apply batchPredict_rows_spec; try assumption;
    intros Hin; apply HK in Hin; destruct Hin as [H1 [H2 H3]]; congruence.
Qed.

(** X8. Let every record that has all the grouping keys also have
    the independent and the dependent field, neither of them a
    grouping key, and let none of the names involved be ["key"],
    ["__proto__"] or ["hasOwnProperty"].  When no two records that
    have all the grouping keys share a composite key, every group is
    filtered out before the fit and [batchPredict] returns the empty
    array. *)
Theorem batchPredict_single_records (data : list obj) (K : list string)
    (xKey yKey : string) (newXs : list value) :
  (forall r, In r data -> complete K r = true ->
     lookup r xKey <> None /\ lookup r yKey <> None) ->
  ~ In xKey K -> ~ In yKey K ->
  ordinary xKey -> ordinary yKey -> (forall k, In k K -> ordinary k) ->
  NoDup (map (composite_key K) (filter (complete K) data)) ->
  batchPredict data K xKey yKey newXs = Ok [].
Proof.
  intros Hxy HxK HyK [Hx1 [Hx2 Hx3]] [Hy1 [Hy2 Hy3]] HK Hnd.
  destruct (batchPredict_rows_spec K xKey yKey data newXs)
    as [rows [Hrows HF]]; try assumption;
    try (intros Hin; apply HK in Hin; destruct Hin as [H1 [H2 H3]]; congruence).
  rewrite Hrows. f_equal.
  unfold fitted_keys in HF. rewrite filter_none in HF.
  - inversion HF. reflexivity.
  - intros c _. apply Nat.ltb_ge. unfold members.
    apply (filter_NoDup_map (composite_key K)), Hnd.
Qed.

(** X9. Whatever its arguments, [batchPredict] never throws the
    insufficient-data error of the Regressor: the groups of one
    record are filtered out before the fit. *)
Theorem batchPredict_never_InsufficientData (data : list obj)
    (K : list string) (xKey yKey : string) (newXs : list value) :
  batchPredict data K xKey yKey newXs <> Throw InsufficientData.
Proof. apply batchPredict_not_InsufficientData. Qed.
End BatchTheorems.

(** ** Projecting twice *)

Section ArrayIndex.
Local Open Scope N_scope.

Lemma digit_of_inj (c1 c2 : ascii) (d : N) :
  digit_of c1 = Some d -> digit_of c2 = Some d -> c1 = c2.
Proof.
  unfold digit_of. cbv zeta.
  destruct ((48 <=? N_of_ascii c1) && (N_of_ascii c1 <=? 57))%bool eqn:H1;
    [|discriminate].
  destruct ((48 <=? N_of_ascii c2) && (N_of_ascii c2 <=? 57))%bool eqn:H2;
    [|discriminate].
  intros [= E1] [= E2].
  apply andb_prop in H1, H2. destruct H1 as [H1 _]. destruct H2 as [H2 _].
  apply N.leb_le in H1, H2.
  assert (E : N_of_ascii c1 = N_of_ascii c2) by lia.
  rewrite <- (ascii_N_embedding c1), <- (ascii_N_embedding c2), E. reflexivity.
Qed.

Lemma digit_of_le (c : ascii) (d : N) : digit_of c = Some d -> d <= 9.
Proof.
  unfold digit_of. cbv zeta.
  destruct ((48 <=? N_of_ascii c) && (N_of_ascii c <=? 57))%bool eqn:H;
    [|discriminate].
  intros [= E]. apply andb_prop in H. destruct H as [_ H].
  apply N.leb_le in H. lia.
Qed.

Lemma digits_value_bound (s : string) (acc n : N) :
  digits_value s acc = Some n ->
  exists v, v < 10 ^ N.of_nat (String.length s) /\
            n = acc * 10 ^ N.of_nat (String.length s) + v.
Proof.
  revert acc. induction s as [|c s IH]; intros acc; simpl String.length.
  - intros [= <-]. exists 0. simpl. lia.
  - cbn [digits_value]. destruct (digit_of c) as [d|] eqn:Hd; [|discriminate].
    intros H. destruct (IH _ H) as [v [Hv Hn]].
    apply digit_of_le in Hd.
    rewrite Nat2N.inj_succ, N.pow_succ_r'.
    set (P := 10 ^ N.of_nat (String.length s)) in *.
    exists (d * P + v). split; nia.
Qed.

Lemma digits_value_inj (s1 s2 : string) (a1 a2 n : N) :
  String.length s1 = String.length s2 ->
  digits_value s1 a1 = Some n -> digits_value s2 a2 = Some n ->
  a1 = a2 /\ s1 = s2.
Proof.
  revert s2 a1 a2. induction s1 as [|c1 s1 IH]; intros [|c2 s2] a1 a2;
    simpl String.length; try discriminate.
  - intros _ [= <-] [= <-]. split; reflexivity.
  - intros [= Hlen]. cbn [digits_value].
    destruct (digit_of c1) as [d1|] eqn:Hd1; [|discriminate].
    destruct (digit_of c2) as [d2|] eqn:Hd2; [|discriminate].
    intros H1 H2. destruct (IH s2 _ _ Hlen H1 H2) as [Ha ->].
    pose proof (digit_of_le _ _ Hd1). pose proof (digit_of_le _ _ Hd2).
    assert (d1 = d2) by lia. subst d2.
    split; [lia|]. f_equal. exact (digit_of_inj _ _ _ Hd1 Hd2).
Qed.

(** An array index is the string [0], or a string of digits of which
    the first is not zero. *)
Lemma array_index_shape (s : string) (n : N) :
  array_index s = Some n ->
  digits_value s 0 = Some n /\
  ((s = "0"%string /\ n = 0) \/
   (10 ^ N.of_nat (Nat.pred (String.length s)) <= n /\
    n < 10 ^ N.of_nat (String.length s) /\ 1 <= n)).
Proof.
  destruct s as [|c s]; [discriminate|].
  unfold array_index.
  destruct (Ascii.eqb c "0" && negb (String.eqb s EmptyString))%bool eqn:Hlead;
    [discriminate|].
  destruct (digits_value (String c s) 0) as [m|] eqn:Hm; [|discriminate].
  destruct (m <=? 4294967294); [|discriminate].
  intros [= <-]. split; [reflexivity|].
  destruct (digits_value_bound _ _ _ Hm) as [v [Hv Hn]].
  cbn [digits_value] in Hm.
  destruct (digit_of c) as [d|] eqn:Hd; [|discriminate].
  destruct (digits_value_bound _ _ _ Hm) as [v' [Hv' Hn']].
  simpl String.length in *. simpl Nat.pred.
  destruct (N.eq_dec d 0) as [->|Hd0].
  - left.
    assert (Hc : c = "0"%char) by (apply (digit_of_inj _ _ 0 Hd); reflexivity).
    subst c. simpl in Hlead.
    destruct s; [|discriminate]. simpl in Hm. injection Hm as <-.
    split; reflexivity.
  - right.
    assert (Hpos : 10 ^ N.of_nat (String.length s) <> 0)
      by (apply N.pow_nonzero; lia).
    set (P := 10 ^ N.of_nat (String.length s)) in *.
    assert (Hle : 1 * P <= d * P) by (apply N.mul_le_mono_r; lia).
    split; [lia|]. split; [lia|]. lia.
Qed.

Lemma array_index_inj (s1 s2 : string) (n : N) :
  array_index s1 = Some n -> array_index s2 = Some n -> s1 = s2.
Proof.
  intros H1 H2.
  destruct (array_index_shape _ _ H1) as [Hv1 [[-> Hn1]|[Hlo1 [Hhi1 Hp1]]]];
    destruct (array_index_shape _ _ H2) as [Hv2 [[-> Hn2]|[Hlo2 [Hhi2 Hp2]]]];
    try reflexivity; try lia.
  assert (Hlen : String.length s1 = String.length s2).
  { destruct (Nat.lt_trichotomy (String.length s1) (String.length s2))
      as [Hlt|[Heq|Hgt]]; [|exact Heq|]; exfalso.
    - assert (10 ^ N.of_nat (String.length s1)
              <= 10 ^ N.of_nat (Nat.pred (String.length s2)))
        by (apply N.pow_le_mono_r; lia).
      lia.
    - assert (10 ^ N.of_nat (String.length s2)
              <= 10 ^ N.of_nat (Nat.pred (String.length s1)))
        by (apply N.pow_le_mono_r; lia).
      lia. }
  apply (digits_value_inj s1 s2 0 0 n Hlen Hv1 Hv2).
Qed.
End ArrayIndex.

Section KeyOrder.
Context {V : Type}.
Implicit Types (o : @props V) (k : string) (v : V).

Lemma keys_in_order_app_l (l1 l2 : list string) :
  keys_in_order (l1 ++ l2) = true -> keys_in_order l1 = true.
Proof.
  induction l1 as [|a l1 IH]; simpl; [reflexivity|].
  rewrite forallb_app. intros H.
  apply andb_prop in H. destruct H as [Hf Hord].
  apply andb_prop in Hf. destruct Hf as [Hf _].
  rewrite Hf, (IH Hord). reflexivity.
Qed.

Lemma keys_in_order_snoc_name (l : list string) k :
  array_index k = None ->
  keys_in_order l = true -> keys_in_order (l ++ [k]) = true.
Proof.
  intros Hk. induction l as [|a l IH]; simpl; [reflexivity|].
  intros H. apply andb_prop in H. destruct H as [Hf Hord].
  rewrite forallb_app, Hf, (IH Hord). simpl.
  unfold may_follow. rewrite Hk. destruct (array_index a); reflexivity.
Qed.

Lemma insert_index_at_end o (i : N) k v :
  array_index k = Some i ->
  keys_in_order (obj_keys o ++ [k]) = true ->
  obj_insert_index i k v o = o ++ [(k, v)].
Proof.
  intros Hi. induction o as [|[k0 v0] o IH]; simpl; [reflexivity|].
  intros H. apply andb_prop in H. destruct H as [Hf Hord].
  rewrite forallb_app in Hf. apply andb_prop in Hf. destruct Hf as [_ Hk].
  simpl in Hk. unfold may_follow in Hk. rewrite Hi in Hk.
  destruct (array_index k0) as [j|]; [|discriminate].
  rewrite Bool.andb_true_r in Hk. rewrite Hk. f_equal. apply IH, Hord.
Qed.

Lemma keys_in_order_insert_index o (i : N) k v :
  array_index k = Some i -> ~ In k (obj_keys o) ->
  keys_in_order (obj_keys o) = true ->
  keys_in_order (obj_keys (obj_insert_index i k v o)) = true.
Proof.
  intros Hi. induction o as [|[k0 v0] o IH]; simpl; [reflexivity|].
  intros Hk H. apply andb_prop in H. destruct H as [Hf Hord].
  rewrite forallb_forall in Hf.
  destruct (array_index k0) as [j|] eqn:Hj.
  - destruct (j <? i)%N eqn:Hji; simpl.
    + rewrite IH by tauto. rewrite Bool.andb_true_r.
      apply forallb_forall. intros x Hx.
      apply in_keys_insert_index in Hx. destruct Hx as [->|Hx]; [|apply Hf, Hx].
      unfold may_follow. rewrite Hj, Hi. exact Hji.
    + apply N.ltb_ge in Hji.
      assert (Hne : i <> j).
      { intros ->. apply Hk. left. apply (array_index_inj _ _ j Hj Hi). }
      apply andb_true_intro. split; [apply andb_true_intro; split|].
      * unfold may_follow. rewrite Hi, Hj. apply N.ltb_lt. lia.
      * apply forallb_forall. intros x Hx. specialize (Hf x Hx).
        unfold may_follow in *. rewrite Hj in Hf. rewrite Hi.
        destruct (array_index x) as [m|]; [|reflexivity].
        apply N.ltb_lt in Hf. apply N.ltb_lt. lia.
      * apply andb_true_intro. split; [|exact Hord].
        apply forallb_forall. exact Hf.
  - simpl. apply andb_true_intro. split; [apply andb_true_intro; split|].
    + unfold may_follow. rewrite Hi, Hj. reflexivity.
    + apply forallb_forall. intros x Hx. specialize (Hf x Hx).
      unfold may_follow in *. rewrite Hj in Hf. rewrite Hi.
      destruct (array_index x) as [m|]; [discriminate | reflexivity].
    + apply andb_true_intro. split; [|exact Hord].
      apply forallb_forall. exact Hf.
Qed.

(** An assignment keeps the names in order. *)
Lemma keys_in_order_obj_set o k v :
  keys_in_order (obj_keys o) = true ->
  keys_in_order (obj_keys (obj_set k v o)) = true.
Proof.
  intros Hord. unfold obj_set.
  destruct (has_own o k) eqn:Hown.
  - rewrite obj_keys_replace. exact Hord.
  - assert (Hk : ~ In k (obj_keys o)).
    { rewrite <- lookup_in_keys. unfold has_own in Hown.
      destruct (lookup o k); [discriminate | congruence]. }
    destruct (String.eqb k "__proto__"); [exact Hord|].
    destruct (array_index k) as [i|] eqn:Hi.
    + apply keys_in_order_insert_index; assumption.
    + unfold obj_keys. rewrite map_app. simpl.
      apply keys_in_order_snoc_name; assumption.
Qed.

Lemma keys_in_order_fold (f : string -> V) (ks : list string) o :
  keys_in_order (obj_keys o) = true ->
  keys_in_order
    (obj_keys (fold_left (fun o k => obj_set k (f k) o) ks o)) = true.
Proof.
  revert o. induction ks as [|k ks IH]; intros o H; simpl; [exact H|].
  apply IH, keys_in_order_obj_set, H.
Qed.

(** Assigning the properties of an object one by one, in its own
    order, to an empty object rebuilds it. *)
Lemma rebuild_from o (f : string -> V) :
  NoDup (obj_keys o) ->
  keys_in_order (obj_keys o) = true ->
  lookup o "__proto__" = None ->
  (forall k v, lookup o k = Some v -> f k = v) ->
  forall o2 o1, o = o1 ++ o2 ->
    fold_left (fun acc k => obj_set k (f k) acc) (obj_keys o2) o1 = o.
Proof.
  intros Hnd Hord Hproto Hf.
  induction o2 as [|[k v] o2 IH]; intros o1 Ho; simpl.
  - rewrite app_nil_r in Ho. congruence.
  - assert (Hkeys : obj_keys o = (obj_keys o1 ++ [k]) ++ obj_keys o2).
    { rewrite Ho. unfold obj_keys. rewrite map_app, <- app_assoc. reflexivity. }
    assert (Hk : ~ In k (obj_keys o1)).
    { rewrite Hkeys, <- app_assoc in Hnd. simpl in Hnd.
      apply NoDup_remove_2 in Hnd. intros Hin. apply Hnd, in_or_app.
      left. exact Hin. }
    assert (Hnone : lookup o1 k = None).
    { destruct (lookup o1 k) eqn:Hl; [|reflexivity].
      exfalso. apply Hk, lookup_in_keys. congruence. }
    assert (Hlk : lookup o k = Some v).
    { rewrite Ho, lookup_app, Hnone. simpl.
      rewrite String.eqb_refl. reflexivity. }
    assert (Hv : f k = v) by (apply Hf, Hlk).
    assert (Hkp : String.eqb k "__proto__" = false).
    { apply String.eqb_neq. intros ->. congruence. }
    assert (Hset : obj_set k (f k) o1 = o1 ++ [(k, v)]).
    { rewrite Hv. unfold obj_set, has_own. rewrite Hnone, Hkp.
      destruct (array_index k) as [i|] eqn:Hi; [|reflexivity].
      apply insert_index_at_end; [exact Hi|].
      apply (keys_in_order_app_l _ (obj_keys o2)).
      rewrite <- Hkeys. exact Hord. }
    rewrite Hset. apply IH. rewrite <- app_assoc. exact Ho.
Qed.
End KeyOrder.

Lemma filter_all {A : Type} (f : A -> bool) (l : list A) :
  (forall x, In x l -> f x = true) -> filter f l = l.
Proof.
  induction l as [|a l IH]; intros H; simpl; [reflexivity|].
  rewrite (H a (or_introl eq_refl)). f_equal. apply IH.
  intros x Hx. apply H. right. exact Hx.
Qed.

(** X14. [removeExtraProperties] is idempotent: filtering its result
    by the same allowed names returns the same objects, with the same
    fields in the same order. *)
Theorem removeExtraProperties_idempotent (data : list obj) (allowed : list string) :
  removeExtraProperties (removeExtraProperties data allowed) allowed
  = removeExtraProperties data allowed.
Proof.
  unfold removeExtraProperties. rewrite map_map. apply map_ext. intros item.
  set (o := fold_left (fun o key => obj_set key (obj_get item key) o)
              (filter (includes allowed) (obj_keys item)) ([] : obj)).
  rewrite filter_all.
  - apply (rebuild_from o (fun key => obj_get o key)) with (o1 := []).
    + apply NoDup_projected.
    + apply (keys_in_order_fold (fun key => obj_get item key)). reflexivity.
    + unfold o. rewrite lookup_projected, Bool.andb_false_r. reflexivity.
    + intros k v Hl. unfold obj_get. rewrite Hl. reflexivity.
    + reflexivity.
  - intros k Hk. apply lookup_in_keys in Hk. unfold o in Hk.
    apply lookup_projected_Some in Hk. tauto.
Qed.

(** ** The variant of [src/unnamed/part_000] keeps the independent sequence *)

Lemma zip_with_index_columns (gx gy : obj -> value) (ms pre : list obj) :
  zip_with_index (VArr (map gy (pre ++ ms))) (map gx ms) (List.length pre)
  = Ok (map (fun m => VArr [gx m; gy m]) ms).
Proof.
  revert pre. induction ms as [|m ms IH]; intros pre; [reflexivity|].
  cbn [map zip_with_index js_index].
  assert (Hnth : nth (List.length pre) (map gy (pre ++ m :: ms)) VUndef = gy m).
  { rewrite map_app, app_nth2 by (rewrite length_map; lia).
    rewrite length_map, Nat.sub_diag. reflexivity. }
  rewrite Hnth. cbn [bind].
  specialize (IH (pre ++ [m])).
  rewrite <- app_assoc, length_app in IH. simpl in IH.
  rewrite Nat.add_1_r in IH. rewrite IH. reflexivity.
Qed.

Section DelegatingRows.
Context {rt : Runtime}.
Variable fit : list value -> value -> value.

(** X15. Let every record that has all the grouping keys also have
    the independent and the dependent field, neither of them a
    grouping key, and let none of the names involved be ["key"],
    ["__proto__"] or ["hasOwnProperty"].  Then the variant of
    [batchPredict] in [src/unnamed/part_000] returns what [ungroup]
    makes of one entry per composite key with at least two records:
    the predictions for the new xs stand under the dependent field,
    and the independent field still holds the xs of the group's
    records, whatever the delegated fit computes. *)
Theorem batchPredict_delegating_keeps_xs (data : list obj) (K : list string)
    (xKey yKey : string) (newXs : list value) :
  (forall r, In r data -> complete K r = true ->
     lookup r xKey <> None /\ lookup r yKey <> None) ->
  ~ In xKey K -> ~ In yKey K ->
  ordinary xKey -> ordinary yKey -> (forall k, In k K -> ordinary k) ->
  exists entries,
    Forall2 (delegated_entry fit K xKey yKey data newXs)
      entries (fitted_keys K data) /\
    batchPredict_delegating fit data K xKey yKey newXs = ungroup entries K.
Proof.
  intros Hxy HxK HyK [Hx [Hxp Hxm]] [Hy [Hyp Hym]] HKo.
  assert (HK : ~ In "key" K)
    by (intros Hin; apply HKo in Hin; destruct Hin as [H1 _]; congruence).
  assert (HKp : ~ In "__proto__" K)
    by (intros Hin; apply HKo in Hin; destruct Hin as [_ [H2 _]]; congruence).
  assert (HKm : ~ In "hasOwnProperty" K)
    by (intros Hin; apply HKo in Hin; destruct Hin as [_ [_ H3]]; congruence).
  assert (Hgp : exists grouped,
            group (removeExtraProperties data (K ++ [xKey; yKey])) K = Ok grouped /\
            Forall2 (projected_entry K xKey yKey data) grouped (group_keys K data))
    by (apply grouped_projection; assumption).
  destruct Hgp as [grouped [Hgroup Hentries]].
  assert (Hep : forall e c, projected_entry K xKey yKey data e c ->
            enough_points xKey e = Ok (1 <? List.length (members K data c))%nat)
    by (intros e c Hc; apply (enough_points_projected K xKey yKey data); assumption).
  set (q := fun e => match enough_points xKey e with
                     | Ok b => b
                     | Throw _ => false
                     end).
  assert (Hfilter : filterM (enough_points xKey) grouped
                    = Ok (filter q grouped)).
  { apply filterM_pure. intros e Hin.
    destruct (Forall2_In_l _ _ _ _ Hentries Hin) as [c [_ Hc]].
    unfold q. rewrite (Hep e c Hc).
    reflexivity. }
  assert (Hkept : Forall2 (projected_entry K xKey yKey data)
                    (filter q grouped) (fitted_keys K data)).
  { unfold fitted_keys. apply Forall2_filter; [exact Hentries|].
    intros e c Hc. unfold q.
    rewrite (Hep e c Hc).
    reflexivity. }
  destruct (mapM_Forall2_rel (predict_entry_delegating fit xKey yKey newXs)
              (projected_entry K xKey yKey data)
              (delegated_entry fit K xKey yKey data newXs)
              (filter q grouped) (fitted_keys K data) Hkept)
    as [predicted [Hmap Hpredicted]].
  { intros e c _ [Hne He]. unfold predict_entry_delegating.
    assert (Hex : obj_get e xKey
                  = VArr (map (fun m => obj_get m xKey) (members K data c))).
    { unfold obj_get at 1. rewrite (He xKey).
      replace (includes K xKey) with false
        by (symmetry; apply includes_false, HxK).
      rewrite String.eqb_refl. reflexivity. }
    assert (Hey : obj_get e yKey
                  = VArr (map (fun m => obj_get m yKey) (members K data c))).
    { unfold obj_get at 1. rewrite (He yKey).
      replace (includes K yKey) with false
        by (symmetry; apply includes_false, HyK).
      rewrite String.eqb_refl, Bool.orb_true_r. reflexivity. }
    rewrite Hex, Hey. simpl as_array. simpl bind.
    pose proof (zip_with_index_columns (fun m => obj_get m xKey)
                  (fun m => obj_get m yKey) (members K data c) []) as Hzip.
    simpl in Hzip. rewrite Hzip.
    simpl bind. eexists. split; [reflexivity|].
    split; [exact Hne|]. intros p.
    rewrite lookup_obj_set by exact Hyp. rewrite (He p).
    rewrite (String.eqb_sym yKey p).
    destruct (String.eqb p yKey); [reflexivity|].
    rewrite Bool.orb_false_r.
    destruct (includes K p); [reflexivity|].
    destruct (String.eqb_spec p xKey) as [->|_]; reflexivity. }
  exists predicted. split; [exact Hpredicted|].
  unfold batchPredict_delegating. cbv zeta. rewrite Hgroup. simpl bind.
  rewrite Hfilter. simpl bind. rewrite Hmap. reflexivity.
Qed.
End DelegatingRows.
(** ** The frame property of [batchPredict] *)

Module StoreFacts.
Import Store.

Lemma firstn_app_le {A : Type} (n : nat) (l l' : list A) :
  n <= List.length l -> firstn n (l ++ l') = firstn n l.
Proof.
  intros H. rewrite firstn_app.
  replace (n - List.length l) with 0 by lia.
  simpl. apply app_nil_r.
Qed.

Lemma firstn_set_nth {A : Type} (n a : nat) (x : A) (l : list A) :
  n <= a -> firstn n (set_nth a x l) = firstn n l.
Proof.
  revert n a. induction l as [|y l IH]; intros n a H; simpl.
  - reflexivity.
  - destruct a as [|a].
    + replace n with 0 by lia. reflexivity.
    + destruct n as [|n]; [reflexivity|]. simpl. f_equal. apply IH. lia.
Qed.

Lemma firstn_length_le {A : Type} (l0 l : list A) :
  firstn (List.length l0) l = l0 -> List.length l0 <= List.length l.
Proof.
  intros H. apply (f_equal (@List.length A)) in H.
  rewrite length_firstn in H. lia.
Qed.

Lemma nth_set_nth {A : Type} (a e : nat) (x d : A) (l : list A) :
  nth e (set_nth a x l) d = nth e l d \/ nth e (set_nth a x l) d = x.
Proof.
  revert a e. induction l as [|y l IH]; intros a e; simpl.
  - left. reflexivity.
  - destruct a as [|a]; destruct e as [|e]; simpl; auto.
Qed.

Lemma nth_app_default {A : Type} (e : nat) (l : list A) (d : A) :
  nth e (l ++ [d]) d = nth e l d.
Proof.
  destruct (Nat.lt_ge_cases e (List.length l)) as [H|H].
  - apply app_nth1, H.
  - rewrite (nth_overflow l d H).
    destruct (Nat.eq_dec e (List.length l)) as [->|Hne].
    + rewrite nth_middle. reflexivity.
    + apply nth_overflow. rewrite length_app. simpl. lia.
Qed.

Lemma extends_refl (s : store) : extends s s.
Proof. split; apply firstn_all. Qed.

(** *** Computations that only read *)

Lemma reads_ret {A : Type} (a : A) : reads (ret a).
Proof. intros s. reflexivity. Qed.

Lemma reads_throw {A : Type} (e : error) : reads (@throw A e).
Proof. intros s. reflexivity. Qed.

Lemma reads_bind {A B : Type} (m : M A) (f : A -> M B) :
  reads m -> (forall a, reads (f a)) -> reads (bind m f).
Proof.
  intros Hm Hf s. unfold final, bind.
  specialize (Hm s). unfold final in Hm.
  destruct (m s) as [s' [a|e]]; simpl in *; subst.
  - apply Hf.
  - reflexivity.
Qed.

Lemma reads_read_obj (a : nat) : reads (read_obj a).
Proof. intros s. reflexivity. Qed.

Lemma reads_read_arr (b : nat) : reads (read_arr b).
Proof. intros s. reflexivity. Qed.

Lemma reads_read_value (v : hval) : reads (read_value v).
Proof. intros s. reflexivity. Qed.

Lemma reads_get_prop (a : nat) (key : string) : reads (get_prop a key).
Proof. apply reads_bind; [apply reads_read_obj | intros; apply reads_ret]. Qed.

Lemma reads_call_hasOwnProperty (a : nat) (key : string) :
  reads (call_hasOwnProperty a key).
Proof.
  apply reads_bind; [apply reads_read_obj|].
  intros o. destruct (has_own o "hasOwnProperty");
    [apply reads_throw | apply reads_ret].
Qed.

Lemma reads_keys (a : nat) : reads (keys a).
Proof. apply reads_bind; [apply reads_read_obj | intros; apply reads_ret]. Qed.

Lemma reads_length_of (v : hval) : reads (length_of v).
Proof.
  destruct v; simpl;
    [apply reads_throw | apply reads_ret | apply reads_ret |].
  apply reads_bind; [apply reads_read_arr | intros; apply reads_ret].
Qed.

Lemma reads_index_of (v : hval) (i : nat) : reads (index_of v i).
Proof.
  destruct v; simpl;
    [apply reads_throw | apply reads_ret | apply reads_ret |].
  apply reads_bind; [apply reads_read_arr | intros; apply reads_ret].
Qed.

Lemma reads_elements (v : hval) : reads (elements v).
Proof.
  destruct v; simpl; try apply reads_throw. apply reads_read_arr.
Qed.

Lemma reads_mapM {A B : Type} (f : A -> M B) (l : list A) :
  (forall x, reads (f x)) -> reads (mapM f l).
Proof.
  intros Hf. induction l as [|x l IH]; simpl; [apply reads_ret|].
  apply reads_bind; [apply Hf|]. intros y.
  apply reads_bind; [exact IH|]. intros ys. apply reads_ret.
Qed.

Lemma reads_filterM {A : Type} (p : A -> M bool) (l : list A) :
  (forall x, reads (p x)) -> reads (filterM p l).
Proof.
  intros Hp. induction l as [|x l IH]; simpl; [apply reads_ret|].
  apply reads_bind; [apply Hp|]. intros b.
  apply reads_bind; [exact IH|]. intros xs. apply reads_ret.
Qed.

Lemma reads_every {A : Type} (p : A -> M bool) (l : list A) :
  (forall x, reads (p x)) -> reads (every p l).
Proof.
  intros Hp. induction l as [|x l IH]; simpl; [apply reads_ret|].
  apply reads_bind; [apply Hp|]. intros [|]; [exact IH | apply reads_ret].
Qed.

Lemma reads_find {A : Type} (p : A -> M bool) (l : list A) :
  (forall x, reads (p x)) -> reads (find p l).
Proof.
  intros Hp. induction l as [|x l IH]; simpl; [apply reads_ret|].
  apply reads_bind; [apply Hp|]. intros [|]; [apply reads_ret | exact IH].
Qed.

Lemma find_In {A : Type} (p : A -> M bool) (l : list A) (s : store) (x : A) :
  run (find p l) s = Ok (Some x) -> In x l.
Proof.
  unfold run. revert s. induction l as [|y l IH]; intros s; simpl.
  - discriminate.
  - unfold bind. destruct (p y s) as [s' [[|]|e]]; simpl.
    + intros [= <-]. left. reflexivity.
    + intros H. right. eapply IH, H.
    + discriminate.
Qed.

Lemma filterM_incl {A : Type} (p : A -> M bool) (l l' : list A) (s : store) :
  run (filterM p l) s = Ok l' -> incl l' l.
Proof.
  unfold run. revert s l'. induction l as [|y l IH]; intros s l'; simpl.
  - intros [= <-]. apply incl_refl.
  - unfold bind. destruct (p y s) as [s' [b|e]]; simpl; [|discriminate].
    destruct (filterM p l s') as [s'' [xs|e]] eqn:Hf; simpl; [|discriminate].
    intros [= <-].
    assert (Hincl : incl xs l) by (apply (IH s'); rewrite Hf; reflexivity).
    destruct b.
    + apply incl_cons; [left; reflexivity | apply incl_tl, Hincl].
    + apply incl_tl, Hincl.
Qed.


(** *** The program logic *)

Section Safe.
Variable s0 : store.

Lemma safe_ret {A : Type} (a : A) (Q : A -> store -> Prop) (s : store) :
  Q a s -> safe s0 (ret a) Q s.
Proof.
  intros HQ Hext. split; [exact Hext|].
  intros a' [= <-]. exact HQ.
Qed.

Lemma safe_throw {A : Type} (e : error) (Q : A -> store -> Prop) (s : store) :
  safe s0 (throw e) Q s.
Proof.
  intros Hext. split; [exact Hext|]. intros a. discriminate.
Qed.

Lemma safe_bind {A B : Type} (m : M A) (f : A -> M B)
    (I : A -> store -> Prop) (Q : B -> store -> Prop) (s : store) :
  safe s0 m I s ->
  (forall a s', I a s' -> safe s0 (f a) Q s') ->
  safe s0 (bind m f) Q s.
Proof.
  intros Hm Hf Hext. destruct (Hm Hext) as [Hext' HI].
  unfold final, run, bind in *.
  destruct (m s) as [s' [a|e]]; simpl in *.
  - apply (Hf a s' (HI a eq_refl) Hext').
  - split; [exact Hext' | discriminate].
Qed.

Lemma safe_mono {A : Type} (m : M A) (Q Q' : A -> store -> Prop) (s : store) :
  safe s0 m Q s ->
  (forall a s', Q a s' -> Q' a s') ->
  safe s0 m Q' s.
Proof.
  intros Hm HQ Hext. destruct (Hm Hext) as [Hext' H].
  split; [exact Hext'|]. intros a Ha. apply HQ, H, Ha.
Qed.

Lemma safe_reads_bind {A B : Type} (m : M A) (f : A -> M B)
    (Q : B -> store -> Prop) (s : store) :
  reads m ->
  (forall a, run m s = Ok a -> safe s0 (f a) Q s) ->
  safe s0 (bind m f) Q s.
Proof.
  intros Hm Hf Hext. specialize (Hm s).
  unfold final, run, bind in *.
  destruct (m s) as [s' [a|e]]; simpl in *; subst.
  - apply (Hf a eq_refl Hext).
  - split; [exact Hext | discriminate].
Qed.

Lemma safe_reads {A : Type} (m : M A) (Q : A -> store -> Prop) (s : store) :
  reads m ->
  (forall a, run m s = Ok a -> Q a s) ->
  safe s0 m Q s.
Proof.
  intros Hm HQ Hext. rewrite (Hm s). split; [exact Hext | exact HQ].
Qed.

Lemma safe_new_obj (Q : nat -> store -> Prop) (s : store) :
  (fresh_obj s0 (List.length (objs s)) ->
   forall s', arrs s' = arrs s ->
              (forall e, obj_at s' e = obj_at s e) ->
              Q (List.length (objs s)) s') ->
  safe s0 new_obj Q s.
Proof.
  intros HQ [Hobjs Harrs].
  pose proof (firstn_length_le _ _ Hobjs) as Hlen.
  split.
  - split; simpl; [|exact Harrs].
    rewrite firstn_app_le; assumption.
  - intros a [= <-]. apply HQ; [exact Hlen | reflexivity |].
    intros e. apply nth_app_default.
Qed.

Lemma safe_new_arr (l : list hval) (Q : hval -> store -> Prop) (s : store) :
  (forall v s', fresh_val s0 v -> objs s' = objs s -> Q v s') ->
  safe s0 (new_arr l) Q s.
Proof.
  intros HQ [Hobjs Harrs].
  pose proof (firstn_length_le _ _ Harrs) as Hlen.
  split.
  - split; simpl; [exact Hobjs|].
    rewrite firstn_app_le; assumption.
  - intros a [= <-]. apply HQ; [exact Hlen | reflexivity].
Qed.

Lemma safe_write_obj (a : nat) (o : @props hval) (Q : unit -> store -> Prop)
    (s : store) :
  fresh_obj s0 a ->
  (forall s', arrs s' = arrs s ->
              (forall e, obj_at s' e = obj_at s e \/ obj_at s' e = o) ->
              Q tt s') ->
  safe s0 (write_obj a o) Q s.
Proof.
  intros Hfresh HQ [Hobjs Harrs]. split.
  - split; simpl; [|exact Harrs].
    rewrite firstn_set_nth; assumption.
  - intros [] _. apply HQ; [reflexivity|].
    intros e. apply nth_set_nth.
Qed.

Lemma safe_set_prop (a : nat) (key : string) (v : hval)
    (Q : unit -> store -> Prop) (s : store) :
  fresh_obj s0 a ->
  (forall s', arrs s' = arrs s ->
              (forall e, obj_at s' e = obj_at s e \/
                         obj_at s' e = obj_set key v (obj_at s a)) ->
              Q tt s') ->
  safe s0 (set_prop a key v) Q s.
Proof.
  intros Hfresh HQ. unfold set_prop.
  apply safe_reads_bind; [apply reads_read_obj|].
  intros o [= <-]. apply safe_write_obj; assumption.
Qed.

Lemma safe_delete_prop (a : nat) (key : string)
    (Q : unit -> store -> Prop) (s : store) :
  fresh_obj s0 a ->
  (forall s', arrs s' = arrs s ->
              (forall e, obj_at s' e = obj_at s e \/
                         obj_at s' e = obj_delete key (obj_at s a)) ->
              Q tt s') ->
  safe s0 (delete_prop a key) Q s.
Proof.
  intros Hfresh HQ. unfold delete_prop.
  apply safe_reads_bind; [apply reads_read_obj|].
  intros o [= <-]. apply safe_write_obj; assumption.
Qed.

Lemma safe_push (target v : hval) (Q : unit -> store -> Prop) (s : store) :
  fresh_val s0 target ->
  (forall s', objs s' = objs s -> Q tt s') ->
  safe s0 (push target v) Q s.
Proof.
  intros Hfresh HQ. destruct target as [| | |b]; try apply safe_throw.
  simpl. apply safe_reads_bind; [apply reads_read_arr|].
  intros l _ [Hobjs Harrs]. split.
  - split; simpl; [exact Hobjs|].
    rewrite firstn_set_nth; assumption.
  - intros [] _. apply HQ. reflexivity.
Qed.

Lemma safe_forM {A : Type} (I : store -> Prop) (f : A -> M unit)
    (l : list A) (s : store) :
  I s ->
  (forall x s, In x l -> I s -> safe s0 (f x) (fun _ s' => I s') s) ->
  safe s0 (forM f l) (fun _ s' => I s') s.
Proof.
  revert s. induction l as [|x l IH]; intros s HI Hf; simpl.
  - apply safe_ret, HI.
  - apply (safe_bind _ _ (fun _ s' => I s')).
    + apply Hf; [left; reflexivity | exact HI].
    + intros _ s' HI'. apply IH; [exact HI'|].
      intros y s1 Hy. apply Hf. right. exact Hy.
Qed.

Lemma safe_foldM {A B : Type} (I : A -> store -> Prop) (f : A -> B -> M A)
    (l : list B) (a : A) (s : store) :
  I a s ->
  (forall a x s, I a s -> safe s0 (f a x) I s) ->
  safe s0 (foldM f l a) I s.
Proof.
  intros HI Hf. revert a s HI. induction l as [|x l IH]; intros a s HI; simpl.
  - apply safe_ret, HI.
  - apply (safe_bind _ _ I).
    + apply Hf, HI.
    + intros a' s' HI'. apply IH, HI'.
Qed.

Lemma safe_mapM {A B : Type} (P : B -> Prop) (f : A -> M B)
    (l : list A) (s : store) :
  (forall x s, In x l -> safe s0 (f x) (fun y _ => P y) s) ->
  safe s0 (mapM f l) (fun ys _ => Forall P ys) s.
Proof.
  revert s. induction l as [|x l IH]; intros s Hf; simpl.
  - apply safe_ret. constructor.
  - apply (safe_bind _ _ (fun y _ => P y)).
    + apply Hf. left. reflexivity.
    + intros y s' Hy.
      apply (safe_bind _ _ (fun ys _ => Forall P ys)).
      * apply IH. intros z s1 Hz. apply Hf. right. exact Hz.
      * intros ys s'' Hys. apply safe_ret. constructor; assumption.
Qed.


(** *** Entries under construction *)

Lemma good_obj_nil (K : list string) : good_obj s0 K [].
Proof. intros p v _. discriminate. Qed.

Lemma good_obj_set (K : list string) (o : @props hval) (key : string) (v : hval) :
  good_obj s0 K o ->
  includes K key = true \/ fresh_val s0 v ->
  good_obj s0 K (obj_set key v o).
Proof.
  intros Hgood Hv p w HK. rewrite lookup_obj_set_gen.
  destruct (String.eqb_spec key p) as [->|_]; simpl.
  - destruct (has_own o p || negb (String.eqb p "__proto__"))%bool.
    + intros [= <-]. destruct Hv as [Hv|Hv]; [congruence | exact Hv].
    + apply Hgood, HK.
  - apply Hgood, HK.
Qed.

Lemma good_obj_delete (K : list string) (o : @props hval) (key : string) :
  good_obj s0 K o -> good_obj s0 K (obj_delete key o).
Proof.
  intros Hgood p w HK. rewrite lookup_obj_delete.
  destruct (String.eqb key p); [discriminate | apply Hgood, HK].
Qed.

Lemma entries_ok_same (K : list string) (s s' : store) (entries : list nat) :
  (forall e, obj_at s' e = obj_at s e) ->
  entries_ok s0 K s entries -> entries_ok s0 K s' entries.
Proof.
  intros Hobjs. apply Forall_impl. intros e [Hf Hg].
  rewrite Hobjs. auto.
Qed.

Lemma entries_ok_objs (K : list string) (s s' : store) (entries : list nat) :
  objs s' = objs s ->
  entries_ok s0 K s entries -> entries_ok s0 K s' entries.
Proof.
  intros Hobjs. apply entries_ok_same. intros e. unfold obj_at.
  rewrite Hobjs. reflexivity.
Qed.

Lemma entries_ok_update (K : list string) (s s' : store) (o : @props hval)
    (entries : list nat) :
  (forall e, obj_at s' e = obj_at s e \/ obj_at s' e = o) ->
  good_obj s0 K o ->
  entries_ok s0 K s entries -> entries_ok s0 K s' entries.
Proof.
  intros Hobjs Ho. apply Forall_impl. intros e [Hf Hg].
  split; [exact Hf|]. destruct (Hobjs e) as [-> | ->]; assumption.
Qed.

Lemma entries_ok_fresh (K : list string) (s : store) (entries : list nat) :
  entries_ok s0 K s entries -> Forall (fresh_obj s0) entries.
Proof. apply Forall_impl. intros e [Hf _]. exact Hf. Qed.

(** *** The functions of the library *)

Context {rt : Runtime}.

Lemma reads_aggregated (K : list string) (item : nat) :
  reads (aggregated K item).
Proof.
  apply reads_bind; [apply reads_keys | intros; apply reads_ret].
Qed.

Lemma aggregated_outside (K : list string) (item : nat) (s : store)
    (l : list string) (p : string) :
  run (aggregated K item) s = Ok l -> In p l -> includes K p = false.
Proof.
  intros [= <-] Hin. apply filter_In in Hin. destruct Hin as [_ H].
  apply negb_true_iff, H.
Qed.

Lemma reads_composite_key (K : list string) (item : nat) :
  reads (composite_key K item).
Proof.
  apply reads_bind; [apply reads_mapM; intros; apply reads_get_prop|].
  intros vs. apply reads_bind; [apply reads_mapM; intros; apply reads_read_value|].
  intros values. apply reads_ret.
Qed.

Lemma reads_key_is (key : string) (entry : nat) : reads (key_is key entry).
Proof.
  apply reads_bind; [apply reads_get_prop | intros; apply reads_ret].
Qed.

Lemma reads_enough_points (xKey : string) (item : nat) :
  reads (enough_points xKey item).
Proof.
  apply reads_bind; [apply reads_get_prop|]. intros v.
  apply reads_bind; [apply reads_length_of | intros; apply reads_ret].
Qed.

(** Copying the properties of [item] into a fresh object. *)
Lemma safe_copy_props (item a : nat) (ks : list string) (s : store) :
  fresh_obj s0 a ->
  safe s0 (forM (fun key => v <~ get_prop item key ;; set_prop a key v) ks)
    (fun _ _ => True) s.
Proof.
  intros Hfresh.
  apply (safe_forM (fun _ => True)); [exact I|].
  intros key s1 _ _.
  apply safe_reads_bind; [apply reads_get_prop|]. intros v _.
  apply safe_set_prop; auto.
Qed.

Lemma safe_removeExtraProperties (data : list nat) (allowed : list string)
    (s : store) :
  safe s0 (removeExtraProperties data allowed) (fun _ _ => True) s.
Proof.
  unfold removeExtraProperties.
  apply (safe_mono _ (fun ys _ => Forall (fun _ => True) ys)); [|auto].
  apply safe_mapM. intros item s1 _.
  apply safe_reads_bind; [apply reads_keys|]. intros ks _.
  apply (safe_bind _ _ (fun a _ => fresh_obj s0 a)).
  - apply safe_new_obj. auto.
  - intros a s2 Hfresh.
    apply (safe_bind _ _ (fun _ _ => True)).
    + apply safe_copy_props, Hfresh.
    + intros _ s3 _. apply safe_ret, I.
Qed.


Lemma get_prop_good (K : list string) (s : store) (e : nat) (p : string)
    (v : hval) :
  good_obj s0 K (obj_at s e) ->
  includes K p = false ->
  run (get_prop e p) s = Ok v ->
  fresh_val s0 v.
Proof.
  intros Hgood HK [= <-].
  destruct (lookup (obj_at s e) p) as [v|] eqn:Hl; [|exact I].
  apply (Hgood p v HK Hl).
Qed.

(** The reducer of [group] writes to the entries it created and to
    the sequences it created for them, and to nothing else. *)
Lemma safe_group_step (K : list string) (result : list nat) (item : nat)
    (s : store) :
  entries_ok s0 K s result ->
  safe s0 (group_step K result item)
    (fun result' s' => entries_ok s0 K s' result') s.
Proof.
  intros Hok. unfold group_step.
  apply safe_reads_bind; [apply reads_every; intros; apply reads_call_hasOwnProperty|].
  intros ok _. destruct (negb ok); [apply safe_ret, Hok|].
  apply safe_reads_bind; [apply reads_composite_key|]. intros key _.
  apply safe_reads_bind; [apply reads_aggregated|].
  intros aggregatedProperties Hagg.
  apply safe_reads_bind; [apply reads_find; intros; apply reads_key_is|].
  intros [existingEntry|] Hfound.
  - (* pushes through an existing entry *)
    apply find_In in Hfound.
    apply (safe_bind _ _ (fun _ s' => entries_ok s0 K s' result));
      [|intros _ s' Hok'; apply safe_ret, Hok'].
    apply (safe_forM (fun s' => entries_ok s0 K s' result)); [exact Hok|].
    intros property s1 Hin Hok1.
    apply safe_reads_bind; [apply reads_get_prop|]. intros target Htarget.
    apply safe_reads_bind; [apply reads_get_prop|]. intros v _.
    apply safe_push.
    + unfold entries_ok in Hok1. rewrite Forall_forall in Hok1.
      destruct (Hok1 existingEntry Hfound) as [_ Hgood].
      apply (get_prop_good K s1 existingEntry property target Hgood);
        [|exact Htarget].
      apply (aggregated_outside K item s aggregatedProperties property Hagg Hin).
    + intros s' Hobjs. apply (entries_ok_objs K s1 s' result Hobjs Hok1).
  - (* a new entry *)
    apply (safe_bind _ _
             (fun a s' => fresh_obj s0 a /\ good_obj s0 K (obj_at s' a)
                          /\ entries_ok s0 K s' result)).
    { apply safe_new_obj. intros Hfresh s' _ Hobjs.
      split; [exact Hfresh|]. split.
      - rewrite Hobjs. unfold obj_at.
        rewrite nth_overflow; [apply good_obj_nil | lia].
      - apply (entries_ok_same K s s' result Hobjs Hok). }
    intros newEntry s1 [Hfresh [Hnew Hok1]].
    set (Inv := fun s' : store =>
                good_obj s0 K (obj_at s' newEntry) /\
                entries_ok s0 K s' result).
    assert (Hset : forall k v s2,
              includes K k = true \/ fresh_val s0 v ->
              Inv s2 ->
              safe s0 (set_prop newEntry k v) (fun _ s' => Inv s') s2).
    { intros k v s2 Hv [Hg Hes].
      apply safe_set_prop; [exact Hfresh|].
      intros s' _ Hobjs.
      assert (Hg' : good_obj s0 K (obj_set k v (obj_at s2 newEntry)))
        by (apply good_obj_set; assumption).
      split.
      - destruct (Hobjs newEntry) as [-> | ->]; assumption.
      - apply (entries_ok_update K s2 s' _ result Hobjs Hg' Hes). }
    apply (safe_bind _ _ (fun _ s' => Inv s')).
    { apply (safe_forM Inv); [split; assumption|].
      intros k s2 Hin HI.
      apply safe_reads_bind; [apply reads_get_prop|]. intros v _.
      apply Hset; [|exact HI]. left. apply includes_In, Hin. }
    intros _ s2 HI2.
    apply (safe_bind _ _ (fun _ s' => Inv s')).
    { apply (safe_forM Inv); [exact HI2|].
      intros property s3 Hin [Hg Hes].
      apply safe_reads_bind; [apply reads_get_prop|]. intros v _.
      apply (safe_bind _ _ (fun w s' => fresh_val s0 w /\ Inv s')).
      - apply safe_new_arr. intros w s' Hw Hobjs.
        split; [exact Hw|]. split.
        + unfold obj_at. rewrite Hobjs. exact Hg.
        + apply (entries_ok_objs K s3 s' result Hobjs Hes).
      - intros w s4 [Hw HI4]. apply Hset; [right; exact Hw | exact HI4]. }
    intros _ s3 HI3.
    apply (safe_bind _ _ (fun _ s' => Inv s')).
    { apply Hset; [right; exact I | exact HI3]. }
    intros _ s4 [Hg Hes]. apply safe_ret.
    apply Forall_app. split; [exact Hes|].
    constructor; [split; assumption | constructor].
Qed.

Lemma safe_group (data : list nat) (K : list string) (s : store) :
  safe s0 (group data K) (fun entries _ => Forall (fresh_obj s0) entries) s.
Proof.
  unfold group.
  apply (safe_bind _ _ (fun result s' => entries_ok s0 K s' result)).
  - apply safe_foldM; [constructor|].
    intros result item s1. apply safe_group_step.
  - intros result s1 Hok. apply entries_ok_fresh in Hok.
    apply safe_mapM. intros item s2 Hin.
    rewrite Forall_forall in Hok. specialize (Hok item Hin).
    apply (safe_bind _ _ (fun _ _ => True)).
    + apply safe_delete_prop; auto.
    + intros _ s3 _. apply safe_ret, Hok.
Qed.

Lemma safe_filter_enough_points (xKey : string) (grouped : list nat)
    (s : store) :
  Forall (fresh_obj s0) grouped ->
  safe s0 (filterM (enough_points xKey) grouped)
    (fun groupedData _ => Forall (fresh_obj s0) groupedData) s.
Proof.
  intros Hfresh. apply safe_reads.
  - apply reads_filterM. intros. apply reads_enough_points.
  - intros groupedData Hrun. apply filterM_incl in Hrun.
    rewrite Forall_forall in *. auto.
Qed.

Lemma safe_predict_entry (xKey yKey : string) (newXs : hval) (item : nat)
    (s : store) :
  fresh_obj s0 item ->
  safe s0 (predict_entry xKey yKey newXs item) (fun _ _ => True) s.
Proof.
  intros Hfresh. unfold predict_entry.
  apply safe_reads_bind; [apply reads_get_prop|]. intros x _.
  apply safe_reads_bind; [apply reads_get_prop|]. intros y _.
  apply safe_reads_bind; [apply reads_read_value|]. intros xValues _.
  apply safe_reads_bind; [apply reads_read_value|]. intros yValues _.
  destruct (linearRegressionPredictor xValues yValues) as [predictor|e];
    [|apply safe_throw].
  apply (safe_bind _ _ (fun _ _ => True)); [apply safe_set_prop; auto|].
  intros _ s1 _.
  apply safe_reads_bind; [apply reads_elements|]. intros elems _.
  apply safe_reads_bind; [apply reads_mapM; intros; apply reads_read_value|].
  intros values _.
  apply (safe_bind _ _ (fun _ _ => True)); [apply safe_new_arr; auto|].
  intros predictions s2 _.
  apply (safe_bind _ _ (fun _ _ => True)); [apply safe_set_prop; auto|].
  intros _ s3 _. apply safe_ret, I.
Qed.

Lemma safe_ungroup_item (K aggregatedProperties : list string) (item i : nat)
    (s : store) :
  safe s0 (ungroup_item K aggregatedProperties item i) (fun _ _ => True) s.
Proof.
  unfold ungroup_item.
  apply (safe_bind _ _ (fun a _ => fresh_obj s0 a));
    [apply safe_new_obj; auto|].
  intros newItem s1 Hfresh.
  apply (safe_bind _ _ (fun _ _ => True));
    [apply safe_copy_props, Hfresh|].
  intros _ s2 _.
  apply (safe_bind _ _ (fun _ _ => True)); [|intros; apply safe_ret, I].
  apply (safe_forM (fun _ => True)); [exact I|].
  intros property s3 _ _.
  apply safe_reads_bind; [apply reads_get_prop|]. intros sequence _.
  apply safe_reads_bind; [apply reads_index_of|]. intros v _.
  apply safe_set_prop; auto.
Qed.

Lemma safe_ungroup (array : list nat) (K : list string) (s : store) :
  safe s0 (ungroup array K) (fun _ _ => True) s.
Proof.
  unfold ungroup.
  apply (safe_foldM (fun _ _ => True)); [exact I|].
  intros newArray item s1 _.
  apply (safe_bind _ _ (fun _ _ => True)); [|intros; apply safe_ret, I].
  unfold ungroup_entry.
  apply safe_reads_bind; [apply reads_aggregated|].
  intros aggregatedProperties _.
  apply safe_reads_bind; [apply reads_get_prop|]. intros bound _.
  apply safe_reads_bind; [apply reads_length_of|]. intros [n|] _;
    [|apply safe_ret, I].
  apply (safe_mono _ (fun items _ => Forall (fun _ => True) items)); [|auto].
  apply safe_mapM. intros i s2 _. apply safe_ungroup_item.
Qed.

Lemma safe_batchPredict (data : list nat) (K : list string)
    (xKey yKey : string) (newXs : hval) (s : store) :
  safe s0 (batchPredict data K xKey yKey newXs) (fun _ _ => True) s.
Proof.
  unfold batchPredict.
  apply (safe_bind _ _ (fun _ _ => True));
    [apply safe_removeExtraProperties|].
  intros data' s1 _.
  apply (safe_bind _ _ (fun entries _ => Forall (fresh_obj s0) entries));
    [apply safe_group|].
  intros grouped s2 Hgrouped.
  apply (safe_bind _ _ (fun entries _ => Forall (fresh_obj s0) entries));
    [apply safe_filter_enough_points, Hgrouped|].
  intros groupedData s3 Hfresh.
  apply (safe_bind _ _ (fun _ _ => True)); [|intros; apply safe_ungroup].
  apply (safe_mono _ (fun items _ => Forall (fun _ => True) items)); [|auto].
  apply safe_mapM. intros item s4 Hin.
  apply safe_predict_entry.
  rewrite Forall_forall in Hfresh. apply Hfresh, Hin.
Qed.
End Safe.

(** C8.  Whatever store [batchPredict] is started in and whatever its
    arguments, and whether it returns or throws, every object and
    every array of that store is afterwards what it was before: the
    records handed to the call keep their fields and field values. *)
Theorem batchPredict_preserves_records {rt : Runtime} (s : store)
    (data : list nat) (K : list string) (xKey yKey : string) (newXs : hval) :
  extends s (final (batchPredict data K xKey yKey newXs) s).
Proof.
  apply (safe_batchPredict s data K xKey yKey newXs s), extends_refl.
Qed.

(** ** What the library returns is new

    The objects the calls return were created by them. *)
Section Fresh.
Context {rt : Runtime}.
Variable s0 : store.

Lemma safe_removeExtraProperties_fresh (data : list nat)
    (allowed : list string) (s : store) :
  safe s0 (removeExtraProperties data allowed)
    (fun filtered _ => Forall (fresh_obj s0) filtered) s.
Proof.
  unfold removeExtraProperties.
  apply safe_mapM. intros item s1 _.
  apply safe_reads_bind; [apply reads_keys|]. intros ks _.
  apply (safe_bind s0 _ _ (fun a _ => fresh_obj s0 a)).
  - apply safe_new_obj. auto.
  - intros a s2 Hfresh.
    apply (safe_bind s0 _ _ (fun _ _ => True)).
    + apply safe_copy_props, Hfresh.
    + intros _ s3 _. apply safe_ret, Hfresh.
Qed.

Lemma safe_ungroup_item_fresh (K aggregatedProperties : list string)
    (item i : nat) (s : store) :
  safe s0 (ungroup_item K aggregatedProperties item i)
    (fun a _ => fresh_obj s0 a) s.
Proof.
  unfold ungroup_item.
  apply (safe_bind s0 _ _ (fun a _ => fresh_obj s0 a));
    [apply safe_new_obj; auto|].
  intros newItem s1 Hfresh.
  apply (safe_bind s0 _ _ (fun _ _ => True));
    [apply safe_copy_props, Hfresh|].
  intros _ s2 _.
  apply (safe_bind s0 _ _ (fun _ _ => True));
    [|intros; apply safe_ret, Hfresh].
  apply (safe_forM s0 (fun _ => True)); [exact I|].
  intros property s3 _ _.
  apply safe_reads_bind; [apply reads_get_prop|]. intros sequence _.
  apply safe_reads_bind; [apply reads_index_of|]. intros v _.
  apply safe_set_prop; auto.
Qed.

Lemma safe_ungroup_fresh (array : list nat) (K : list string) (s : store) :
  safe s0 (ungroup array K) (fun rows _ => Forall (fresh_obj s0) rows) s.
Proof.
  unfold ungroup.
  apply (safe_foldM s0 (fun rows _ => Forall (fresh_obj s0) rows));
    [constructor|].
  intros newArray item s1 Hnew.
  apply (safe_bind s0 _ _ (fun items _ => Forall (fresh_obj s0) items)).
  2: { intros items s2 Hitems. apply safe_ret, Forall_app.
       split; assumption. }
  unfold ungroup_entry.
  apply safe_reads_bind; [apply reads_aggregated|].
  intros aggregatedProperties _.
  apply safe_reads_bind; [apply reads_get_prop|]. intros bound _.
  apply safe_reads_bind; [apply reads_length_of|]. intros [n|] _;
    [|apply safe_ret; constructor].
  apply safe_mapM. intros i s2 _. apply safe_ungroup_item_fresh.
Qed.

Lemma safe_batchPredict_fresh (data : list nat) (K : list string)
    (xKey yKey : string) (newXs : hval) (s : store) :
  safe s0 (batchPredict data K xKey yKey newXs)
    (fun rows _ => Forall (fresh_obj s0) rows) s.
Proof.
  unfold batchPredict.
  apply (safe_bind s0 _ _ (fun _ _ => True));
    [apply safe_removeExtraProperties|].
  intros data' s1 _.
  apply (safe_bind s0 _ _ (fun entries _ => Forall (fresh_obj s0) entries));
    [apply safe_group|].
  intros grouped s2 Hgrouped.
  apply (safe_bind s0 _ _ (fun entries _ => Forall (fresh_obj s0) entries));
    [apply safe_filter_enough_points, Hgrouped|].
  intros groupedData s3 Hfresh.
  apply (safe_bind s0 _ _ (fun _ _ => True));
    [|intros; apply safe_ungroup_fresh].
  apply (safe_mono s0 _ (fun items _ => Forall (fun _ => True) items)); [|auto].
  apply safe_mapM. intros item s4 Hin.
  apply safe_predict_entry.
  rewrite Forall_forall in Hfresh. apply Hfresh, Hin.
Qed.
End Fresh.

(** X10. Let none of the records handed to [group] have a field
    named ["__proto__"] (a record that has one gives the entry made
    from it another prototype, through which a later push can reach
    an array of the caller's).  Then [group] changes no object and no
    array of the store it is started in, whether it returns or
    throws, and the entries it returns are objects it created: none
    of them is one of the caller's records. *)
Theorem store_group_fresh_entries {rt : Runtime} (s : store)
    (array : list nat) (K : list string) :
  (forall a, In a array -> lookup (obj_at s a) "__proto__" = None) ->
  extends s (final (group array K) s) /\
  forall entries, run (group array K) s = Ok entries ->
                  Forall (fresh_obj s) entries.
Proof.
  intros _. apply (safe_group s array K s), extends_refl.
Qed.

(** X11. [ungroup] changes no object and no array of the store it is
    started in, whether it returns or throws, and the records it
    returns are objects it created. *)
Theorem store_ungroup_fresh_records (s : store)
    (array : list nat) (K : list string) :
  extends s (final (ungroup array K) s) /\
  forall records, run (ungroup array K) s = Ok records ->
                  Forall (fresh_obj s) records.
Proof.
  apply (safe_ungroup_fresh s array K s), extends_refl.
Qed.

(** X12. [removeExtraProperties] changes no object and no array of the
    store it is started in, and the objects it returns are objects it
    created: the originals keep the fields that are not allowed. *)
Theorem store_removeExtraProperties_fresh (s : store)
    (data : list nat) (allowed : list string) :
  extends s (final (removeExtraProperties data allowed) s) /\
  forall filtered, run (removeExtraProperties data allowed) s = Ok filtered ->
                   Forall (fresh_obj s) filtered.
Proof.
  apply (safe_removeExtraProperties_fresh s data allowed s), extends_refl.
Qed.

(** X13. The records [batchPredict] returns are objects it created:
    none of them is one of the records it was given. *)
Theorem store_batchPredict_fresh_records {rt : Runtime} (s : store)
    (data : list nat) (K : list string) (xKey yKey : string) (newXs : hval)
    (records : list nat) :
  run (batchPredict data K xKey yKey newXs) s = Ok records ->
  Forall (fresh_obj s) records.
Proof.
  apply (safe_batchPredict_fresh s data K xKey yKey newXs s), extends_refl.
Qed.
End StoreFacts.
(** ** Concrete runs

    The statements below are closed: they run the library with the
    reference runtime on explicit inputs. *)

#[local] Existing Instance reference_runtime.

Lemma linearRegressionPredictor_ols_witness :
  exists predictor,
    linearRegressionPredictor
      (VArr (map VNum (map num_of_Z [1; 2; 3]%Z)))
      (VArr (map VNum (map num_of_Z [2; 4; 7]%Z)))
    = Ok predictor /\
    forall newX : num,
      predictor (VNum newX) =
      VNum (nadd (nmul (ols_slope (map num_of_Z [1; 2; 3]%Z)
                          (map num_of_Z [2; 4; 7]%Z)) newX)
              (ols_intercept (map num_of_Z [1; 2; 3]%Z) (map num_of_Z [2; 4; 7]%Z))).
Proof.
  apply (linearRegressionPredictor_ols (map num_of_Z [1; 2; 3]%Z)
           (map num_of_Z [2; 4; 7]%Z)).
  - reflexivity.
  - simpl. lia.
Defined.

(** The line fitted to [(1, 2), (2, 4), (3, 7)] predicts, at 4, the
    double the language prints as 9.333333333333332: the quotient
    28/3 is not reached. *)
#[warnings="-inexact-float"]
Example linearRegressionPredictor_rounds :
  exists predictor,
    linearRegressionPredictor (VArr (map int [1; 2; 3]%Z))
      (VArr (map int [2; 4; 7]%Z)) = Ok predictor /\
    predictor (int 4) = VNum 9.333333333333332%float /\
    predictor (int 4) <> VNum (ndiv (num_of_Z 28) (num_of_Z 3)).
Proof.
  eexists. split; [reflexivity|]. split; [vm_compute; reflexivity|].
  vm_compute. discriminate.
Qed.


(** C5: with the stringified values joined by a dash, two records of
    different key values fall into one group and come back with the key
    values of the first. *)
Lemma ungroup_group_collision :
  (forall r, In r colliding_records ->
     forall k, In k ["a"; "b"] -> lookup r k <> None) /\
  exists grouped records,
    group colliding_records ["a"; "b"] = Ok grouped /\
    ungroup grouped ["a"; "b"] = Ok records /\
    ~ same_records records colliding_records.
Proof.
  split.
  - intros r Hr k Hk. simpl in Hr, Hk.
    destruct Hr as [<-|[<-|[]]]; destruct Hk as [<-|[<-|[]]];
      vm_compute; discriminate.
  - eexists. eexists. split; [vm_compute; reflexivity|].
    split; [vm_compute; reflexivity|].
    intros [l [HF HP]].
    assert (Ha : Forall (fun r => lookup r "a" = Some (VStr "x-y")) l).
    { inversion HF as [|r1 l1 ? ? H1 HF1]; subst.
      inversion HF1 as [|r2 l2 ? ? H2 HF2]; subst.
      inversion HF2; subst.
      repeat constructor; [rewrite <- (H1 "a") | rewrite <- (H2 "a")]; reflexivity. }
    rewrite Forall_forall in Ha.
    assert (Hin : In [("a", VStr "x"); ("b", VStr "y-z"); ("v", int 2)] l).
    { apply (Permutation_in _ (Permutation_sym HP)). right. left. reflexivity. }
    specialize (Ha _ Hin). discriminate.
Qed.

Lemma ungroup_group_same_records_witness :
  exists grouped records,
    group small_data ["branch"] = Ok grouped /\
    ungroup grouped ["branch"] = Ok records /\
    same_records records small_data.
Proof.
  apply (ungroup_group_same_records small_data ["branch"]).
  - intros r Hr. simpl in Hr.
    destruct Hr as [<-|[<-|[<-|[]]]];
      repeat constructor; simpl; intuition discriminate.
  - intros r Hr k Hk. simpl in Hr, Hk.
    destruct Hk as [<-|[]].
    destruct Hr as [<-|[<-|[<-|[]]]]; vm_compute; discriminate.
  - intros r Hr. simpl in Hr. destruct Hr as [<-|[<-|[<-|[]]]]; reflexivity.
  - intros r Hr. simpl in Hr. destruct Hr as [<-|[<-|[<-|[]]]]; reflexivity.
  - intros r Hr. simpl in Hr. destruct Hr as [<-|[<-|[<-|[]]]]; reflexivity.
  - intros r Hr. exists "period". simpl in Hr. split.
    + simpl. intuition discriminate.
    + destruct Hr as [<-|[<-|[<-|[]]]]; vm_compute; discriminate.
  - intros r r' Hr Hr' Hck. simpl in Hr, Hr'.
    destruct Hr as [<-|[<-|[<-|[]]]]; destruct Hr' as [<-|[<-|[<-|[]]]];
      vm_compute in Hck; try discriminate Hck;
      (split; [intros k [<-|[]]; reflexivity|]);
      apply same_keys_same_names; reflexivity.
Defined.

(** C6: a group whose second record lacks the dependent field survives
    the filter and reaches the Regressor with sequences of lengths two
    and one. *)
Lemma batchPredict_reaches_InvalidInput :
  batchPredict ragged_records ["b"] "x" "y" [int 7] = Throw InvalidInput.
Proof. vm_compute. reflexivity. Qed.

Lemma batchPredict_regressor_errors_unreachable_witness :
  batchPredict small_data ["branch"] "period" "sales" [int 7; int 8]
    <> Throw InvalidInput /\
  batchPredict small_data ["branch"] "period" "sales" [int 7; int 8]
    <> Throw InsufficientData.
Proof.
  apply (batchPredict_regressor_errors_unreachable small_data ["branch"]
           "period" "sales" [int 7; int 8]).
  - intros r Hr _. simpl in Hr.
    destruct Hr as [<-|[<-|[<-|[]]]]; split; vm_compute; discriminate.
  - simpl. intuition discriminate.
  - simpl. intuition discriminate.
  - discriminate.
  - discriminate.
Defined.



Lemma group_hides_key_witness :
  Forall (fun entry => lookup entry "key" = None)
    [ [("city", VStr "Oslo"); ("name", VArr [VStr "Ada"])] ].
Proof.
  apply (group_hides_key keyed_records ["city"]).
  vm_compute. reflexivity.
Defined.

(** C10: an entry whose only field is a grouping key named
    ["undefined"] makes [ungroup] return, with no record. *)
Lemma ungroup_undefined_key_field :
  (forall k, In k (obj_keys [("undefined", int 5)]) -> In k ["undefined"]) /\
  ungroup [ [("undefined", int 5)] ] ["undefined"] = Ok [].
Proof.
  split; [intros k Hk; exact Hk | vm_compute; reflexivity].
Qed.

Lemma ungroup_fails_without_sequences_witness :
  ungroup [ [("city", VStr "Oslo"); ("name", VArr [VStr "Ada"])];
            [("city", VStr "Rome")] ] ["city"]
  = Throw TypeError.
Proof.
  apply (ungroup_fails_without_sequences _ ["city"]).
  right. left. split.
  - intros k [<-|[]]. left. reflexivity.
  - reflexivity.
Defined.

(** The two presentations of the library agree on the README example,
    and the store version leaves the twelve records in place. *)
Example store_batchPredict_readme :
  let s0 := Store.load readme_data [int 7; int 8] in
  let m := Store.batchPredict (seq 0 12) ["branch"] "period" "sales" (Store.HRef 0) in
  match Store.run m s0 with
  | Ok rows => Ok (Store.read_records (Store.final m s0) rows)
  | Throw e => Throw e
  end
  = batchPredict readme_data ["branch"] "period" "sales" [int 7; int 8]
  /\ Store.read_records (Store.final m s0) (seq 0 12) = readme_data.
Proof. vm_compute. split; reflexivity. Qed.

(** What the side conditions of the round trip rule out. *)

Example round_trip_needs_a_sequence :
  (grouped <- group [ [("a", int 1)] ] ["a"] ;; ungroup grouped ["a"])
  = Throw TypeError.
Proof. vm_compute. reflexivity. Qed.

Example round_trip_drops_key_field :
  (grouped <- group keyed_records ["city"] ;; ungroup grouped ["city"])
  = Ok [ [("city", VStr "Oslo"); ("name", VStr "Ada")] ].
Proof. vm_compute. reflexivity. Qed.

Example round_trip_needs_same_names :
  group [ [("a", int 1); ("v", int 1)]; [("a", int 1); ("w", int 2)] ] ["a"]
  = Throw TypeError.
Proof. vm_compute. reflexivity. Qed.

Example round_trip_needs_the_method :
  group [ [("b", VStr "A"); ("hasOwnProperty", int 1); ("v", int 1)] ] ["b"]
  = Throw TypeError.
Proof. vm_compute. reflexivity. Qed.

Example round_trip_drops_proto_field :
  (grouped <- group [ [("b", VStr "A"); ("__proto__", int 5); ("v", int 1)] ] ["b"] ;;
   ungroup grouped ["b"])
  = Ok [ [("b", VStr "A"); ("v", int 1)] ].
Proof. vm_compute. reflexivity. Qed.

Example store_batchPredict_ragged :
  let s0 := Store.load ragged_records [int 7] in
  let m := Store.batchPredict [0; 1] ["b"] "x" "y" (Store.HRef 0) in
  Store.run m s0 = Throw InvalidInput
  /\ Store.read_records (Store.final m s0) [0; 1] = ragged_records.
Proof. vm_compute. split; reflexivity. Qed.

(** ** Instances of the conditional statements *)

Lemma group_entries_per_key_witness :
  exists entries,
    group small_data ["branch"] = Ok entries /\
    Forall2
      (fun entry c =>
         exists first rest,
           members ["branch"] small_data c = first :: rest /\
           (forall k, In k ["branch"] -> k <> "key" ->
                      lookup entry k = lookup first k) /\
           (forall p, p <> "key" ->
                      (lookup entry p = None <-> lookup first p = None)))
      entries (group_keys ["branch"] small_data).
Proof.
  eexists. split; [vm_compute; reflexivity|].
  apply (group_entries_per_key ["branch"] small_data).
  - intros r Hr. simpl in Hr.
    destruct Hr as [<-|[<-|[<-|[]]]]; reflexivity.
  - vm_compute. reflexivity.
Defined.

Lemma group_columnar_witness :
  exists entries,
    group small_data ["branch"] = Ok entries /\
    Forall2 (fun entry c => columnar ["branch"] entry (members ["branch"] small_data c))
      entries (group_keys ["branch"] small_data).
Proof.
  apply (group_columnar small_data ["branch"]).
  - intros r Hr. simpl in Hr.
    destruct Hr as [<-|[<-|[<-|[]]]]; reflexivity.
  - intros r Hr _. simpl in Hr. split; [|split].
    + destruct Hr as [<-|[<-|[<-|[]]]];
        repeat constructor; simpl; intuition discriminate.
    + destruct Hr as [<-|[<-|[<-|[]]]]; reflexivity.
    + destruct Hr as [<-|[<-|[<-|[]]]]; reflexivity.
  - intros r r' Hr Hr' _ _ _ p _. simpl in Hr, Hr'.
    destruct Hr as [<-|[<-|[<-|[]]]]; destruct Hr' as [<-|[<-|[<-|[]]]];
      unfold sale, lookup;
      destruct (String.eqb "branch" p); try (split; congruence);
      destruct (String.eqb "period" p); try (split; congruence);
      destruct (String.eqb "sales" p); split; congruence.
Defined.

Lemma group_unseen_field_throws_witness :
  group ([ [("b", VStr "A"); ("x", int 1)] ]
         ++ [("b", VStr "A"); ("x", int 2); ("y", int 3)] :: [])
        ["b"]
  = Throw TypeError.
Proof.
  apply (group_unseen_field_throws ["b"]
           [ [("b", VStr "A"); ("x", int 1)] ] []
           [("b", VStr "A"); ("x", int 1)]
           [("b", VStr "A"); ("x", int 2); ("y", int 3)]
           [] "y").
  - intros r Hr. simpl in Hr. destruct Hr as [<-|[<-|[]]]; reflexivity.
  - reflexivity.
  - vm_compute. reflexivity.
  - simpl. intuition discriminate.
  - vm_compute. discriminate.
  - reflexivity.
Defined.

Lemma ungroup_rows_witness :
  exists rows,
    ungroup [ [("branch", VStr "A");
               ("period", VArr [int 1; int 2]); ("sales", VArr [int 2])] ]
            ["branch"]
    = Ok rows /\
    Forall2 (fun row ei => row_of ["branch"] (fst ei) (snd ei) row) rows
      (flat_map (fun e => map (pair e) (seq 0 (entry_bound ["branch"] e)))
         [ [("branch", VStr "A");
            ("period", VArr [int 1; int 2]); ("sales", VArr [int 2])] ]).
Proof.
  apply (ungroup_rows ["branch"]).
  intros e [<-|[]]. split; [|split; [|split]].
  - intros k [<-|[]]. vm_compute. discriminate.
  - reflexivity.
  - vm_compute. discriminate.
  - intros p Hp. vm_compute in Hp.
    destruct Hp as [<-|[<-|[]]]; eexists; vm_compute; reflexivity.
Defined.

Lemma batchPredict_rows_witness :
  exists rows,
    batchPredict small_data ["branch"] "period" "sales" [int 3; int 4] = Ok rows /\
    Forall2 (fun row cx =>
               prediction_row ["branch"] "period" "sales" small_data
                 (fst cx) (snd cx) row)
      rows
      (flat_map (fun c => map (pair c) [int 3; int 4])
         (fitted_keys ["branch"] small_data)).
Proof.
  apply (batchPredict_rows small_data ["branch"] "period" "sales").
  - intros r Hr _. simpl in Hr.
    destruct Hr as [<-|[<-|[<-|[]]]]; split; vm_compute; discriminate.
  - simpl. intuition discriminate.
  - simpl. intuition discriminate.
  - repeat split; discriminate.
  - repeat split; discriminate.
  - intros k [<-|[]]. repeat split; discriminate.
Defined.

Lemma batchPredict_single_records_witness :
  batchPredict [sale "A" 1 2; sale "B" 2 3; stray_record]
    ["branch"] "period" "sales" [int 3]
  = Ok [].
Proof.
  apply (batchPredict_single_records [sale "A" 1 2; sale "B" 2 3; stray_record]
           ["branch"] "period" "sales").
  - intros r Hr _. simpl in Hr.
    destruct Hr as [<-|[<-|[<-|[]]]]; split; vm_compute; discriminate.
  - simpl. intuition discriminate.
  - simpl. intuition discriminate.
  - repeat split; discriminate.
  - repeat split; discriminate.
  - intros k [<-|[]]. repeat split; discriminate.
  - vm_compute. repeat constructor; simpl; intuition discriminate.
Defined.

Lemma store_batchPredict_fresh_records_witness :
  Forall (Store.fresh_obj (Store.load readme_data [int 7; int 8]))
    [26; 27; 28; 29].
Proof.
  apply (StoreFacts.store_batchPredict_fresh_records
           (Store.load readme_data [int 7; int 8])
           (seq 0 12) ["branch"] "period" "sales" (Store.HRef 0)).
  vm_compute. reflexivity.
Defined.

Lemma store_group_fresh_entries_witness :
  let s := Store.load small_data [] in
  Store.extends s (Store.final (Store.group [0; 1; 2] ["branch"]) s) /\
  forall entries,
    Store.run (Store.group [0; 1; 2] ["branch"]) s = Ok entries ->
    Forall (Store.fresh_obj s) entries.
Proof.
  apply (StoreFacts.store_group_fresh_entries
           (Store.load small_data []) [0; 1; 2] ["branch"]).
  intros a Ha. simpl in Ha. destruct Ha as [<-|[<-|[<-|[]]]]; reflexivity.
Defined.

Lemma batchPredict_delegating_keeps_xs_witness :
  exists entries,
    Forall2 (delegated_entry (fun _ newX => newX) ["branch"] "period" "sales"
               small_data [int 3; int 4])
      entries (fitted_keys ["branch"] small_data) /\
    batchPredict_delegating (fun _ newX => newX) small_data
      ["branch"] "period" "sales" [int 3; int 4]
    = ungroup entries ["branch"].
Proof.
  apply (batchPredict_delegating_keeps_xs (fun _ newX => newX) small_data
           ["branch"] "period" "sales").
  - intros r Hr _. simpl in Hr.
    destruct Hr as [<-|[<-|[<-|[]]]]; split; vm_compute; discriminate.
  - simpl. intuition discriminate.
  - simpl. intuition discriminate.
  - repeat split; discriminate.
  - repeat split; discriminate.
  - intros k [<-|[]]. repeat split; discriminate.
Defined.
